(** * ikrig: FK skeleton to IK-rig pose encoding and decoding

    A shallow embedding of [python/ikrig.py]: the chain encoder
    [FK2encoded], the chain decoder [encoded2IK], and the bodies of the two
    node [compute] methods ([ikrig_encode] and [ikrig_decode]).

    Numbers are mathematical reals: a Python float is read as the real it
    denotes, and rounding is not modelled.  The vector, matrix and
    quaternion classes of the host library are not part of the repository;
    their operations are modelled from the specification (section 3) and
    are marked as such. *)

From Stdlib Require Import Reals Lra Psatz Lia List Field PeanoNat.
From Stdlib Require String Ascii DecimalString ZArith.
Import ListNotations.

Open Scope R_scope.

(* ------------------------------------------------------------------ *)
(** ** Failures *)

(** [SingularMatrix] is the failure of the specification's matrix
    inversion, [IndexError] is Python's out-of-range subscript.
    [DegenerateChain] and [MalformedPose] complete the taxonomy of
    section 7 of the specification. *)
Inductive error : Type :=
| SingularMatrix
| DegenerateChain
| MalformedPose
| IndexError.

Inductive result (A : Type) : Type :=
| Ok (a : A)
| Err (e : error).

Arguments Ok {A} a.
Arguments Err {A} e.

Definition bind {A B : Type} (r : result A) (k : A -> result B) : result B :=
  match r with
  | Ok a => k a
  | Err e => Err e
  end.

Declare Scope result_scope.
Delimit Scope result_scope with result.
Notation "x <- e ;; k" := (bind e (fun x => k))
  (at level 61, e at next level, right associativity) : result_scope.
Open Scope result_scope.

(* ------------------------------------------------------------------ *)
(** ** Vectors *)

Record MVector : Type := mkV { vx : R; vy : R; vz : R }.

Module Vec.

Definition zero : MVector := mkV 0 0 0.

Definition sub (a b : MVector) : MVector :=
  mkV (vx a - vx b) (vy a - vy b) (vz a - vz b).

(** The [^] operator. *)
Definition cross (a b : MVector) : MVector :=
  mkV (vy a * vz b - vz a * vy b)
      (vz a * vx b - vx a * vz b)
      (vx a * vy b - vy a * vx b).

Definition dot (a b : MVector) : R :=
  vx a * vx b + vy a * vy b + vz a * vz b.

Definition scale (v : MVector) (s : R) : MVector :=
  mkV (vx v * s) (vy v * s) (vz v * s).

Definition div (v : MVector) (s : R) : MVector :=
  mkV (vx v / s) (vy v / s) (vz v / s).

Definition length (v : MVector) : R := sqrt (dot v v).

(** Modelled from the spec: [normal()] of the host vector class, the
    unit-length copy of the vector.  On the zero vector every component
    is [0 / 0], which is [0] here: the zero result of section 3. *)
Definition normal (v : MVector) : MVector := div v (length v).

(** [len(v)] and [v[i]] as the packing loop of the encoder uses them. *)
Definition get (v : MVector) (i : nat) : result R :=
  match i with
  | 0%nat => Ok (vx v)
  | 1%nat => Ok (vy v)
  | 2%nat => Ok (vz v)
  | _ => Err IndexError
  end.

Definition to_list (v : MVector) : list R := [vx v; vy v; vz v].

End Vec.

(* ------------------------------------------------------------------ *)
(** ** Quaternions and Euler rotations *)

Record MQuaternion : Type := mkQ { qx : R; qy : R; qz : R; qw : R }.

(** The conversion of a quaternion to Euler angles is a service of the
    host library that neither the repository nor the specification
    defines.  An Euler rotation is therefore kept as the quaternion it was
    converted from: [asEulerRotation q] reads "the Euler conversion of
    [q]". *)
Record MEulerRotation : Type := asEulerRotation { euler_of : MQuaternion }.

Module Quat.

Definition identity : MQuaternion := mkQ 0 0 0 1.

Definition to_list (q : MQuaternion) : list R := [qx q; qy q; qz q; qw q].

End Quat.

(* ------------------------------------------------------------------ *)
(** ** Matrices *)

(** A 4x4 matrix, row-major: [mRC] is row [R], column [C]; the flat index
    of the source is [4 * R + C], so the translation [m30 m31 m32] is
    [mat[12]], [mat[13]], [mat[14]]. *)
Record MMatrix : Type := mkM {
  m00 : R; m01 : R; m02 : R; m03 : R;
  m10 : R; m11 : R; m12 : R; m13 : R;
  m20 : R; m21 : R; m22 : R; m23 : R;
  m30 : R; m31 : R; m32 : R; m33 : R
}.

Module Mat.

Definition identity : MMatrix :=
  mkM 1 0 0 0
      0 1 0 0
      0 0 1 0
      0 0 0 1.

Definition to_list (m : MMatrix) : list R :=
  [m00 m; m01 m; m02 m; m03 m;
   m10 m; m11 m; m12 m; m13 m;
   m20 m; m21 m; m22 m; m23 m;
   m30 m; m31 m; m32 m; m33 m].

(** [mat[i]] *)
Definition get (m : MMatrix) (i : nat) : result R :=
  match nth_error (to_list m) i with
  | Some x => Ok x
  | None => Err IndexError
  end.

(** [mat[12] = x], [mat[13] = x], [mat[14] = x]: the three stores of the
    source. *)
Definition set12 (m : MMatrix) (x : R) : MMatrix :=
  mkM (m00 m) (m01 m) (m02 m) (m03 m)
      (m10 m) (m11 m) (m12 m) (m13 m)
      (m20 m) (m21 m) (m22 m) (m23 m)
      x       (m31 m) (m32 m) (m33 m).

Definition set13 (m : MMatrix) (x : R) : MMatrix :=
  mkM (m00 m) (m01 m) (m02 m) (m03 m)
      (m10 m) (m11 m) (m12 m) (m13 m)
      (m20 m) (m21 m) (m22 m) (m23 m)
      (m30 m) x       (m32 m) (m33 m).

Definition set14 (m : MMatrix) (x : R) : MMatrix :=
  mkM (m00 m) (m01 m) (m02 m) (m03 m)
      (m10 m) (m11 m) (m12 m) (m13 m)
      (m20 m) (m21 m) (m22 m) (m23 m)
      (m30 m) (m31 m) x       (m33 m).

(** Modelled from the spec: the matrix product of the host library,
    row-vector convention ([A * B] transforms by [A], then by [B]). *)
Definition mul (a b : MMatrix) : MMatrix :=
  mkM (m00 a * m00 b + m01 a * m10 b + m02 a * m20 b + m03 a * m30 b)
      (m00 a * m01 b + m01 a * m11 b + m02 a * m21 b + m03 a * m31 b)
      (m00 a * m02 b + m01 a * m12 b + m02 a * m22 b + m03 a * m32 b)
      (m00 a * m03 b + m01 a * m13 b + m02 a * m23 b + m03 a * m33 b)
      (m10 a * m00 b + m11 a * m10 b + m12 a * m20 b + m13 a * m30 b)
      (m10 a * m01 b + m11 a * m11 b + m12 a * m21 b + m13 a * m31 b)
      (m10 a * m02 b + m11 a * m12 b + m12 a * m22 b + m13 a * m32 b)
      (m10 a * m03 b + m11 a * m13 b + m12 a * m23 b + m13 a * m33 b)
      (m20 a * m00 b + m21 a * m10 b + m22 a * m20 b + m23 a * m30 b)
      (m20 a * m01 b + m21 a * m11 b + m22 a * m21 b + m23 a * m31 b)
      (m20 a * m02 b + m21 a * m12 b + m22 a * m22 b + m23 a * m32 b)
      (m20 a * m03 b + m21 a * m13 b + m22 a * m23 b + m23 a * m33 b)
      (m30 a * m00 b + m31 a * m10 b + m32 a * m20 b + m33 a * m30 b)
      (m30 a * m01 b + m31 a * m11 b + m32 a * m21 b + m33 a * m31 b)
      (m30 a * m02 b + m31 a * m12 b + m32 a * m22 b + m33 a * m32 b)
      (m30 a * m03 b + m31 a * m13 b + m32 a * m23 b + m33 a * m33 b).

(** Modelled from the spec: a vector times a matrix.  A vector is a
    direction, so only the upper-left 3x3 block acts on it ("rotated
    by", sections 4.1 and 4.2); the translation row is not added. *)
Definition vmul (v : MVector) (m : MMatrix) : MVector :=
  mkV (vx v * m00 m + vy v * m10 m + vz v * m20 m)
      (vx v * m01 m + vy v * m11 m + vz v * m21 m)
      (vx v * m02 m + vy v * m12 m + vz v * m22 m).

Definition det3 (a b c d e f g h i : R) : R :=
  a * (e * i - f * h) - b * (d * i - f * g) + c * (d * h - e * g).

(** Cofactors, named by the row and column they delete. *)
Definition c00 m := det3 (m11 m) (m12 m) (m13 m) (m21 m) (m22 m) (m23 m) (m31 m) (m32 m) (m33 m).
Definition c01 m := - det3 (m10 m) (m12 m) (m13 m) (m20 m) (m22 m) (m23 m) (m30 m) (m32 m) (m33 m).
Definition c02 m := det3 (m10 m) (m11 m) (m13 m) (m20 m) (m21 m) (m23 m) (m30 m) (m31 m) (m33 m).
Definition c03 m := - det3 (m10 m) (m11 m) (m12 m) (m20 m) (m21 m) (m22 m) (m30 m) (m31 m) (m32 m).
Definition c10 m := - det3 (m01 m) (m02 m) (m03 m) (m21 m) (m22 m) (m23 m) (m31 m) (m32 m) (m33 m).
Definition c11 m := det3 (m00 m) (m02 m) (m03 m) (m20 m) (m22 m) (m23 m) (m30 m) (m32 m) (m33 m).
Definition c12 m := - det3 (m00 m) (m01 m) (m03 m) (m20 m) (m21 m) (m23 m) (m30 m) (m31 m) (m33 m).
Definition c13 m := det3 (m00 m) (m01 m) (m02 m) (m20 m) (m21 m) (m22 m) (m30 m) (m31 m) (m32 m).
Definition c20 m := det3 (m01 m) (m02 m) (m03 m) (m11 m) (m12 m) (m13 m) (m31 m) (m32 m) (m33 m).
Definition c21 m := - det3 (m00 m) (m02 m) (m03 m) (m10 m) (m12 m) (m13 m) (m30 m) (m32 m) (m33 m).
Definition c22 m := det3 (m00 m) (m01 m) (m03 m) (m10 m) (m11 m) (m13 m) (m30 m) (m31 m) (m33 m).
Definition c23 m := - det3 (m00 m) (m01 m) (m02 m) (m10 m) (m11 m) (m12 m) (m30 m) (m31 m) (m32 m).
Definition c30 m := - det3 (m01 m) (m02 m) (m03 m) (m11 m) (m12 m) (m13 m) (m21 m) (m22 m) (m23 m).
Definition c31 m := det3 (m00 m) (m02 m) (m03 m) (m10 m) (m12 m) (m13 m) (m20 m) (m22 m) (m23 m).
Definition c32 m := - det3 (m00 m) (m01 m) (m03 m) (m10 m) (m11 m) (m13 m) (m20 m) (m21 m) (m23 m).
Definition c33 m := det3 (m00 m) (m01 m) (m02 m) (m10 m) (m11 m) (m12 m) (m20 m) (m21 m) (m22 m).

Definition det (m : MMatrix) : R :=
  m00 m * c00 m + m01 m * c01 m + m02 m * c02 m + m03 m * c03 m.

(** The transposed cofactor matrix divided by [d]. *)
Definition adjugate_over (m : MMatrix) (d : R) : MMatrix :=
  mkM (c00 m / d) (c10 m / d) (c20 m / d) (c30 m / d)
      (c01 m / d) (c11 m / d) (c21 m / d) (c31 m / d)
      (c02 m / d) (c12 m / d) (c22 m / d) (c32 m / d)
      (c03 m / d) (c13 m / d) (c23 m / d) (c33 m / d).

(** Modelled from the spec: [inverse()] of the host matrix class, which
    "fails with SingularMatrix when non-invertible" (section 3). *)
Definition inverse (m : MMatrix) : result MMatrix :=
  if Req_dec_T (det m) 0 then Err SingularMatrix
  else Ok (adjugate_over m (det m)).

Definition row0 (m : MMatrix) : MVector := mkV (m00 m) (m01 m) (m02 m).
Definition row1 (m : MMatrix) : MVector := mkV (m10 m) (m11 m) (m12 m).
Definition row2 (m : MMatrix) : MVector := mkV (m20 m) (m21 m) (m22 m).

(** The determinant of the 3x3 matrix of three row vectors. *)
Definition rows_det (a b c : MVector) : R :=
  det3 (vx a) (vy a) (vz a) (vx b) (vy b) (vz b) (vx c) (vy c) (vz c).

(** Gram-Schmidt on three rows, in order. *)
Definition orthonormalize (r0 r1 r2 : MVector) : MVector * MVector * MVector :=
  let e0 := Vec.normal r0 in
  let u1 := Vec.sub r1 (Vec.scale e0 (Vec.dot r1 e0)) in
  let e1 := Vec.normal u1 in
  let u2 := Vec.sub (Vec.sub r2 (Vec.scale e0 (Vec.dot r2 e0)))
                    (Vec.scale e1 (Vec.dot r2 e1)) in
  let e2 := Vec.normal u2 in
  (e0, e1, e2).

(** Modelled from the spec: [homogenize()] of the host matrix class,
    which "orthonormalizes the 3x3 rotation part ... while leaving
    translation untouched" (section 3).  The three rows of the block
    are orthonormalized in order; the fourth column and the translation
    row are kept. *)
Definition homogenize (m : MMatrix) : MMatrix :=
  let '(e0, e1, e2) := orthonormalize (row0 m) (row1 m) (row2 m) in
  mkM (vx e0) (vy e0) (vz e0) (m03 m)
      (vx e1) (vy e1) (vz e1) (m13 m)
      (vx e2) (vy e2) (vz e2) (m23 m)
      (m30 m) (m31 m) (m32 m) (m33 m).

(** The matrix of a pure translation. *)
Definition translation (t : MVector) : MMatrix :=
  mkM 1 0 0 0
      0 1 0 0
      0 0 1 0
      (vx t) (vy t) (vz t) 1.

(** A transform whose fourth column is (0, 0, 0, 1): what a joint's
    world matrix is. *)
Definition affine (m : MMatrix) : Prop :=
  m03 m = 0 /\ m13 m = 0 /\ m23 m = 0 /\ m33 m = 1.

(** The same transform with its translation multiplied by [k],
    "rotations unchanged". *)
Definition scale_translation (k : R) (m : MMatrix) : MMatrix :=
  mkM (m00 m) (m01 m) (m02 m) (m03 m)
      (m10 m) (m11 m) (m12 m) (m13 m)
      (m20 m) (m21 m) (m22 m) (m23 m)
      (k * m30 m) (k * m31 m) (k * m32 m) (m33 m).

(** The rotation block multiplied by [c]; the fourth column and the
    translation row are kept. *)
Definition scale_block (c : R) (m : MMatrix) : MMatrix :=
  mkM (m00 m * c) (m01 m * c) (m02 m * c) (m03 m)
      (m10 m * c) (m11 m * c) (m12 m * c) (m13 m)
      (m20 m * c) (m21 m * c) (m22 m * c) (m23 m)
      (m30 m) (m31 m) (m32 m) (m33 m).

(** The first three columns multiplied by [k]: the frame of a character
    [k] times as large. *)
Definition scale_frame (k : R) (m : MMatrix) : MMatrix :=
  scale_translation k (scale_block k m).

End Mat.

(** Modelled from the spec: [MQuaternion.setValue(matrix)], the unit
    quaternion of the rotation block of a homogenized matrix (section 3),
    by the usual case split on the trace and the largest diagonal entry,
    in the row-vector convention. *)
Definition quat_setValue (m : MMatrix) : MQuaternion :=
  let tr := m00 m + m11 m + m22 m in
  if Rlt_dec 0 tr then
    let s := 2 * sqrt (tr + 1) in
    mkQ ((m12 m - m21 m) / s) ((m20 m - m02 m) / s) ((m01 m - m10 m) / s) (s / 4)
  else if Rlt_dec (m11 m) (m00 m) then
    if Rlt_dec (m22 m) (m00 m) then
      let s := 2 * sqrt (1 + m00 m - m11 m - m22 m) in
      mkQ (s / 4) ((m01 m + m10 m) / s) ((m20 m + m02 m) / s) ((m12 m - m21 m) / s)
    else
      let s := 2 * sqrt (1 + m22 m - m00 m - m11 m) in
      mkQ ((m20 m + m02 m) / s) ((m12 m + m21 m) / s) (s / 4) ((m01 m - m10 m) / s)
  else if Rlt_dec (m22 m) (m11 m) then
    let s := 2 * sqrt (1 + m11 m - m00 m - m22 m) in
    mkQ ((m01 m + m10 m) / s) (s / 4) ((m12 m + m21 m) / s) ((m20 m - m02 m) / s)
  else
    let s := 2 * sqrt (1 + m22 m - m00 m - m11 m) in
    mkQ ((m20 m + m02 m) / s) ((m12 m + m21 m) / s) (s / 4) ((m01 m - m10 m) / s).

(** Modelled from the spec: [MQuaternion.asMatrix()], the rotation matrix
    of a quaternion (row-vector convention), with no translation. *)
Definition quat_asMatrix (q : MQuaternion) : MMatrix :=
  let x := qx q in let y := qy q in let z := qz q in let w := qw q in
  mkM (1 - 2 * (y * y + z * z)) (2 * (x * y + z * w)) (2 * (x * z - y * w)) 0
      (2 * (x * y - z * w)) (1 - 2 * (x * x + z * z)) (2 * (y * z + x * w)) 0
      (2 * (x * z + y * w)) (2 * (y * z - x * w)) (1 - 2 * (x * x + y * y)) 0
      0 0 0 1.

(* ------------------------------------------------------------------ *)
(** ** Python sequences *)

(** [a[i]] on a sequence of floats. *)
Definition index (l : list R) (i : nat) : result R :=
  match nth_error l i with
  | Some x => Ok x
  | None => Err IndexError
  end.

(** [a[lo:hi]] for constant non-negative bounds: a slice never fails, it
    is cut short by the end of the sequence. *)
Definition slice (l : list R) (lo hi : nat) : list R :=
  firstn (hi - lo) (skipn lo l).

(* ------------------------------------------------------------------ *)
(** ** The chain encoder and the chain decoder *)

Definition MMat2Trans (mat : MMatrix) : MVector :=
  mkV (m30 mat) (m31 mat) (m32 mat).

(** The four results of a chain encoding: root, effector, pole vector and
    effector orientation. *)
Record EncodedChain : Type := mkEncodedChain {
  ik_root : MVector;
  ik_eff : MVector;
  ik_upv : MVector;
  ik_eff_rot : MQuaternion
}.

Definition FK2encoded (g_mat root_jnt dir_jnt eff_jnt : MMatrix)
    (chain_length : R) : result EncodedChain :=
  g_inv <- Mat.inverse g_mat ;;
  let l_root_jnt := Mat.mul root_jnt g_inv in
  let ik_root := MMat2Trans l_root_jnt in
  let vec_root := MMat2Trans root_jnt in
  let vec_eff := MMat2Trans eff_jnt in
  let l_vec_eff := Vec.sub vec_eff vec_root in
  gh_inv <- Mat.inverse (Mat.homogenize g_mat) ;;
  let ik_eff := Mat.vmul l_vec_eff gh_inv in
  let ik_eff := Vec.div ik_eff chain_length in
  let vec_dir := MMat2Trans dir_jnt in
  let l_vec_dir := Vec.sub vec_root vec_dir in
  let ik_upv := Vec.cross (Vec.cross l_vec_dir l_vec_eff) l_vec_eff in
  g_inv2 <- Mat.inverse g_mat ;;
  let ik_upv := Mat.vmul ik_upv g_inv2 in
  let ik_upv := Vec.normal ik_upv in
  g_inv3 <- Mat.inverse g_mat ;;
  let mat := Mat.mul eff_jnt g_inv3 in
  let ik_eff_rot := quat_setValue (Mat.homogenize mat) in
  Ok (mkEncodedChain ik_root ik_eff ik_upv ik_eff_rot).

(** The four results of a chain decoding. *)
Record DecodedChain : Type := mkDecodedChain {
  ik_chain_root : MVector;
  ik_chain_eff : MVector;
  ik_chain_upv : MVector;
  ik_chain_eff_rot : MEulerRotation
}.

Definition encoded2IK (encoded_pose_array : list R)
    (char_scale chain_scale : R) : result DecodedChain :=
  r0 <- index encoded_pose_array 0 ;;
  r1 <- index encoded_pose_array 1 ;;
  r2 <- index encoded_pose_array 2 ;;
  let ik_chain_root := mkV (r0 * char_scale) (r1 * char_scale) (r2 * char_scale) in
  e0 <- index encoded_pose_array 3 ;;
  e1 <- index encoded_pose_array 4 ;;
  e2 <- index encoded_pose_array 5 ;;
  let ik_chain_eff := mkV (e0 * chain_scale) (e1 * chain_scale) (e2 * chain_scale) in
  u0 <- index encoded_pose_array 6 ;;
  u1 <- index encoded_pose_array 7 ;;
  u2 <- index encoded_pose_array 8 ;;
  let ik_chain_upv := mkV u0 u1 u2 in
  q0 <- index encoded_pose_array 9 ;;
  q1 <- index encoded_pose_array 10 ;;
  q2 <- index encoded_pose_array 11 ;;
  q3 <- index encoded_pose_array 12 ;;
  let quat := mkQ q0 q1 q2 q3 in
  let ik_chain_eff_rot := asEulerRotation quat in
  Ok (mkDecodedChain ik_chain_root ik_chain_eff ik_chain_upv ik_chain_eff_rot).

(* ------------------------------------------------------------------ *)
(** ** Node inputs *)

(** [float_attrs]: the seven scalar inputs that both nodes read. *)
Record Scales : Type := mkScales {
  height_hips : R;
  length_spine : R;
  length_neck : R;
  length_leg_L : R;
  length_leg_R : R;
  length_arm_L : R;
  length_arm_R : R
}.

(** [mat_attrs]: the eighteen joint matrices that the encoder reads. *)
Record Joints : Type := mkJoints {
  mat_hips_rest : MMatrix;
  mat_hips : MMatrix;
  mat_spine : MMatrix;
  mat_neck : MMatrix;
  mat_neck_mid : MMatrix;
  mat_head : MMatrix;
  mat_leg_L : MMatrix;
  mat_shin_L : MMatrix;
  mat_foot_L : MMatrix;
  mat_shoulder_L : MMatrix;
  mat_elbow_L : MMatrix;
  mat_hand_L : MMatrix;
  mat_leg_R : MMatrix;
  mat_shin_R : MMatrix;
  mat_foot_R : MMatrix;
  mat_shoulder_R : MMatrix;
  mat_elbow_R : MMatrix;
  mat_hand_R : MMatrix
}.

(* ------------------------------------------------------------------ *)
(** ** [ikrig_encode.compute] *)

(** The global transform built at the head of [ikrig_encode.compute]
    (the specification's Frame Builder). *)
Record GlobalFrame : Type := mkGlobalFrame {
  g_tr_x : R;
  g_tr_y : R;
  g_tr_z : R;
  g_mat : MMatrix;
  g_ori : MQuaternion
}.

Definition frame_builder (mat_hips_rest mat_hips : MMatrix)
    (height_hips : R) : result GlobalFrame :=
  rest_inv <- Mat.inverse mat_hips_rest ;;
  let mat_hips_delta := Mat.mul rest_inv mat_hips in
  let direction := Mat.vmul (mkV 0 0 1) mat_hips_delta in
  let direction := mkV (vx direction) 0 (vz direction) in
  let zaxis := Vec.normal direction in
  let yaxis := mkV 0 1 0 in
  let xaxis := Vec.cross yaxis (Vec.normal zaxis) in
  let g_tr_x := m30 mat_hips in
  let g_tr_y := height_hips in
  let g_tr_z := m32 mat_hips in
  let zaxis := Vec.scale zaxis height_hips in
  let yaxis := Vec.scale yaxis height_hips in
  let xaxis := Vec.scale xaxis height_hips in
  let g_mat := mkM (vx xaxis) (vy xaxis) (vz xaxis) 0
                   (vx yaxis) (vy yaxis) (vz yaxis) 0
                   (vx zaxis) (vy zaxis) (vz zaxis) 0
                   g_tr_x g_tr_y g_tr_z 1 in
  let g_ori := quat_setValue (Mat.homogenize g_mat) in
  Ok (mkGlobalFrame g_tr_x g_tr_y g_tr_z g_mat g_ori).

(** [m = om.MMatrix(g_mat); m[12] = src[12]; m[13] = src[13];
    m[14] = src[14]]: a copy of [g_mat] that takes the translation of
    [src]. *)
Definition with_translation_of (g_mat src : MMatrix) : MMatrix :=
  let m := g_mat in
  let m := Mat.set12 m (m30 src) in
  let m := Mat.set13 m (m31 src) in
  let m := Mat.set14 m (m32 src) in
  m.

(** Everything [compute] has in hand when it starts to pack. *)
Record EncodedComponents : Type := mkEncodedComponents {
  enc_frame : GlobalFrame;
  enc_lower_body_mat : MMatrix;
  enc_upper_body_mat : MMatrix;
  enc_spine : EncodedChain;
  enc_neck : EncodedChain;
  enc_leg_L : EncodedChain;
  enc_leg_R : EncodedChain;
  enc_arm_L : EncodedChain;
  enc_arm_R : EncodedChain
}.

Definition encode_components (s : Scales) (j : Joints) : result EncodedComponents :=
  fr <- frame_builder (mat_hips_rest j) (mat_hips j) (height_hips s) ;;
  let g_mat := g_mat fr in
  spine <- FK2encoded g_mat (mat_hips j) (mat_spine j) (mat_neck j) (length_spine s) ;;
  let lower_body_mat := with_translation_of g_mat (mat_hips j) in
  leg_L <- FK2encoded lower_body_mat (mat_leg_L j) (mat_shin_L j) (mat_foot_L j) (length_leg_L s) ;;
  leg_R <- FK2encoded lower_body_mat (mat_leg_R j) (mat_shin_R j) (mat_foot_R j) (length_leg_R s) ;;
  let upper_body_mat := with_translation_of g_mat (mat_neck j) in
  arm_L <- FK2encoded upper_body_mat (mat_shoulder_L j) (mat_elbow_L j) (mat_hand_L j) (length_arm_L s) ;;
  arm_R <- FK2encoded upper_body_mat (mat_shoulder_R j) (mat_elbow_R j) (mat_hand_R j) (length_arm_R s) ;;
  neck <- FK2encoded upper_body_mat (mat_neck j) (mat_neck_mid j) (mat_head j) (length_neck s) ;;
  Ok (mkEncodedComponents fr lower_body_mat upper_body_mat
        spine neck leg_L leg_R arm_L arm_R).

(** An element of the Python list [out_components]: a pair of floats, a
    quaternion or a vector. *)
Inductive component : Type :=
| PairC (a b : R)
| QuatC (q : MQuaternion)
| VecC (v : MVector).

(** [len(component)] *)
Definition component_len (c : component) : nat :=
  match c with
  | PairC _ _ => 2
  | QuatC _ => 4
  | VecC _ => 3
  end.

(** [component[i]] *)
Definition component_get (c : component) (i : nat) : result R :=
  match c with
  | PairC a b => index [a; b] i
  | QuatC q => index (Quat.to_list q) i
  | VecC v => Vec.get v i
  end.

Definition chain_components (c : EncodedChain) : list component :=
  [VecC (ik_root c); VecC (ik_eff c); VecC (ik_upv c); QuatC (ik_eff_rot c)].

Definition out_components (c : EncodedComponents) : list component :=
  [PairC (g_tr_x (enc_frame c)) (g_tr_z (enc_frame c)); QuatC (g_ori (enc_frame c))]
  ++ chain_components (enc_spine c)
  ++ chain_components (enc_neck c)
  ++ chain_components (enc_leg_L c)
  ++ chain_components (enc_leg_R c)
  ++ chain_components (enc_arm_L c)
  ++ chain_components (enc_arm_R c).

(** [for i in range(len(component)): output_values.append(component[i])] *)
Fixpoint append_component (c : component) (range : list nat)
    (output_values : list R) : result (list R) :=
  match range with
  | [] => Ok output_values
  | i :: range' =>
      x <- component_get c i ;;
      append_component c range' (output_values ++ [x])
  end.

(** [for component in out_components: ...] *)
Fixpoint pose_packer (components : list component)
    (output_values : list R) : result (list R) :=
  match components with
  | [] => Ok output_values
  | c :: components' =>
      output_values' <- append_component c (seq 0 (component_len c)) output_values ;;
      pose_packer components' output_values'
  end.

Definition ikrig_encode_compute (s : Scales) (j : Joints) : result (list R) :=
  c <- encode_components s j ;;
  pose_packer (out_components c) [].

(* ------------------------------------------------------------------ *)
(** ** [ikrig_decode.compute] *)

(** The values written for one chain: [ik_X_root], [ik_X_eff], [ik_X_dir]
    (which receives the pole vector) and [ik_X_eff_rot]. *)
Record DecodedPose : Type := mkDecodedPose {
  ik_Spine : DecodedChain;
  ik_Neck : DecodedChain;
  ik_Leg_L : DecodedChain;
  ik_Leg_R : DecodedChain;
  ik_Arm_L : DecodedChain;
  ik_Arm_R : DecodedChain
}.

(** The output side of the decoder's data block: [None] is an output
    that [compute] has not written. *)
Record datablock : Type := mkDatablock {
  global_mat : option MMatrix;
  ik_outputs : option DecodedPose
}.

(** Lines 293-304: the global character transform. *)
Definition decode_global (encoded_pose_array : list R) (offset_mat : MMatrix)
    : result MMatrix :=
  g_tr_x <- index encoded_pose_array 0 ;;
  let g_tr_y := 0 in
  g_tr_z <- index encoded_pose_array 1 ;;
  q0 <- index encoded_pose_array 2 ;;
  q1 <- index encoded_pose_array 3 ;;
  q2 <- index encoded_pose_array 4 ;;
  q3 <- index encoded_pose_array 5 ;;
  let g_ori := mkQ q0 q1 q2 q3 in
  let g_mat := quat_asMatrix g_ori in
  let g_mat := Mat.set12 g_mat g_tr_x in
  let g_mat := Mat.set13 g_mat g_tr_y in
  let g_mat := Mat.set14 g_mat g_tr_z in
  let g_mat := Mat.mul g_mat offset_mat in
  Ok g_mat.

(** [ik_spine_root.y += height_hips] *)
Definition add_to_root_y (c : DecodedChain) (dy : R) : DecodedChain :=
  mkDecodedChain
    (mkV (vx (ik_chain_root c)) (vy (ik_chain_root c) + dy) (vz (ik_chain_root c)))
    (ik_chain_eff c) (ik_chain_upv c) (ik_chain_eff_rot c).

(** Lines 307-325: the six chains. *)
Definition decode_chains (encoded_pose_array : list R) (s : Scales)
    : result DecodedPose :=
  spine <- encoded2IK (slice encoded_pose_array 6 19) (height_hips s) (length_spine s) ;;
  let spine := add_to_root_y spine (height_hips s) in
  neck <- encoded2IK (slice encoded_pose_array 19 32) (height_hips s) (length_neck s) ;;
  leg_L <- encoded2IK (slice encoded_pose_array 32 45) (height_hips s) (length_leg_L s) ;;
  leg_R <- encoded2IK (slice encoded_pose_array 45 58) (height_hips s) (length_leg_R s) ;;
  arm_L <- encoded2IK (slice encoded_pose_array 58 71) (height_hips s) (length_arm_L s) ;;
  arm_R <- encoded2IK (slice encoded_pose_array 71 84) (height_hips s) (length_arm_R s) ;;
  Ok (mkDecodedPose spine neck leg_L leg_R arm_L arm_R).

(** The whole method: what it left in the data block, and whether it
    returned or raised.  The global matrix is stored before the chains
    are decoded; the twenty-four chain outputs are stored after all six
    chains have been decoded. *)
Definition ikrig_decode_compute (encoded_pose_array : list R)
    (offset_mat : MMatrix) (s : Scales) : datablock * result unit :=
  match decode_global encoded_pose_array offset_mat with
  | Err e => (mkDatablock None None, Err e)
  | Ok g_mat =>
      match decode_chains encoded_pose_array s with
      | Err e => (mkDatablock (Some g_mat) None, Err e)
      | Ok pose => (mkDatablock (Some g_mat) (Some pose), Ok tt)
      end
  end.

(* ------------------------------------------------------------------ *)
(** ** The layout of the encoded pose, as the specification gives it *)

(** Section 3: one chain block is root (3), effector (3), pole vector (3)
    and effector-orientation quaternion (4). *)
Definition chain_block (c : EncodedChain) : list R :=
  Vec.to_list (ik_root c) ++ Vec.to_list (ik_eff c)
  ++ Vec.to_list (ik_upv c) ++ Quat.to_list (ik_eff_rot c).

(** Section 3: global translation x and z, global orientation, then the
    blocks of Spine, Neck, Leg_L, Leg_R, Arm_L and Arm_R. *)
Definition EncodedPose_layout (c : EncodedComponents) : list R :=
  [g_tr_x (enc_frame c); g_tr_z (enc_frame c)]
  ++ Quat.to_list (g_ori (enc_frame c))
  ++ chain_block (enc_spine c)
  ++ chain_block (enc_neck c)
  ++ chain_block (enc_leg_L c)
  ++ chain_block (enc_leg_R c)
  ++ chain_block (enc_arm_L c)
  ++ chain_block (enc_arm_R c).

(** What the chain decoder is specified to return on a block (section
    4.4): scaled root, scaled effector, pole vector as it is, and the Euler
    conversion of the quaternion of the last four values. *)
Definition decoded_block (values : list R) (char_scale chain_scale : R) : DecodedChain :=
  mkDecodedChain
    (Vec.scale (mkV (nth 0 values 0) (nth 1 values 0) (nth 2 values 0)) char_scale)
    (Vec.scale (mkV (nth 3 values 0) (nth 4 values 0) (nth 5 values 0)) chain_scale)
    (mkV (nth 6 values 0) (nth 7 values 0) (nth 8 values 0))
    (asEulerRotation (mkQ (nth 9 values 0) (nth 10 values 0) (nth 11 values 0) (nth 12 values 0))).

(** The pose that a data block holds when the decoder has read the six
    13-value windows of [a] with the chain decoder, the Spine root lifted
    by [height_hips]. *)
Definition decoded_pose (a : list R) (s : Scales) : DecodedPose :=
  mkDecodedPose
    (add_to_root_y (decoded_block (slice a 6 19) (height_hips s) (length_spine s))
                   (height_hips s))
    (decoded_block (slice a 19 32) (height_hips s) (length_neck s))
    (decoded_block (slice a 32 45) (height_hips s) (length_leg_L s))
    (decoded_block (slice a 45 58) (height_hips s) (length_leg_R s))
    (decoded_block (slice a 58 71) (height_hips s) (length_arm_L s))
    (decoded_block (slice a 71 84) (height_hips s) (length_arm_R s)).

(** Three points on one line: the cross product of the two differences
    that the chain encoder forms ([root - dir] and [eff - root]) is the
    zero vector. *)
Definition collinear (root dir eff : MVector) : Prop :=
  Vec.cross (Vec.sub root dir) (Vec.sub eff root) = Vec.zero.

(** All scale parameters equal to one: the "identity scale". *)
Definition unit_scales : Scales := mkScales 1 1 1 1 1 1 1.

(** The reading of "decode rejects a pose of the wrong length" (section
    7): nothing is written and the failure is [MalformedPose]. *)
Definition rejects_as_malformed (a : list R) (offset_mat : MMatrix) (s : Scales) : Prop :=
  ikrig_decode_compute a offset_mat s = (mkDatablock None None, Err MalformedPose).

(* ------------------------------------------------------------------ *)
(** ** A character of another size *)

(** The fourth column of the first three rows is zero. *)
Definition linear_rows (m : MMatrix) : Prop :=
  m03 m = 0 /\ m13 m = 0 /\ m23 m = 0.

Definition map_result {A B : Type} (f : A -> B) (r : result A) : result B :=
  match r with
  | Ok a => Ok (f a)
  | Err e => Err e
  end.

(** The joints in the order of [mat_attrs]. *)
Definition joint_list (j : Joints) : list MMatrix :=
  [mat_hips_rest j; mat_hips j; mat_spine j; mat_neck j; mat_neck_mid j;
   mat_head j; mat_leg_L j; mat_shin_L j; mat_foot_L j; mat_shoulder_L j;
   mat_elbow_L j; mat_hand_L j; mat_leg_R j; mat_shin_R j; mat_foot_R j;
   mat_shoulder_R j; mat_elbow_R j; mat_hand_R j].

Definition joints_affine (j : Joints) : Prop := Forall Mat.affine (joint_list j).

(** Every joint translation multiplied by [k], rotations unchanged. *)
Definition scale_joints (k : R) (j : Joints) : Joints :=
  mkJoints
    (Mat.scale_translation k (mat_hips_rest j))
    (Mat.scale_translation k (mat_hips j))
    (Mat.scale_translation k (mat_spine j))
    (Mat.scale_translation k (mat_neck j))
    (Mat.scale_translation k (mat_neck_mid j))
    (Mat.scale_translation k (mat_head j))
    (Mat.scale_translation k (mat_leg_L j))
    (Mat.scale_translation k (mat_shin_L j))
    (Mat.scale_translation k (mat_foot_L j))
    (Mat.scale_translation k (mat_shoulder_L j))
    (Mat.scale_translation k (mat_elbow_L j))
    (Mat.scale_translation k (mat_hand_L j))
    (Mat.scale_translation k (mat_leg_R j))
    (Mat.scale_translation k (mat_shin_R j))
    (Mat.scale_translation k (mat_foot_R j))
    (Mat.scale_translation k (mat_shoulder_R j))
    (Mat.scale_translation k (mat_elbow_R j))
    (Mat.scale_translation k (mat_hand_R j)).

(** [height_hips] multiplied by [k], the chain lengths as they are. *)
Definition scale_height (k : R) (s : Scales) : Scales :=
  mkScales (k * height_hips s) (length_spine s) (length_neck s)
           (length_leg_L s) (length_leg_R s) (length_arm_L s) (length_arm_R s).

(** [height_hips] and the six chain lengths multiplied by [k]. *)
Definition scale_scales (k : R) (s : Scales) : Scales :=
  mkScales (k * height_hips s) (k * length_spine s) (k * length_neck s)
           (k * length_leg_L s) (k * length_leg_R s)
           (k * length_arm_L s) (k * length_arm_R s).

Definition scale_global (k : R) (fr : GlobalFrame) : GlobalFrame :=
  mkGlobalFrame (k * g_tr_x fr) (k * g_tr_y fr) (k * g_tr_z fr)
                (Mat.scale_frame k (g_mat fr)) (g_ori fr).

Definition scale_components (k : R) (c : EncodedComponents) : EncodedComponents :=
  mkEncodedComponents
    (scale_global k (enc_frame c))
    (Mat.scale_frame k (enc_lower_body_mat c))
    (Mat.scale_frame k (enc_upper_body_mat c))
    (enc_spine c) (enc_neck c) (enc_leg_L c) (enc_leg_R c)
    (enc_arm_L c) (enc_arm_R c).

(** An encoded pose with its first two values (the global translation
    x and z) multiplied by [k]. *)
Definition scale_header (k : R) (out : list R) : list R :=
  map (Rmult k) (firstn 2 out) ++ skipn 2 out.

(** Two sequences agree within [tol], value by value. *)
Definition close_to (tol : R) (a b : list R) : Prop :=
  length a = length b
  /\ forall i : nat, (i < length a)%nat -> Rabs (nth i a 0 - nth i b 0) <= tol.

(** A pose whose hips, in the rest pose and now, are unrotated. *)
Definition upright (j : Joints) : Prop :=
  (exists r, mat_hips_rest j = Mat.translation r)
  /\ (exists t, mat_hips j = Mat.translation t).

(** Two vectors agree within [tol], component by component. *)
Definition vec_close (tol : R) (a b : MVector) : Prop :=
  Rabs (vx a - vx b) <= tol /\ Rabs (vy a - vy b) <= tol
  /\ Rabs (vz a - vz b) <= tol.

(** The decoded root, effector and pole vector of a chain agree with
    the encoder's intermediate outputs for that chain within [tol]. *)
Definition chain_round_trip (tol : R) (d : DecodedChain) (e : EncodedChain) : Prop :=
  vec_close tol (ik_chain_root d) (ik_root e)
  /\ vec_close tol (ik_chain_eff d) (ik_eff e)
  /\ vec_close tol (ik_chain_upv d) (ik_upv e).

(** Exact agreement of a decoded chain with an encoded one. *)
Definition same_root (d : DecodedChain) (e : EncodedChain) : Prop :=
  ik_chain_root d = ik_root e.

Definition same_offsets (d : DecodedChain) (e : EncodedChain) : Prop :=
  ik_chain_eff d = ik_eff e /\ ik_chain_upv d = ik_upv e.

(** The two outcomes that section 7 allows on a degenerate chain: the
    [DegenerateChain] failure, or a result whose pole vector is a fallback
    direction, that is a vector of length one. *)
Definition degenerate_policy (r : result EncodedChain) : Prop :=
  r = Err DegenerateChain
  \/ exists c, r = Ok c /\ Vec.length (ik_upv c) = 1.

(** [m] is [g] in every element except [12], [13] and [14], which are
    those of [src]. *)
Definition takes_translation (m g src : MMatrix) : Prop :=
  forall i : nat, (i < 16)%nat ->
    Mat.get m i
    = if andb (12 <=? i)%nat (i <=? 14)%nat then Mat.get src i else Mat.get g i.

(* ------------------------------------------------------------------ *)
(** ** A sample pose *)

Definition at_point (x y z : R) : MMatrix := Mat.translation (mkV x y z).

(** An upright character with its hips one unit above the ground and one
    unit along x, bent knees and elbows, all joints unrotated. *)
Definition sample_pose : Joints :=
  mkJoints
    Mat.identity        (* mat_hips_rest *)
    (at_point 1 1 0)    (* mat_hips *)
    (at_point 1 2 1)    (* mat_spine *)
    (at_point 1 3 0)    (* mat_neck *)
    (at_point 1 4 1)    (* mat_neck_mid *)
    (at_point 1 5 0)    (* mat_head *)
    (at_point 2 1 0)    (* mat_leg_L *)
    (at_point 2 0 1)    (* mat_shin_L *)
    (at_point 2 (-1) 0) (* mat_foot_L *)
    (at_point 2 3 0)    (* mat_shoulder_L *)
    (at_point 3 3 (-1)) (* mat_elbow_L *)
    (at_point 4 3 0)    (* mat_hand_L *)
    (at_point 0 1 0)    (* mat_leg_R *)
    (at_point 0 0 1)    (* mat_shin_R *)
    (at_point 0 (-1) 0) (* mat_foot_R *)
    (at_point 0 3 0)    (* mat_shoulder_R *)
    (at_point (-1) 3 (-1)) (* mat_elbow_R *)
    (at_point (-2) 3 0). (* mat_hand_R *)

(* ------------------------------------------------------------------ *)
(** ** Proof automation *)

(** Unfolds the vector and matrix operations down to real arithmetic. *)
Ltac unfold_mat :=
  cbv [Mat.identity Mat.mul Mat.vmul Mat.det Mat.adjugate_over Mat.det3
       Mat.c00 Mat.c01 Mat.c02 Mat.c03 Mat.c10 Mat.c11 Mat.c12 Mat.c13
       Mat.c20 Mat.c21 Mat.c22 Mat.c23 Mat.c30 Mat.c31 Mat.c32 Mat.c33
       Mat.row0 Mat.row1 Mat.row2 Mat.rows_det Mat.scale_block Mat.scale_frame
       Mat.scale_translation Mat.translation Mat.set12 Mat.set13 Mat.set14
       MMat2Trans
       Vec.zero Vec.sub Vec.cross Vec.dot Vec.scale Vec.div
       m00 m01 m02 m03 m10 m11 m12 m13 m20 m21 m22 m23 m30 m31 m32 m33
       vx vy vz qx qy qz qw].

Ltac unfold_mat_in H :=
  cbv [Mat.identity Mat.mul Mat.vmul Mat.det Mat.adjugate_over Mat.det3
       Mat.c00 Mat.c01 Mat.c02 Mat.c03 Mat.c10 Mat.c11 Mat.c12 Mat.c13
       Mat.c20 Mat.c21 Mat.c22 Mat.c23 Mat.c30 Mat.c31 Mat.c32 Mat.c33
       Mat.row0 Mat.row1 Mat.row2 Mat.rows_det Mat.scale_block Mat.scale_frame
       Mat.scale_translation Mat.translation Mat.set12 Mat.set13 Mat.set14
       MMat2Trans
       Vec.zero Vec.sub Vec.cross Vec.dot Vec.scale Vec.div
       m00 m01 m02 m03 m10 m11 m12 m13 m20 m21 m22 m23 m30 m31 m32 m33
       vx vy vz qx qy qz qw] in H.

Ltac destruct_affine m H :=
  destruct m; unfold Mat.affine in H;
  cbn [m03 m13 m23 m33] in H;
  destruct H as (? & ? & ? & ?); subst.

(** Closes a side condition [P <> 0] of [field] from a hypothesis
    [Q <> 0] when [P] and [Q] are the same polynomial. *)
Ltac nonzero_by H :=
  let E := fresh "E" in
  intros E; apply H; etransitivity; [|exact E]; unfold_mat; ring.

(* ------------------------------------------------------------------ *)
(** ** Further vocabulary *)

(** A decoded chain is an encoded chain scaled back: root by [h],
    effector by [len], pole vector as it is, and the Euler conversion of
    the encoded quaternion. *)
Definition scaled_back (d : DecodedChain) (e : EncodedChain) (h len : R) : Prop :=
  ik_chain_root d = Vec.scale (ik_root e) h
  /\ ik_chain_eff d = Vec.scale (ik_eff e) len
  /\ ik_chain_upv d = ik_upv e
  /\ ik_chain_eff_rot d = asEulerRotation (ik_eff_rot e).

(** The forward direction that the head of [ikrig_encode.compute] derives
    from the hips: the world z axis carried through
    [mat_hips_rest.inverse() * mat_hips], with its y component set to
    zero (before it is normalized). *)
Definition hips_forward (mat_hips_rest mat_hips : MMatrix) : MVector :=
  let mat_hips_delta :=
    Mat.mul (Mat.adjugate_over mat_hips_rest (Mat.det mat_hips_rest)) mat_hips in
  let direction := Mat.vmul (mkV 0 0 1) mat_hips_delta in
  mkV (vx direction) 0 (vz direction).

(** A rotation about the vertical axis with cosine [c] and sine [s],
    scaled by [h], at the point [(tx, ty, tz)]. *)
Definition yaw_frame (h c s tx ty tz : R) : MMatrix :=
  mkM (c * h) 0 (- s * h) 0
      0 h 0 0
      (s * h) 0 (c * h) 0
      tx ty tz 1.

(** The same transform moved by [d]. *)
Definition shift (d : MVector) (m : MMatrix) : MMatrix :=
  mkM (m00 m) (m01 m) (m02 m) (m03 m)
      (m10 m) (m11 m) (m12 m) (m13 m)
      (m20 m) (m21 m) (m22 m) (m23 m)
      (m30 m + vx d) (m31 m + vy d) (m32 m + vz d) (m33 m).

(** The character moved by [d] in the world: every joint of the current
    pose is moved, the rest matrix of the hips stays. *)
Definition shift_pose (d : MVector) (j : Joints) : Joints :=
  mkJoints
    (mat_hips_rest j)
    (shift d (mat_hips j))
    (shift d (mat_spine j))
    (shift d (mat_neck j))
    (shift d (mat_neck_mid j))
    (shift d (mat_head j))
    (shift d (mat_leg_L j))
    (shift d (mat_shin_L j))
    (shift d (mat_foot_L j))
    (shift d (mat_shoulder_L j))
    (shift d (mat_elbow_L j))
    (shift d (mat_hand_L j))
    (shift d (mat_leg_R j))
    (shift d (mat_shin_R j))
    (shift d (mat_foot_R j))
    (shift d (mat_shoulder_R j))
    (shift d (mat_elbow_R j))
    (shift d (mat_hand_R j)).

(** An encoded pose with [dx] and [dz] added to its first two values. *)
Definition shift_header (dx dz : R) (out : list R) : list R :=
  match out with
  | x :: z :: rest => (x + dx) :: (z + dz) :: rest
  | _ => out
  end.

Definition shift_global (dx dz : R) (fr : GlobalFrame) : GlobalFrame :=
  mkGlobalFrame (g_tr_x fr + dx) (g_tr_y fr) (g_tr_z fr + dz)
                (shift (mkV dx 0 dz) (g_mat fr)) (g_ori fr).

Definition shift_components (dx dz : R) (c : EncodedComponents) : EncodedComponents :=
  mkEncodedComponents
    (shift_global dx dz (enc_frame c))
    (shift (mkV dx 0 dz) (enc_lower_body_mat c))
    (shift (mkV dx 0 dz) (enc_upper_body_mat c))
    (enc_spine c) (enc_neck c) (enc_leg_L c) (enc_leg_R c)
    (enc_arm_L c) (enc_arm_R c).



Definition lengths_nonzero (s : Scales) : Prop :=
  length_spine s <> 0 /\ length_neck s <> 0
  /\ length_leg_L s <> 0 /\ length_leg_R s <> 0
  /\ length_arm_L s <> 0 /\ length_arm_R s <> 0.

(* ------------------------------------------------------------------ *)
(** ** Node and plug-in registration *)

(** The attribute tables at the head of the file, [init_encode],
    [init_decode], [initializePlugin] and [uninitializePlugin].  Of the
    host, the model keeps what these functions drive: attribute objects
    with the settings made on them, the attribute that each function set is
    attached to (the one it created last), the members stored on the node
    class, the attributes added to the node, the dependencies declared
    between them, and the list of registered node types. *)
Module Plugin.

Import String.
Local Open Scope string_scope.
Local Open Scope bool_scope.


Definition float_attrs : list string :=
  ["height_hips"; "length_spine"; "length_neck"; "length_leg_L";
   "length_leg_R"; "length_arm_L"; "length_arm_R"].

Definition mat_attrs : list string :=
  ["mat_hips_rest"; "mat_hips"; "mat_spine"; "mat_neck"; "mat_neck_mid";
   "mat_head"; "mat_leg_L"; "mat_shin_L"; "mat_foot_L"; "mat_shoulder_L";
   "mat_elbow_L"; "mat_hand_L"; "mat_leg_R"; "mat_shin_R"; "mat_foot_R";
   "mat_shoulder_R"; "mat_elbow_R"; "mat_hand_R"].

Definition out_float3_attrs : list string :=
  ["ik_Spine_root"; "ik_Spine_dir"; "ik_Spine_eff";
   "ik_Neck_root"; "ik_Neck_dir"; "ik_Neck_eff";
   "ik_Leg_root_L"; "ik_Leg_dir_L"; "ik_Leg_eff_L";
   "ik_Arm_root_L"; "ik_Arm_dir_L"; "ik_Arm_eff_L";
   "ik_Leg_root_R"; "ik_Leg_dir_R"; "ik_Leg_eff_R";
   "ik_Arm_root_R"; "ik_Arm_dir_R"; "ik_Arm_eff_R";
   "ik_Spine_eff_rot"; "ik_Neck_eff_rot"; "ik_Leg_eff_rot_L";
   "ik_Leg_eff_rot_R"; "ik_Arm_eff_rot_L"; "ik_Arm_eff_rot_R"].

(** The properties that the two initializers assign. *)
Inductive flag : Type :=
| hidden | keyable | writable | storable | connectable | readable.


(** What an attribute holds; a compound names its three children. *)
Inductive data_type : Type :=
| kFloat | k3Float | kDoubleArray | kMatrix | kAngle
| kCompound (x y z : nat).

(** An attribute object: its names, its type and the assignments made to
    its properties, latest first. *)
Record attribute : Type := mkAttribute {
  long_name : string;
  short_name : string;
  data : data_type;
  settings : list (flag * bool)
}.

(** [MFnNumericAttribute], [MFnMatrixAttribute], [MFnTypedAttribute] and
    [MFnUnitAttribute], under the names of the local variables that hold
    them. *)
Inductive function_set : Type := nAttr | mAttr | tAttr | uAttr.

Record node_class : Type := mkNodeClass {
  objects : list attribute;
  attached_n : option nat;
  attached_m : option nat;
  attached_t : option nat;
  attached_u : option nat;
  members : list (string * nat);
  added : list nat;
  affects : list (nat * nat);
  euler_i : nat
}.

Definition new_class : node_class :=
  mkNodeClass [] None None None None [] [] [] 0.

Definition attached (fs : function_set) (st : node_class) : option nat :=
  match fs with
  | nAttr => attached_n st
  | mAttr => attached_m st
  | tAttr => attached_t st
  | uAttr => attached_u st
  end.

Definition attach (fs : function_set) (obj : nat) (st : node_class) : node_class :=
  match fs with
  | nAttr => mkNodeClass (objects st) (Some obj) (attached_m st) (attached_t st)
               (attached_u st) (members st) (added st) (affects st) (euler_i st)
  | mAttr => mkNodeClass (objects st) (attached_n st) (Some obj) (attached_t st)
               (attached_u st) (members st) (added st) (affects st) (euler_i st)
  | tAttr => mkNodeClass (objects st) (attached_n st) (attached_m st) (Some obj)
               (attached_u st) (members st) (added st) (affects st) (euler_i st)
  | uAttr => mkNodeClass (objects st) (attached_n st) (attached_m st) (attached_t st)
               (Some obj) (members st) (added st) (affects st) (euler_i st)
  end.

Definition with_objects (objs : list attribute) (st : node_class) : node_class :=
  mkNodeClass objs (attached_n st) (attached_m st) (attached_t st) (attached_u st)
    (members st) (added st) (affects st) (euler_i st).

(** A step of an initializer: a new state and a value, or an exception. *)
Definition M (A : Type) : Type := node_class -> option (A * node_class).

Definition ret {A : Type} (a : A) : M A := fun st => Some (a, st).

Definition bindM {A B : Type} (m : M A) (k : A -> M B) : M B :=
  fun st => match m st with
            | Some (a, st') => k a st'
            | None => None
            end.

Declare Scope init_scope.
Delimit Scope init_scope with init.
Notation "x <~ e ;; k" := (bindM e (fun x => k))
  (at level 61, e at next level, right associativity) : init_scope.
Notation "e ;;; k" := (bindM e (fun _ => k))
  (at level 61, right associativity) : init_scope.
Local Open Scope init_scope.

(** [fs.create(long, short, type)]: a new attribute object, to which the
    function set is now attached. *)
Definition create (fs : function_set) (long short : string) (ty : data_type) : M nat :=
  fun st =>
    let obj := List.length (objects st) in
    Some (obj, attach fs obj
                 (with_objects (objects st ++ [mkAttribute long short ty []])%list st)).

Fixpoint update_settings (objs : list attribute) (obj : nat) (f : flag) (v : bool)
    : list attribute :=
  match objs, obj with
  | [], _ => []
  | a :: rest, O =>
      mkAttribute (long_name a) (short_name a) (data a) ((f, v) :: settings a) :: rest
  | a :: rest, S n => a :: update_settings rest n f v
  end.

(** [fs.f = v]: assigns the property on the attribute that the function
    set is attached to; an exception when it is attached to none. *)
Definition set (fs : function_set) (f : flag) (v : bool) : M unit :=
  fun st =>
    match attached fs st with
    | Some obj => Some (tt, with_objects (update_settings (objects st) obj f v) st)
    | None => None
    end.

(** [setattr(cls, name, obj)] and [cls.name = obj] *)
Definition setattr (name : string) (obj : nat) : M unit :=
  fun st =>
    Some (tt, mkNodeClass (objects st) (attached_n st) (attached_m st) (attached_t st)
                (attached_u st) ((name, obj) :: members st) (added st) (affects st)
                (euler_i st)).

Fixpoint lookup (name : string) (l : list (string * nat)) : option nat :=
  match l with
  | [] => None
  | (n, obj) :: rest => if String.eqb n name then Some obj else lookup name rest
  end.

(** [getattr(cls, name)] and [cls.name]: an exception when the class has
    no such member. *)
Definition getattr (name : string) : M nat :=
  fun st =>
    match lookup name (members st) with
    | Some obj => Some (obj, st)
    | None => None
    end.

Definition addAttribute (obj : nat) : M unit :=
  fun st =>
    Some (tt, mkNodeClass (objects st) (attached_n st) (attached_m st) (attached_t st)
                (attached_u st) (members st) (added st ++ [obj])%list (affects st)
                (euler_i st)).

Definition attributeAffects (a b : nat) : M unit :=
  fun st =>
    Some (tt, mkNodeClass (objects st) (attached_n st) (attached_m st) (attached_t st)
                (attached_u st) (members st) (added st) (affects st ++ [(a, b)])%list
                (euler_i st)).

(** [for x in l: f(x)] *)
Fixpoint for_each {A : Type} (l : list A) (f : A -> M unit) : M unit :=
  match l with
  | [] => ret tt
  | x :: rest => f x ;;; for_each rest f
  end.

(** [l.append(m)] for each [m] of a list of steps, in order. *)
Fixpoint collect (ms : list (M nat)) : M (list nat) :=
  match ms with
  | [] => ret []
  | m :: rest => x <~ m ;; xs <~ collect rest ;; ret (x :: xs)
  end.

(** [str(i)] *)
Definition str (i : nat) : string :=
  DecimalString.NilZero.string_of_uint (Nat.to_uint i).

(** *** [init_encode] *)

Definition add_nAttr (long short : string) (ty : data_type) : M nat :=
  obj <~ create nAttr long short ty ;;
  setattr long obj ;;;
  set nAttr hidden false ;;;
  set nAttr keyable true ;;;
  getattr long.

Definition add_mAttr (long short : string) : M nat :=
  obj <~ create mAttr long short kMatrix ;;
  setattr long obj ;;;
  set mAttr writable true ;;;
  set mAttr storable true ;;;
  set mAttr connectable true ;;;
  set mAttr hidden false ;;;
  getattr long.

(** The scalar inputs, which both initializers create alike. *)
Definition size_attributes : list (M nat) :=
  [add_nAttr "height_hips" "hh" kFloat;
   add_nAttr "length_spine" "l0" kFloat;
   add_nAttr "length_neck" "l1" kFloat;
   add_nAttr "length_leg_L" "l2" kFloat;
   add_nAttr "length_leg_R" "l3" kFloat;
   add_nAttr "length_arm_L" "l4" kFloat;
   add_nAttr "length_arm_R" "l5" kFloat].

Definition init_encode : M unit :=
  in_attributes <~ collect
    (size_attributes ++
     [add_mAttr "mat_hips_rest" "hr";
      add_mAttr "mat_hips" "h";
      add_mAttr "mat_spine" "s";
      add_mAttr "mat_neck" "n";
      add_mAttr "mat_neck_mid" "nm";
      add_mAttr "mat_head" "e";
      add_mAttr "mat_leg_L" "ll";
      add_mAttr "mat_shin_L" "sl";
      add_mAttr "mat_foot_L" "fl";
      add_mAttr "mat_leg_R" "lr";
      add_mAttr "mat_shin_R" "sr";
      add_mAttr "mat_foot_R" "fr";
      add_mAttr "mat_shoulder_L" "ol";
      add_mAttr "mat_elbow_L" "el";
      add_mAttr "mat_hand_L" "al";
      add_mAttr "mat_shoulder_R" "or";
      add_mAttr "mat_elbow_R" "er";
      add_mAttr "mat_hand_R" "ar"])%list ;;
  result <~ create tAttr "result" "r" kDoubleArray ;;
  setattr "result" result ;;;
  set tAttr writable false ;;;
  set tAttr storable false ;;;
  set tAttr readable true ;;;
  for_each in_attributes addAttribute ;;;
  (result <~ getattr "result" ;; addAttribute result) ;;;
  for_each in_attributes
    (fun attribute => result <~ getattr "result" ;; attributeAffects attribute result).

(** *** [init_decode] *)

Definition add_out_nAttr (long short : string) (ty : data_type) : M nat :=
  obj <~ create nAttr long short ty ;;
  setattr long obj ;;;
  set mAttr writable false ;;;
  set mAttr storable false ;;;
  set mAttr readable true ;;;
  getattr long.

Definition next_euler : M nat :=
  fun st => Some (euler_i st, st).

Definition increment_euler : M unit :=
  fun st =>
    Some (tt, mkNodeClass (objects st) (attached_n st) (attached_m st) (attached_t st)
                (attached_u st) (members st) (added st) (affects st) (S (euler_i st))).

(** [out_euler_nAttr.create] *)
Definition euler_nAttr_create (long short : string) : M nat :=
  i <~ next_euler ;;
  rotX <~ create uAttr ("rotateX" ++ str i) ("rx" ++ str i) kAngle ;;
  set uAttr writable false ;;;
  set uAttr storable false ;;;
  i <~ next_euler ;;
  rotY <~ create uAttr ("rotateY" ++ str i) ("ry" ++ str i) kAngle ;;
  set uAttr writable false ;;;
  set uAttr storable false ;;;
  i <~ next_euler ;;
  rotZ <~ create uAttr ("rotateZ" ++ str i) ("rz" ++ str i) kAngle ;;
  set uAttr writable false ;;;
  set uAttr storable false ;;;
  obj <~ create nAttr long short (kCompound rotX rotY rotZ) ;;
  setattr long obj ;;;
  set nAttr writable false ;;;
  set nAttr storable false ;;;
  set nAttr readable true ;;;
  increment_euler ;;;
  getattr long.

Definition init_decode : M unit :=
  encoded_pose <~ create tAttr "encoded_pose" "ep" kDoubleArray ;;
  setattr "encoded_pose" encoded_pose ;;;
  set tAttr connectable true ;;;
  set tAttr hidden false ;;;
  offset_mat <~ create mAttr "offset_mat" "om" kMatrix ;;
  setattr "offset_mat" offset_mat ;;;
  set mAttr keyable true ;;;
  set mAttr hidden false ;;;
  in_attributes <~ collect ([getattr "encoded_pose"; getattr "offset_mat"]
                            ++ size_attributes)%list ;;
  global_mat <~ create mAttr "global_mat" "gm" kMatrix ;;
  setattr "global_mat" global_mat ;;;
  set mAttr writable false ;;;
  set mAttr storable false ;;;
  set mAttr connectable true ;;;
  set mAttr readable true ;;;
  out_attributes <~ collect
    [getattr "global_mat";
     add_out_nAttr "ik_Spine_root" "ikp0" k3Float;
     add_out_nAttr "ik_Spine_dir" "ikd0" k3Float;
     add_out_nAttr "ik_Spine_eff" "ike0" k3Float;
     euler_nAttr_create "ik_Spine_eff_rot" "ikr0";
     add_out_nAttr "ik_Neck_root" "ikp1" k3Float;
     add_out_nAttr "ik_Neck_dir" "ikd1" k3Float;
     add_out_nAttr "ik_Neck_eff" "ike1" k3Float;
     euler_nAttr_create "ik_Neck_eff_rot" "ikr1";
     add_out_nAttr "ik_Leg_root_L" "ikp2" k3Float;
     add_out_nAttr "ik_Leg_dir_L" "ikd2" k3Float;
     add_out_nAttr "ik_Leg_eff_L" "ike2" k3Float;
     euler_nAttr_create "ik_Leg_eff_rot_L" "ikr2";
     add_out_nAttr "ik_Leg_root_R" "ikp3" k3Float;
     add_out_nAttr "ik_Leg_dir_R" "ikd3" k3Float;
     add_out_nAttr "ik_Leg_eff_R" "ike3" k3Float;
     euler_nAttr_create "ik_Leg_eff_rot_R" "ikr3";
     add_out_nAttr "ik_Arm_root_L" "ikp4" k3Float;
     add_out_nAttr "ik_Arm_dir_L" "ikd4" k3Float;
     add_out_nAttr "ik_Arm_eff_L" "ike4" k3Float;
     euler_nAttr_create "ik_Arm_eff_rot_L" "ikr4";
     add_out_nAttr "ik_Arm_root_R" "ikp5" k3Float;
     add_out_nAttr "ik_Arm_dir_R" "ikd5" k3Float;
     add_out_nAttr "ik_Arm_eff_R" "ike5" k3Float;
     euler_nAttr_create "ik_Arm_eff_rot_R" "ikr5"] ;;
  for_each in_attributes addAttribute ;;;
  for_each out_attributes addAttribute ;;;
  for_each in_attributes
    (fun in_attribute =>
       for_each out_attributes
         (fun out_attribute => attributeAffects in_attribute out_attribute)).

(** The class as an initializer leaves it, when it returns. *)
Definition initialized (init : M unit) : option node_class :=
  match init new_class with
  | Some (_, st) => Some st
  | None => None
  end.

(** *** What [compute] looks up *)

(** [getattr(cls, name)] in [compute] finds an attribute of that long
    name which has been added to the node. *)
Definition usable (st : node_class) (name : string) : bool :=
  match lookup name (members st) with
  | Some obj =>
      match nth_error (objects st) obj with
      | Some a => String.eqb (long_name a) name && existsb (Nat.eqb obj) (added st)
      | None => false
      end
  | None => false
  end.

(** A dependency has been declared from member [a] to member [b]. *)
Definition declared_affects (st : node_class) (a b : string) : bool :=
  match lookup a (members st), lookup b (members st) with
  | Some x, Some y =>
      existsb (fun p => Nat.eqb (fst p) x && Nat.eqb (snd p) y) (affects st)
  | _, _ => false
  end.


Fixpoint distinct (l : list string) : bool :=
  match l with
  | [] => true
  | x :: rest => negb (existsb (String.eqb x) rest) && distinct rest
  end.

(** *** The plug-in entry points *)






End Plugin.

(* ================================================================== *)
(** * Properties *)

(** ** Sequences *)

Lemma index_nth (l : list R) (i : nat) :
  (i < length l)%nat -> index l i = Ok (nth i l 0).
Proof.
  intros H. unfold index.
  rewrite (nth_error_nth' l 0 H). reflexivity.
Qed.

Lemma index_short (l : list R) (i : nat) :
  (length l <= i)%nat -> index l i = Err IndexError.
Proof.
  intros H. unfold index.
  apply nth_error_None in H. rewrite H. reflexivity.
Qed.

Lemma index_error (l : list R) (i : nat) (e : error) :
  index l i = Err e -> e = IndexError.
Proof.
  unfold index. destruct (nth_error l i); intros H; inversion H; reflexivity.
Qed.

Lemma index_ok_length (l : list R) (i : nat) (x : R) :
  index l i = Ok x -> (i < length l)%nat.
Proof.
  unfold index. intros H.
  destruct (nth_error l i) eqn:E; [|discriminate].
  apply nth_error_Some. congruence.
Qed.

Lemma slice_length (l : list R) (lo hi : nat) :
  length (slice l lo hi) = Nat.min (hi - lo) (length l - lo).
Proof.
  unfold slice. rewrite length_firstn, length_skipn. reflexivity.
Qed.

Lemma slice_nth (l : list R) (lo hi i : nat) :
  (i < hi - lo)%nat -> nth i (slice l lo hi) 0 = nth (lo + i) l 0.
Proof.
  intros H. unfold slice.
  rewrite nth_firstn.
  destruct (Nat.ltb_spec i (hi - lo)); [|lia].
  apply nth_skipn.
Qed.

(** ** The chain decoder *)

Lemma encoded2IK_ok (values : list R) (char_scale chain_scale : R) :
  (13 <= length values)%nat ->
  encoded2IK values char_scale chain_scale
  = Ok (decoded_block values char_scale chain_scale).
Proof.
  intros H. unfold encoded2IK.
  repeat (rewrite index_nth by lia; cbn [bind]).
  reflexivity.
Qed.

Lemma encoded2IK_error (values : list R) (cs ch : R) (e : error) :
  encoded2IK values cs ch = Err e -> e = IndexError.
Proof.
  unfold encoded2IK.
  repeat match goal with
  | |- bind (index ?l ?i) _ = _ -> _ =>
      destruct (index l i) eqn:?E; cbn [bind];
      [ | intros H; inversion H; subst; eapply index_error; eassumption ]
  end.
  discriminate.
Qed.

Lemma encoded2IK_ok_length (values : list R) (cs ch : R) (c : DecodedChain) :
  encoded2IK values cs ch = Ok c -> (13 <= length values)%nat.
Proof.
  unfold encoded2IK.
  repeat match goal with
  | |- bind (index ?l ?i) _ = _ -> _ =>
      destruct (index l i) eqn:?E; cbn [bind]; [ | discriminate ]
  end.
  intros _.
  match goal with H : index values 12 = Ok _ |- _ => apply index_ok_length in H end.
  lia.
Qed.

(** C4: on a block of 13 values the chain decoder returns the root scaled
    by [char_scale], the effector scaled by [chain_scale], the pole vector
    unchanged (not renormalized) and the Euler conversion of the quaternion
    built from the last four values. *)
Theorem encoded2IK_spec (values : list R) (char_scale chain_scale : R) :
  length values = 13%nat ->
  encoded2IK values char_scale chain_scale
  = Ok (mkDecodedChain
          (mkV (nth 0 values 0 * char_scale) (nth 1 values 0 * char_scale)
               (nth 2 values 0 * char_scale))
          (mkV (nth 3 values 0 * chain_scale) (nth 4 values 0 * chain_scale)
               (nth 5 values 0 * chain_scale))
          (mkV (nth 6 values 0) (nth 7 values 0) (nth 8 values 0))
          (asEulerRotation
             (mkQ (nth 9 values 0) (nth 10 values 0) (nth 11 values 0)
                  (nth 12 values 0)))).
Proof.
  intros H. rewrite encoded2IK_ok by lia. reflexivity.
Qed.

Lemma encoded2IK_spec_witness :
  encoded2IK [1; 2; 3; 4; 5; 6; 0; 1; 0; 0; 0; 0; 1] 10 2
  = Ok (mkDecodedChain
          (mkV (1 * 10) (2 * 10) (3 * 10))
          (mkV (4 * 2) (5 * 2) (6 * 2))
          (mkV 0 1 0)
          (asEulerRotation (mkQ 0 0 0 1))).
Proof.
  apply (encoded2IK_spec [1; 2; 3; 4; 5; 6; 0; 1; 0; 0; 0; 0; 1] 10 2).
  reflexivity.
Defined.

(** ** The pose packer *)

Lemma append_component_all (c : component) (out : list R) :
  append_component c (seq 0 (component_len c)) out
  = Ok (out ++ match c with
               | PairC a b => [a; b]
               | QuatC q => Quat.to_list q
               | VecC v => Vec.to_list v
               end).
Proof.
  destruct c; cbn; rewrite <- ?app_assoc; reflexivity.
Qed.

Lemma pose_packer_components (c : EncodedComponents) :
  pose_packer (out_components c) [] = Ok (EncodedPose_layout c).
Proof.
  reflexivity.
Qed.

Lemma EncodedPose_layout_length (c : EncodedComponents) :
  length (EncodedPose_layout c) = 84%nat.
Proof. reflexivity. Qed.

(** C1: the flat sequence that the pose packer produces has exactly 84
    values in the fixed order of section 3: translation x and z, the
    global orientation quaternion, then the 13-value blocks of Spine, Neck,
    Leg_L, Leg_R, Arm_L and Arm_R, each block being root, effector, pole
    vector and effector-orientation quaternion.  The packing loop never
    fails, and the encoder returns this sequence whenever its chain
    encodings exist. *)
Theorem pose_packer_layout :
  (forall c : EncodedComponents,
      pose_packer (out_components c) [] = Ok (EncodedPose_layout c)
      /\ length (EncodedPose_layout c) = 84%nat
      /\ EncodedPose_layout c
         = [g_tr_x (enc_frame c); g_tr_z (enc_frame c)]
           ++ Quat.to_list (g_ori (enc_frame c))
           ++ concat (map chain_block
                [enc_spine c; enc_neck c; enc_leg_L c; enc_leg_R c;
                 enc_arm_L c; enc_arm_R c])
      /\ forall ch : EncodedChain,
           chain_block ch
           = [vx (ik_root ch); vy (ik_root ch); vz (ik_root ch);
              vx (ik_eff ch); vy (ik_eff ch); vz (ik_eff ch);
              vx (ik_upv ch); vy (ik_upv ch); vz (ik_upv ch);
              qx (ik_eff_rot ch); qy (ik_eff_rot ch); qz (ik_eff_rot ch);
              qw (ik_eff_rot ch)])
  /\ (forall (s : Scales) (j : Joints),
        match ikrig_encode_compute s j with
        | Ok out =>
            length out = 84%nat
            /\ exists c, encode_components s j = Ok c /\ out = EncodedPose_layout c
        | Err e => encode_components s j = Err e
        end).
Proof.
  split.
  - intros c. split; [apply pose_packer_components|].
    split; [apply EncodedPose_layout_length|].
    split; [reflexivity|]. intros ch. reflexivity.
  - intros s j. unfold ikrig_encode_compute.
    destruct (encode_components s j) as [c|e]; cbn [bind]; [|reflexivity].
    rewrite pose_packer_components. split; [reflexivity|].
    exists c. split; reflexivity.
Qed.

(** ** The pose unpacker *)

Lemma decode_global_ok (a : list R) (offset_mat : MMatrix) :
  (6 <= length a)%nat -> exists g, decode_global a offset_mat = Ok g.
Proof.
  intros H. unfold decode_global.
  repeat (rewrite index_nth by lia; cbn [bind]).
  eexists; reflexivity.
Qed.

Lemma decode_global_error (a : list R) (offset_mat : MMatrix) (e : error) :
  decode_global a offset_mat = Err e -> e = IndexError.
Proof.
  unfold decode_global.
  repeat match goal with
  | |- bind (index ?l ?i) _ = _ -> _ =>
      destruct (index l i) eqn:?E; cbn [bind];
      [ | intros H; inversion H; subst; eapply index_error; eassumption ]
  end.
  discriminate.
Qed.

Lemma decode_global_firstn (a : list R) (offset_mat : MMatrix) (n : nat) :
  (6 <= n)%nat ->
  decode_global (firstn n a) offset_mat = decode_global a offset_mat.
Proof.
  intros H. unfold decode_global, index.
  rewrite !nth_error_firstn.
  repeat match goal with
  | |- context [(?i <? n)%nat] =>
      let E := fresh in
      destruct (Nat.ltb_spec i n) as [E|E]; [ | exfalso; lia ]
  end.
  reflexivity.
Qed.

Lemma decode_chains_ok (a : list R) (s : Scales) :
  (84 <= length a)%nat -> decode_chains a s = Ok (decoded_pose a s).
Proof.
  intros H. unfold decode_chains.
  repeat (rewrite encoded2IK_ok by (rewrite slice_length; lia); cbn [bind]).
  reflexivity.
Qed.

Lemma decode_chains_error (a : list R) (s : Scales) (e : error) :
  decode_chains a s = Err e -> e = IndexError.
Proof.
  unfold decode_chains.
  repeat match goal with
  | |- bind (encoded2IK ?l ?x ?y) _ = _ -> _ =>
      destruct (encoded2IK l x y) eqn:?E; cbn [bind];
      [ | intros H; inversion H; subst; eapply encoded2IK_error; eassumption ]
  end.
  discriminate.
Qed.

Lemma decode_chains_ok_length (a : list R) (s : Scales) (p : DecodedPose) :
  decode_chains a s = Ok p -> (84 <= length a)%nat.
Proof.
  unfold decode_chains.
  repeat match goal with
  | |- bind (encoded2IK ?l ?x ?y) _ = _ -> _ =>
      destruct (encoded2IK l x y) eqn:?E; cbn [bind]; [ | discriminate ]
  end.
  intros _.
  match goal with
  | H : encoded2IK (slice a 71 84) _ _ = Ok _ |- _ =>
      apply encoded2IK_ok_length in H; rewrite slice_length in H
  end.
  lia.
Qed.

Lemma slice_firstn (a : list R) (n lo hi : nat) :
  (hi <= n)%nat -> slice (firstn n a) lo hi = slice a lo hi.
Proof.
  intros H. unfold slice.
  rewrite skipn_firstn_comm, firstn_firstn.
  f_equal. lia.
Qed.

Lemma decode_chains_firstn (a : list R) (s : Scales) (n : nat) :
  (84 <= n)%nat -> decode_chains (firstn n a) s = decode_chains a s.
Proof.
  intros H. unfold decode_chains.
  rewrite !slice_firstn by lia. reflexivity.
Qed.

Lemma ikrig_decode_compute_ok (a : list R) (offset_mat : MMatrix) (s : Scales) :
  (84 <= length a)%nat ->
  exists g,
    decode_global a offset_mat = Ok g
    /\ ikrig_decode_compute a offset_mat s
       = (mkDatablock (Some g) (Some (decoded_pose a s)), Ok tt).
Proof.
  intros H.
  destruct (decode_global_ok a offset_mat) as [g Hg]; [lia|].
  exists g. split; [exact Hg|].
  unfold ikrig_decode_compute. rewrite Hg, decode_chains_ok by lia.
  reflexivity.
Qed.

Lemma ikrig_decode_compute_short (a : list R) (offset_mat : MMatrix) (s : Scales) :
  (length a < 84)%nat ->
  snd (ikrig_decode_compute a offset_mat s) = Err IndexError
  /\ ik_outputs (fst (ikrig_decode_compute a offset_mat s)) = None.
Proof.
  intros H. unfold ikrig_decode_compute.
  destruct (decode_global a offset_mat) as [g|e] eqn:Hg.
  - destruct (decode_chains a s) as [p|e] eqn:Hc.
    + apply decode_chains_ok_length in Hc. lia.
    + apply decode_chains_error in Hc. subst. split; reflexivity.
  - apply decode_global_error in Hg. subst. split; reflexivity.
Qed.

(** C2, as the code has it: a pose shorter than 84 values makes the
    decoder fail with Python's [IndexError] (not with [MalformedPose])
    and no chain output is written; a pose longer than 84 values is not
    rejected: the decoder returns and writes what it writes for the first
    84 values. *)
Theorem decode_wrong_length (a : list R) (offset_mat : MMatrix) (s : Scales) :
  ((length a < 84)%nat ->
     snd (ikrig_decode_compute a offset_mat s) = Err IndexError
     /\ ik_outputs (fst (ikrig_decode_compute a offset_mat s)) = None)
  /\ ((84 < length a)%nat ->
        snd (ikrig_decode_compute a offset_mat s) = Ok tt
        /\ ik_outputs (fst (ikrig_decode_compute a offset_mat s))
           = Some (decoded_pose a s)
        /\ ikrig_decode_compute a offset_mat s
           = ikrig_decode_compute (firstn 84 a) offset_mat s).
Proof.
  split.
  - apply ikrig_decode_compute_short.
  - intros H.
    destruct (ikrig_decode_compute_ok a offset_mat s) as [g [Hg Hc]]; [lia|].
    rewrite Hc. repeat split.
    unfold ikrig_decode_compute.
    rewrite decode_global_firstn, decode_chains_firstn by lia.
    rewrite Hg, decode_chains_ok by lia. reflexivity.
Qed.

Lemma decode_wrong_length_witness :
  (snd (ikrig_decode_compute [1; 2; 3] Mat.identity unit_scales) = Err IndexError
   /\ ik_outputs (fst (ikrig_decode_compute [1; 2; 3] Mat.identity unit_scales)) = None)
  /\ snd (ikrig_decode_compute (repeat 0 85) Mat.identity unit_scales) = Ok tt.
Proof.
  split.
  - apply (proj1 (decode_wrong_length [1; 2; 3] Mat.identity unit_scales)).
    cbn. lia.
  - apply (proj2 (decode_wrong_length (repeat 0 85) Mat.identity unit_scales)).
    cbn. lia.
Defined.

(** C2, as stated, fails: a pose of 85 values is not rejected; the
    decoder returns normally and writes the chain outputs. *)
Lemma decode_accepts_85_values :
  length (repeat 0 85) <> 84%nat
  /\ ~ rejects_as_malformed (repeat 0 85) Mat.identity unit_scales
  /\ snd (ikrig_decode_compute (repeat 0 85) Mat.identity unit_scales) = Ok tt
  /\ ik_outputs (fst (ikrig_decode_compute (repeat 0 85) Mat.identity unit_scales))
     <> None.
Proof.
  destruct (ikrig_decode_compute_ok (repeat 0 85) Mat.identity unit_scales)
    as [g [_ Hc]]; [cbn; lia|].
  unfold rejects_as_malformed. rewrite Hc.
  repeat split; cbn; try discriminate; try lia.
Qed.

(** C9: the pose unpacker adds [height_hips] to the Y component of the
    Spine root after the chain decoder has returned it (the other three
    Spine values are kept), and writes the results of the chain decoder
    for Neck, Leg_L, Leg_R, Arm_L and Arm_R as they are. *)
Theorem spine_root_lifted (a : list R) (offset_mat : MMatrix) (s : Scales) :
  (84 <= length a)%nat ->
  exists spine pose,
    ik_outputs (fst (ikrig_decode_compute a offset_mat s)) = Some pose
    /\ encoded2IK (slice a 6 19) (height_hips s) (length_spine s) = Ok spine
    /\ ik_chain_root (ik_Spine pose)
       = mkV (vx (ik_chain_root spine))
             (vy (ik_chain_root spine) + height_hips s)
             (vz (ik_chain_root spine))
    /\ ik_chain_eff (ik_Spine pose) = ik_chain_eff spine
    /\ ik_chain_upv (ik_Spine pose) = ik_chain_upv spine
    /\ ik_chain_eff_rot (ik_Spine pose) = ik_chain_eff_rot spine
    /\ encoded2IK (slice a 19 32) (height_hips s) (length_neck s) = Ok (ik_Neck pose)
    /\ encoded2IK (slice a 32 45) (height_hips s) (length_leg_L s) = Ok (ik_Leg_L pose)
    /\ encoded2IK (slice a 45 58) (height_hips s) (length_leg_R s) = Ok (ik_Leg_R pose)
    /\ encoded2IK (slice a 58 71) (height_hips s) (length_arm_L s) = Ok (ik_Arm_L pose)
    /\ encoded2IK (slice a 71 84) (height_hips s) (length_arm_R s) = Ok (ik_Arm_R pose).
Proof.
  intros H.
  destruct (ikrig_decode_compute_ok a offset_mat s) as [g [_ Hc]]; [lia|].
  exists (decoded_block (slice a 6 19) (height_hips s) (length_spine s)).
  exists (decoded_pose a s).
  rewrite Hc. cbn [fst ik_outputs].
  repeat (rewrite encoded2IK_ok by (rewrite slice_length; lia)).
  repeat split.
Qed.

Lemma spine_root_lifted_witness :
  exists spine pose,
    ik_outputs (fst (ikrig_decode_compute (repeat 1 84) Mat.identity
                       (mkScales 10 2 2 2 2 2 2))) = Some pose
    /\ encoded2IK (slice (repeat 1 84) 6 19) 10 2 = Ok spine
    /\ ik_chain_root (ik_Spine pose)
       = mkV (vx (ik_chain_root spine)) (vy (ik_chain_root spine) + 10)
             (vz (ik_chain_root spine))
    /\ ik_chain_eff (ik_Spine pose) = ik_chain_eff spine
    /\ ik_chain_upv (ik_Spine pose) = ik_chain_upv spine
    /\ ik_chain_eff_rot (ik_Spine pose) = ik_chain_eff_rot spine
    /\ encoded2IK (slice (repeat 1 84) 19 32) 10 2 = Ok (ik_Neck pose)
    /\ encoded2IK (slice (repeat 1 84) 32 45) 10 2 = Ok (ik_Leg_L pose)
    /\ encoded2IK (slice (repeat 1 84) 45 58) 10 2 = Ok (ik_Leg_R pose)
    /\ encoded2IK (slice (repeat 1 84) 58 71) 10 2 = Ok (ik_Arm_L pose)
    /\ encoded2IK (slice (repeat 1 84) 71 84) 10 2 = Ok (ik_Arm_R pose).
Proof.
  apply (spine_root_lifted (repeat 1 84) Mat.identity (mkScales 10 2 2 2 2 2 2)).
  cbn. lia.
Defined.

(** ** Real arithmetic on vectors and matrices *)

Lemma mkM_ext (a00 a01 a02 a03 a10 a11 a12 a13 a20 a21 a22 a23 a30 a31 a32 a33
                b00 b01 b02 b03 b10 b11 b12 b13 b20 b21 b22 b23 b30 b31 b32 b33 : R) :
  a00 = b00 -> a01 = b01 -> a02 = b02 -> a03 = b03 ->
  a10 = b10 -> a11 = b11 -> a12 = b12 -> a13 = b13 ->
  a20 = b20 -> a21 = b21 -> a22 = b22 -> a23 = b23 ->
  a30 = b30 -> a31 = b31 -> a32 = b32 -> a33 = b33 ->
  mkM a00 a01 a02 a03 a10 a11 a12 a13 a20 a21 a22 a23 a30 a31 a32 a33
  = mkM b00 b01 b02 b03 b10 b11 b12 b13 b20 b21 b22 b23 b30 b31 b32 b33.
Proof. intros. subst. reflexivity. Qed.

Lemma mkV_ext (a0 a1 a2 b0 b1 b2 : R) :
  a0 = b0 -> a1 = b1 -> a2 = b2 -> mkV a0 a1 a2 = mkV b0 b1 b2.
Proof. intros. subst. reflexivity. Qed.

Lemma mkQ_ext (a0 a1 a2 a3 b0 b1 b2 b3 : R) :
  a0 = b0 -> a1 = b1 -> a2 = b2 -> a3 = b3 -> mkQ a0 a1 a2 a3 = mkQ b0 b1 b2 b3.
Proof. intros. subst. reflexivity. Qed.

Lemma inverse_ok (m : MMatrix) :
  Mat.det m <> 0 -> Mat.inverse m = Ok (Mat.adjugate_over m (Mat.det m)).
Proof.
  intros H. unfold Mat.inverse.
  destruct (Req_dec_T (Mat.det m) 0) as [E|E]; [contradiction|reflexivity].
Qed.

Lemma inverse_singular (m : MMatrix) :
  Mat.det m = 0 -> Mat.inverse m = Err SingularMatrix.
Proof.
  intros H. unfold Mat.inverse.
  destruct (Req_dec_T (Mat.det m) 0) as [E|E]; [reflexivity|contradiction].
Qed.

Lemma inverse_identity : Mat.inverse Mat.identity = Ok Mat.identity.
Proof.
  assert (D : Mat.det Mat.identity = 1) by (unfold_mat; ring).
  rewrite inverse_ok by (rewrite D; lra).
  rewrite D. unfold_mat. apply f_equal. apply mkM_ext; field.
Qed.

Lemma mul_identity_r (m : MMatrix) : Mat.mul m Mat.identity = m.
Proof. destruct m. unfold_mat. apply mkM_ext; ring. Qed.

Lemma mul_identity_l (m : MMatrix) : Mat.mul Mat.identity m = m.
Proof. destruct m. unfold_mat. apply mkM_ext; ring. Qed.

Lemma vmul_identity (v : MVector) : Mat.vmul v Mat.identity = v.
Proof. destruct v. unfold_mat. apply mkV_ext; ring. Qed.

Lemma length_sqr (v : MVector) : Vec.length v * Vec.length v = Vec.dot v v.
Proof.
  unfold Vec.length. apply sqrt_sqrt.
  unfold Vec.dot. nra.
Qed.

Lemma length_nonneg (v : MVector) : 0 <= Vec.length v.
Proof. apply sqrt_pos. Qed.

Lemma length_zero_iff (v : MVector) : Vec.length v = 0 <-> v = Vec.zero.
Proof.
  split.
  - intros H. pose proof (length_sqr v) as S. rewrite H in S.
    destruct v as [x y z]. unfold Vec.dot in S. cbn in S.
    unfold Vec.zero.
    assert (x = 0) by nra. assert (y = 0) by nra. assert (z = 0) by nra.
    subst. reflexivity.
  - intros ->. unfold Vec.length, Vec.dot, Vec.zero. cbn.
    replace (0 * 0 + 0 * 0 + 0 * 0) with 0 by ring. apply sqrt_0.
Qed.

Lemma normal_zero : Vec.normal Vec.zero = Vec.zero.
Proof.
  unfold Vec.normal, Vec.div, Vec.zero. cbn [vx vy vz].
  apply mkV_ext; unfold Rdiv; ring.
Qed.

Lemma normal_of_unit (v : MVector) : Vec.length v = 1 -> Vec.normal v = v.
Proof.
  intros H. unfold Vec.normal. rewrite H. destruct v. unfold Vec.div. cbn [vx vy vz].
  apply mkV_ext; field.
Qed.

(** The normalisation of a vector that is not zero has length one. *)
Lemma normal_length (v : MVector) :
  v <> Vec.zero -> Vec.length (Vec.normal v) = 1.
Proof.
  intros H.
  assert (L : Vec.length v <> 0) by (intros E; apply H, length_zero_iff, E).
  pose proof (length_nonneg v) as P.
  pose proof (length_sqr v) as S.
  unfold Vec.length at 1.
  replace (Vec.dot (Vec.normal v) (Vec.normal v)) with 1; [apply sqrt_1|].
  unfold Vec.normal, Vec.div, Vec.dot in *. cbn.
  set (l := Vec.length v) in *.
  field_simplify; [|exact L].
  rewrite <- (Rdiv_diag (l ^ 2)) by (apply pow_nonzero; exact L).
  apply f_equal2; [nra|reflexivity].
Qed.

(** ** The frame builder on an upright character *)

Lemma sqrt_square_pos (h : R) : 0 < h -> sqrt (h * h) = h.
Proof. intros H. apply sqrt_square. lra. Qed.

Lemma normal_axis_x (h : R) : 0 < h -> Vec.normal (mkV h 0 0) = mkV 1 0 0.
Proof.
  intros H. unfold Vec.normal, Vec.length, Vec.dot. cbn [vx vy vz].
  replace (h * h + 0 * 0 + 0 * 0) with (h * h) by ring.
  rewrite sqrt_square_pos by exact H.
  unfold Vec.div. cbn [vx vy vz]. apply mkV_ext; field; lra.
Qed.

Lemma normal_axis_y (h : R) : 0 < h -> Vec.normal (mkV 0 h 0) = mkV 0 1 0.
Proof.
  intros H. unfold Vec.normal, Vec.length, Vec.dot. cbn [vx vy vz].
  replace (0 * 0 + h * h + 0 * 0) with (h * h) by ring.
  rewrite sqrt_square_pos by exact H.
  unfold Vec.div. cbn [vx vy vz]. apply mkV_ext; field; lra.
Qed.

Lemma normal_axis_z (h : R) : 0 < h -> Vec.normal (mkV 0 0 h) = mkV 0 0 1.
Proof.
  intros H. unfold Vec.normal, Vec.length, Vec.dot. cbn [vx vy vz].
  replace (0 * 0 + 0 * 0 + h * h) with (h * h) by ring.
  rewrite sqrt_square_pos by exact H.
  unfold Vec.div. cbn [vx vy vz]. apply mkV_ext; field; lra.
Qed.

(** A frame with axes of length [h] along the world axes. *)
Lemma homogenize_upright (h a b c tx ty tz w : R) :
  0 < h ->
  Mat.homogenize (mkM h 0 0 a  0 h 0 b  0 0 h c  tx ty tz w)
  = mkM 1 0 0 a  0 1 0 b  0 0 1 c  tx ty tz w.
Proof.
  intros H. unfold Mat.homogenize, Mat.orthonormalize, Mat.row0, Mat.row1, Mat.row2.
  cbn [m00 m01 m02 m03 m10 m11 m12 m13 m20 m21 m22 m23 m30 m31 m32 m33].
  rewrite (normal_axis_x h H).
  replace (Vec.sub (mkV 0 h 0) (Vec.scale (mkV 1 0 0) (Vec.dot (mkV 0 h 0) (mkV 1 0 0))))
    with (mkV 0 h 0) by (unfold_mat; apply mkV_ext; ring).
  rewrite (normal_axis_y h H).
  replace (Vec.sub (Vec.sub (mkV 0 0 h) (Vec.scale (mkV 1 0 0) (Vec.dot (mkV 0 0 h) (mkV 1 0 0))))
                   (Vec.scale (mkV 0 1 0) (Vec.dot (mkV 0 0 h) (mkV 0 1 0))))
    with (mkV 0 0 h) by (unfold_mat; apply mkV_ext; ring).
  rewrite (normal_axis_z h H).
  reflexivity.
Qed.

Lemma sqrt_4 : sqrt 4 = 2.
Proof. replace 4 with (2 * 2) by ring. apply sqrt_square. lra. Qed.

Lemma quat_setValue_identity_block (a b c tx ty tz w : R) :
  quat_setValue (mkM 1 0 0 a  0 1 0 b  0 0 1 c  tx ty tz w) = Quat.identity.
Proof.
  unfold quat_setValue.
  cbn [m00 m01 m02 m03 m10 m11 m12 m13 m20 m21 m22 m23 m30 m31 m32 m33].
  destruct (Rlt_dec 0 (1 + 1 + 1)) as [_|N]; [|exfalso; lra].
  replace (1 + 1 + 1 + 1) with 4 by ring. rewrite sqrt_4.
  unfold Quat.identity. apply mkQ_ext; field.
Qed.

Lemma inverse_translation (r : MVector) :
  Mat.inverse (Mat.translation r)
  = Ok (Mat.translation (mkV (- vx r) (- vy r) (- vz r))).
Proof.
  assert (D : Mat.det (Mat.translation r) = 1) by (unfold_mat; ring).
  rewrite inverse_ok by (rewrite D; lra).
  rewrite D. unfold_mat. apply f_equal. apply mkM_ext; field.
Qed.

(** The global frame of a character whose hips are not rotated with
    respect to the rest pose. *)
Lemma frame_builder_upright (r t : MVector) (h : R) :
  0 < h ->
  frame_builder (Mat.translation r) (Mat.translation t) h
  = Ok (mkGlobalFrame (vx t) h (vz t)
          (mkM h 0 0 0  0 h 0 0  0 0 h 0  (vx t) h (vz t) 1)
          Quat.identity).
Proof.
  intros H. unfold frame_builder.
  rewrite inverse_translation. cbn [bind].
  replace (Mat.vmul (mkV 0 0 1)
             (Mat.mul (Mat.translation (mkV (- vx r) (- vy r) (- vz r)))
                      (Mat.translation t)))
    with (mkV 0 0 1)
    by (unfold_mat; apply mkV_ext; ring).
  cbn [vx vy vz].
  rewrite (normal_axis_z 1) by lra.
  rewrite (normal_axis_z 1) by lra.
  replace (Vec.scale (Vec.cross (mkV 0 1 0) (mkV 0 0 1)) h) with (mkV h 0 0)
    by (unfold_mat; apply mkV_ext; ring).
  replace (Vec.scale (mkV 0 1 0) h) with (mkV 0 h 0)
    by (unfold_mat; apply mkV_ext; ring).
  replace (Vec.scale (mkV 0 0 1) h) with (mkV 0 0 h)
    by (unfold_mat; apply mkV_ext; ring).
  unfold Mat.translation.
  cbn [vx vy vz m00 m01 m02 m03 m10 m11 m12 m13 m20 m21 m22 m23 m30 m31 m32 m33].
  rewrite homogenize_upright by exact H.
  rewrite quat_setValue_identity_block.
  reflexivity.
Qed.

(** C5: with both hips matrices the identity and [height_hips = 10], the
    frame builder returns the matrix with rows x axis (10, 0, 0), y axis
    (0, 10, 0), z axis (0, 0, 10) and translation (0, 10, 0), and the
    identity quaternion. *)
Theorem frame_builder_identity_hips :
  exists fr : GlobalFrame,
    frame_builder Mat.identity Mat.identity 10 = Ok fr
    /\ Mat.row0 (g_mat fr) = mkV 10 0 0
    /\ Mat.row1 (g_mat fr) = mkV 0 10 0
    /\ Mat.row2 (g_mat fr) = mkV 0 0 10
    /\ MMat2Trans (g_mat fr) = mkV 0 10 0
    /\ g_mat fr = mkM 10 0 0 0  0 10 0 0  0 0 10 0  0 10 0 1
    /\ g_ori fr = mkQ 0 0 0 1.
Proof.
  eexists. split.
  - change Mat.identity with (Mat.translation (mkV 0 0 0)).
    apply frame_builder_upright. lra.
  - cbn. repeat split.
Qed.

(** ** Inverses of affine transforms *)

Lemma det_affine (m : MMatrix) : Mat.affine m -> Mat.det m = Mat.c33 m.
Proof. intros A. destruct_affine m A. unfold_mat. ring. Qed.

Lemma adjugate_affine (m : MMatrix) :
  Mat.affine m -> Mat.det m <> 0 ->
  Mat.affine (Mat.adjugate_over m (Mat.det m)).
Proof.
  intros A D. destruct_affine m A. unfold Mat.affine.
  unfold_mat. unfold_mat_in D.
  repeat split; field; nonzero_by D.
Qed.

(** On directions, the inverse of an invertible affine transform undoes
    the transform. *)
Lemma vmul_inverse_cancel (u : MVector) (m : MMatrix) :
  Mat.affine m -> Mat.det m <> 0 ->
  Mat.vmul (Mat.vmul u (Mat.adjugate_over m (Mat.det m))) m = u.
Proof.
  intros A D. destruct_affine m A. destruct u as [x y z].
  unfold_mat. unfold_mat_in D.
  apply mkV_ext; field; nonzero_by D.
Qed.

Lemma vmul_zero (m : MMatrix) : Mat.vmul Vec.zero m = Vec.zero.
Proof. unfold_mat. apply mkV_ext; ring. Qed.

Lemma vmul_inverse_nonzero (u : MVector) (m : MMatrix) :
  Mat.affine m -> Mat.det m <> 0 -> u <> Vec.zero ->
  Mat.vmul u (Mat.adjugate_over m (Mat.det m)) <> Vec.zero.
Proof.
  intros A D U E. apply U.
  rewrite <- (vmul_inverse_cancel u m A D), E. apply vmul_zero.
Qed.

(** ** Cross products *)

Lemma dot_self_zero (v : MVector) : Vec.dot v v = 0 -> v = Vec.zero.
Proof.
  destruct v as [x y z]. unfold Vec.dot, Vec.zero. cbn [vx vy vz]. intros H.
  assert (x = 0) by nra. assert (y = 0) by nra. assert (z = 0) by nra.
  subst. reflexivity.
Qed.

Lemma cross_zero_r (a : MVector) : Vec.cross a Vec.zero = Vec.zero.
Proof. unfold_mat. apply mkV_ext; ring. Qed.

Lemma cross_zero_l (a : MVector) : Vec.cross Vec.zero a = Vec.zero.
Proof. unfold_mat. apply mkV_ext; ring. Qed.

(** Lagrange's identity for a vector [n = a ^ b], which is orthogonal to
    [b]. *)
Lemma cross_cross_dot (a b : MVector) :
  Vec.dot (Vec.cross (Vec.cross a b) b) (Vec.cross (Vec.cross a b) b)
  = Vec.dot (Vec.cross a b) (Vec.cross a b) * Vec.dot b b.
Proof. destruct a, b. unfold_mat. ring. Qed.

Lemma cross_cross_nonzero (a b : MVector) :
  Vec.cross a b <> Vec.zero -> Vec.cross (Vec.cross a b) b <> Vec.zero.
Proof.
  intros N E.
  pose proof (cross_cross_dot a b) as L. rewrite E in L.
  replace (Vec.dot Vec.zero Vec.zero) with 0 in L by (unfold_mat; ring).
  symmetry in L. apply Rmult_integral in L. destruct L as [L|L].
  - apply N, dot_self_zero, L.
  - apply dot_self_zero in L. subst b. apply N, cross_zero_r.
Qed.

(** ** Orthonormalization keeps a frame invertible *)

Lemma rows_det_sub_mid (r0 r1 r2 : MVector) (l c : R) :
  l <> 0 ->
  Mat.rows_det r0 (Vec.sub r1 (Vec.scale (Vec.div r0 l) c)) r2
  = Mat.rows_det r0 r1 r2.
Proof. intros L. destruct r0, r1, r2. unfold_mat. field. exact L. Qed.

Lemma rows_det_sub_last (r0 u1 r2 : MVector) (l0 l1 a b : R) :
  l0 <> 0 -> l1 <> 0 ->
  Mat.rows_det r0 u1
    (Vec.sub (Vec.sub r2 (Vec.scale (Vec.div r0 l0) a)) (Vec.scale (Vec.div u1 l1) b))
  = Mat.rows_det r0 u1 r2.
Proof. intros L0 L1. destruct r0, u1, r2. unfold_mat. field. split; assumption. Qed.

Lemma rows_det_div (a b c : MVector) (l0 l1 l2 : R) :
  l0 <> 0 -> l1 <> 0 -> l2 <> 0 ->
  Mat.rows_det (Vec.div a l0) (Vec.div b l1) (Vec.div c l2)
  = Mat.rows_det a b c / (l0 * l1 * l2).
Proof. intros L0 L1 L2. destruct a, b, c. unfold_mat. field. repeat split; assumption. Qed.

Lemma rows_det_zero_0 (b c : MVector) : Mat.rows_det Vec.zero b c = 0.
Proof. unfold_mat. ring. Qed.

Lemma rows_det_zero_1 (a c : MVector) : Mat.rows_det a Vec.zero c = 0.
Proof. unfold_mat. ring. Qed.

Lemma rows_det_zero_2 (a b : MVector) : Mat.rows_det a b Vec.zero = 0.
Proof. unfold_mat. ring. Qed.

Lemma orthonormalize_det (r0 r1 r2 : MVector) :
  Mat.rows_det r0 r1 r2 <> 0 ->
  Mat.rows_det (fst (fst (Mat.orthonormalize r0 r1 r2)))
               (snd (fst (Mat.orthonormalize r0 r1 r2)))
               (snd (Mat.orthonormalize r0 r1 r2)) <> 0.
Proof.
  intros H. unfold Mat.orthonormalize, Vec.normal. cbn [fst snd].
  set (l0 := Vec.length r0).
  assert (L0 : l0 <> 0).
  { intros E. apply length_zero_iff in E. apply H. rewrite E.
    apply rows_det_zero_0. }
  set (e0 := Vec.div r0 l0).
  set (u1 := Vec.sub r1 (Vec.scale e0 (Vec.dot r1 e0))).
  assert (D1 : Mat.rows_det r0 u1 r2 = Mat.rows_det r0 r1 r2)
    by (apply rows_det_sub_mid; exact L0).
  set (l1 := Vec.length u1).
  assert (L1 : l1 <> 0).
  { intros E. apply length_zero_iff in E. apply H. rewrite <- D1, E.
    apply rows_det_zero_1. }
  set (e1 := Vec.div u1 l1).
  set (u2 := Vec.sub (Vec.sub r2 (Vec.scale e0 (Vec.dot r2 e0)))
                     (Vec.scale e1 (Vec.dot r2 e1))).
  assert (D2 : Mat.rows_det r0 u1 u2 = Mat.rows_det r0 u1 r2)
    by (apply rows_det_sub_last; assumption).
  set (l2 := Vec.length u2).
  assert (L2 : l2 <> 0).
  { intros E. apply length_zero_iff in E. apply H. rewrite <- D1, <- D2, E.
    apply rows_det_zero_2. }
  change (Mat.rows_det (Vec.div r0 l0) (Vec.div u1 l1) (Vec.div u2 l2) <> 0).
  rewrite rows_det_div, D2, D1 by assumption.
  unfold Rdiv. apply Rmult_integral_contrapositive. split; [exact H|].
  apply Rinv_neq_0_compat.
  repeat apply Rmult_integral_contrapositive_currified; assumption.
Qed.

Lemma homogenize_affine (m : MMatrix) : Mat.affine m -> Mat.affine (Mat.homogenize m).
Proof.
  unfold Mat.affine, Mat.homogenize.
  destruct (Mat.orthonormalize (Mat.row0 m) (Mat.row1 m) (Mat.row2 m)) as [[e0 e1] e2].
  cbn [m03 m13 m23 m33]. tauto.
Qed.

Lemma det_homogenize (m : MMatrix) :
  Mat.affine m ->
  Mat.det (Mat.homogenize m)
  = Mat.rows_det (fst (fst (Mat.orthonormalize (Mat.row0 m) (Mat.row1 m) (Mat.row2 m))))
                 (snd (fst (Mat.orthonormalize (Mat.row0 m) (Mat.row1 m) (Mat.row2 m))))
                 (snd (Mat.orthonormalize (Mat.row0 m) (Mat.row1 m) (Mat.row2 m))).
Proof.
  intros A. rewrite det_affine by (apply homogenize_affine; exact A).
  unfold Mat.homogenize.
  destruct (Mat.orthonormalize (Mat.row0 m) (Mat.row1 m) (Mat.row2 m)) as [[e0 e1] e2].
  reflexivity.
Qed.

Lemma det_rows (m : MMatrix) :
  Mat.affine m -> Mat.det m = Mat.rows_det (Mat.row0 m) (Mat.row1 m) (Mat.row2 m).
Proof. intros A. rewrite det_affine by exact A. reflexivity. Qed.

(** The homogenized copy of an invertible affine frame is invertible. *)
Lemma det_homogenize_nonzero (m : MMatrix) :
  Mat.affine m -> Mat.det m <> 0 -> Mat.det (Mat.homogenize m) <> 0.
Proof.
  intros A D. rewrite det_homogenize by exact A.
  apply orthonormalize_det. rewrite <- det_rows by exact A. exact D.
Qed.

(** ** The chain encoder returns on an invertible affine frame *)

Lemma FK2encoded_ok (g root_jnt dir_jnt eff_jnt : MMatrix) (chain_length : R) :
  Mat.affine g -> Mat.det g <> 0 ->
  let g_inv := Mat.adjugate_over g (Mat.det g) in
  let gh_inv := Mat.adjugate_over (Mat.homogenize g) (Mat.det (Mat.homogenize g)) in
  let l_vec_eff := Vec.sub (MMat2Trans eff_jnt) (MMat2Trans root_jnt) in
  let l_vec_dir := Vec.sub (MMat2Trans root_jnt) (MMat2Trans dir_jnt) in
  FK2encoded g root_jnt dir_jnt eff_jnt chain_length
  = Ok (mkEncodedChain
          (MMat2Trans (Mat.mul root_jnt g_inv))
          (Vec.div (Mat.vmul l_vec_eff gh_inv) chain_length)
          (Vec.normal (Mat.vmul (Vec.cross (Vec.cross l_vec_dir l_vec_eff) l_vec_eff) g_inv))
          (quat_setValue (Mat.homogenize (Mat.mul eff_jnt g_inv)))).
Proof.
  intros A D. unfold FK2encoded.
  rewrite (inverse_ok g D). cbn [bind].
  rewrite (inverse_ok _ (det_homogenize_nonzero g A D)). cbn [bind].
  reflexivity.
Qed.

Lemma FK2encoded_singular (g root_jnt dir_jnt eff_jnt : MMatrix) (chain_length : R) :
  Mat.det g = 0 ->
  FK2encoded g root_jnt dir_jnt eff_jnt chain_length = Err SingularMatrix.
Proof.
  intros D. unfold FK2encoded. rewrite (inverse_singular g D). reflexivity.
Qed.

(** C6: on an invertible (affine) global frame, and for root, direction
    and effector joints that are not on one line, the pole vector that the
    chain encoder returns has length one (so within 1e-6 of one). *)
Theorem pole_vector_unit (g root_jnt dir_jnt eff_jnt : MMatrix) (chain_length : R) :
  Mat.affine g -> Mat.det g <> 0 ->
  ~ collinear (MMat2Trans root_jnt) (MMat2Trans dir_jnt) (MMat2Trans eff_jnt) ->
  exists c : EncodedChain,
    FK2encoded g root_jnt dir_jnt eff_jnt chain_length = Ok c
    /\ Vec.length (ik_upv c) = 1
    /\ Rabs (Vec.length (ik_upv c) - 1) <= / 1000000.
Proof.
  intros A D N. eexists. split; [apply FK2encoded_ok; assumption|].
  cbn [ik_upv].
  assert (L : forall v, v <> Vec.zero ->
              Vec.length (Vec.normal v) = 1
              /\ Rabs (Vec.length (Vec.normal v) - 1) <= / 1000000).
  { intros v V. rewrite (normal_length v V). split; [reflexivity|].
    replace (1 - 1) with 0 by ring. rewrite Rabs_R0. lra. }
  apply L. apply vmul_inverse_nonzero; try assumption.
  apply cross_cross_nonzero. exact N.
Qed.

(** ** Uniform scaling *)

Lemma length_scale (v : MVector) (c : R) :
  0 < c -> Vec.length (Vec.scale v c) = Vec.length v * c.
Proof.
  intros C. unfold Vec.length.
  replace (Vec.dot (Vec.scale v c) (Vec.scale v c)) with (Vec.dot v v * (c * c))
    by (destruct v; unfold_mat; ring).
  rewrite sqrt_mult_alt by (unfold Vec.dot; nra).
  rewrite sqrt_square by lra. reflexivity.
Qed.

Lemma normal_scale (v : MVector) (c : R) :
  0 < c -> Vec.normal (Vec.scale v c) = Vec.normal v.
Proof.
  intros C. unfold Vec.normal. rewrite length_scale by exact C.
  destruct (Req_dec (Vec.length v) 0) as [Z|N].
  - rewrite Z. apply length_zero_iff in Z. subst v.
    unfold_mat. apply mkV_ext; unfold Rdiv; ring.
  - destruct v as [x y z]. set (l := Vec.length (mkV x y z)) in *.
    unfold_mat. apply mkV_ext; field; split; lra.
Qed.

Lemma gram_step_scale (r e : MVector) (c : R) :
  Vec.sub (Vec.scale r c) (Vec.scale e (Vec.dot (Vec.scale r c) e))
  = Vec.scale (Vec.sub r (Vec.scale e (Vec.dot r e))) c.
Proof. destruct r, e. unfold_mat. apply mkV_ext; ring. Qed.

Lemma gram_step2_scale (r e0 e1 : MVector) (c : R) :
  Vec.sub (Vec.sub (Vec.scale r c) (Vec.scale e0 (Vec.dot (Vec.scale r c) e0)))
          (Vec.scale e1 (Vec.dot (Vec.scale r c) e1))
  = Vec.scale (Vec.sub (Vec.sub r (Vec.scale e0 (Vec.dot r e0)))
                       (Vec.scale e1 (Vec.dot r e1))) c.
Proof. destruct r, e0, e1. unfold_mat. apply mkV_ext; ring. Qed.

Lemma orthonormalize_scale (r0 r1 r2 : MVector) (c : R) :
  0 < c ->
  Mat.orthonormalize (Vec.scale r0 c) (Vec.scale r1 c) (Vec.scale r2 c)
  = Mat.orthonormalize r0 r1 r2.
Proof.
  intros C. unfold Mat.orthonormalize.
  rewrite (normal_scale r0 c C).
  rewrite gram_step_scale, normal_scale by exact C.
  rewrite gram_step2_scale, normal_scale by exact C.
  reflexivity.
Qed.

(** Homogenizing forgets a positive uniform scale of the rotation
    block. *)
Lemma homogenize_scale_block (m : MMatrix) (c : R) :
  0 < c -> Mat.homogenize (Mat.scale_block c m) = Mat.homogenize m.
Proof.
  intros C. unfold Mat.homogenize.
  change (Mat.row0 (Mat.scale_block c m)) with (Vec.scale (Mat.row0 m) c).
  change (Mat.row1 (Mat.scale_block c m)) with (Vec.scale (Mat.row1 m) c).
  change (Mat.row2 (Mat.scale_block c m)) with (Vec.scale (Mat.row2 m) c).
  rewrite orthonormalize_scale by exact C.
  reflexivity.
Qed.

Lemma homogenize_scale_translation (m : MMatrix) (k : R) :
  Mat.homogenize (Mat.scale_translation k m)
  = Mat.scale_translation k (Mat.homogenize m).
Proof.
  unfold Mat.homogenize.
  change (Mat.row0 (Mat.scale_translation k m)) with (Mat.row0 m).
  change (Mat.row1 (Mat.scale_translation k m)) with (Mat.row1 m).
  change (Mat.row2 (Mat.scale_translation k m)) with (Mat.row2 m).
  destruct (Mat.orthonormalize (Mat.row0 m) (Mat.row1 m) (Mat.row2 m)) as [[e0 e1] e2].
  reflexivity.
Qed.

Lemma homogenize_scale_frame (m : MMatrix) (k : R) :
  0 < k ->
  Mat.homogenize (Mat.scale_frame k m) = Mat.scale_translation k (Mat.homogenize m).
Proof.
  intros K. unfold Mat.scale_frame.
  rewrite homogenize_scale_translation, homogenize_scale_block by exact K.
  reflexivity.
Qed.

Lemma quat_setValue_scale_translation (m : MMatrix) (k : R) :
  quat_setValue (Mat.scale_translation k m) = quat_setValue m.
Proof. reflexivity. Qed.

(** ** Inverses under scaling *)

Lemma scale_translation_affine (m : MMatrix) (k : R) :
  Mat.affine m -> Mat.affine (Mat.scale_translation k m).
Proof. unfold Mat.affine. cbn. tauto. Qed.

Lemma scale_frame_affine (m : MMatrix) (k : R) :
  Mat.affine m -> Mat.affine (Mat.scale_frame k m).
Proof. unfold Mat.affine. cbn. tauto. Qed.

Lemma det_scale_translation (m : MMatrix) (k : R) :
  Mat.affine m -> Mat.det (Mat.scale_translation k m) = Mat.det m.
Proof. intros A. destruct_affine m A. unfold_mat. ring. Qed.

Lemma adjugate_scale_translation (m : MMatrix) (k d : R) :
  Mat.affine m ->
  Mat.adjugate_over (Mat.scale_translation k m) d
  = Mat.scale_translation k (Mat.adjugate_over m d).
Proof.
  intros A. destruct_affine m A. unfold_mat.
  apply mkM_ext; unfold Rdiv; ring.
Qed.

Lemma inverse_scale_translation (m : MMatrix) (k : R) :
  Mat.affine m ->
  Mat.inverse (Mat.scale_translation k m)
  = (mi <- Mat.inverse m ;; Ok (Mat.scale_translation k mi)).
Proof.
  intros A. unfold Mat.inverse.
  rewrite det_scale_translation by exact A.
  destruct (Req_dec_T (Mat.det m) 0); cbn [bind]; [reflexivity|].
  rewrite adjugate_scale_translation by exact A. reflexivity.
Qed.

Lemma det_scale_frame (m : MMatrix) (k : R) :
  Mat.affine m -> Mat.det (Mat.scale_frame k m) = k * k * k * Mat.det m.
Proof. intros A. destruct_affine m A. unfold_mat. ring. Qed.

Lemma adjugate_scale_frame (m : MMatrix) (k : R) :
  Mat.affine m -> k <> 0 -> Mat.det m <> 0 ->
  Mat.adjugate_over (Mat.scale_frame k m) (Mat.det (Mat.scale_frame k m))
  = Mat.scale_block (/ k) (Mat.adjugate_over m (Mat.det m)).
Proof.
  intros A K D.
  assert (D' : Mat.det (Mat.scale_frame k m) <> 0).
  { rewrite det_scale_frame by exact A.
    repeat apply Rmult_integral_contrapositive_currified; assumption. }
  destruct_affine m A. unfold_mat. unfold_mat_in D. unfold_mat_in D'.
  apply mkM_ext; field; repeat split;
    first [exact K | nonzero_by D | nonzero_by D'].
Qed.

(** ** The chain encoder under a change of size *)

Lemma trans_mul_scaled (root gi : MMatrix) (k : R) :
  k <> 0 ->
  MMat2Trans (Mat.mul (Mat.scale_translation k root) (Mat.scale_block (/ k) gi))
  = MMat2Trans (Mat.mul root gi).
Proof.
  intros K. destruct root, gi. unfold_mat. apply mkV_ext; field; exact K.
Qed.

Lemma div_zero (v : MVector) : Vec.div v 0 = Vec.zero.
Proof.
  destruct v. unfold_mat. unfold Rdiv. rewrite Rinv_0.
  apply mkV_ext; ring.
Qed.

Lemma eff_scaled (root eff hi : MMatrix) (k len : R) :
  k <> 0 ->
  Vec.div (Mat.vmul (Vec.sub (MMat2Trans (Mat.scale_translation k eff))
                             (MMat2Trans (Mat.scale_translation k root)))
                    (Mat.scale_translation k hi)) (k * len)
  = Vec.div (Mat.vmul (Vec.sub (MMat2Trans eff) (MMat2Trans root)) hi) len.
Proof.
  intros K. destruct (Req_dec len 0) as [Z|N].
  - subst len. rewrite Rmult_0_r, !div_zero. reflexivity.
  - destruct root, eff, hi. unfold_mat. apply mkV_ext; field; split; assumption.
Qed.

Lemma upv_scaled (root dir eff gi : MMatrix) (k : R) :
  k <> 0 ->
  Mat.vmul
    (Vec.cross
       (Vec.cross (Vec.sub (MMat2Trans (Mat.scale_translation k root))
                           (MMat2Trans (Mat.scale_translation k dir)))
                  (Vec.sub (MMat2Trans (Mat.scale_translation k eff))
                           (MMat2Trans (Mat.scale_translation k root))))
       (Vec.sub (MMat2Trans (Mat.scale_translation k eff))
                (MMat2Trans (Mat.scale_translation k root))))
    (Mat.scale_block (/ k) gi)
  = Vec.scale
      (Mat.vmul
         (Vec.cross
            (Vec.cross (Vec.sub (MMat2Trans root) (MMat2Trans dir))
                       (Vec.sub (MMat2Trans eff) (MMat2Trans root)))
            (Vec.sub (MMat2Trans eff) (MMat2Trans root)))
         gi)
      (k * k).
Proof.
  intros K. destruct root, dir, eff, gi. unfold_mat. apply mkV_ext; field; exact K.
Qed.

Lemma affine_linear_rows (m : MMatrix) : Mat.affine m -> linear_rows m.
Proof. unfold Mat.affine, linear_rows. tauto. Qed.

Lemma mul_scaled_eff (eff gi : MMatrix) (k : R) :
  k <> 0 -> linear_rows eff -> Mat.affine gi ->
  Mat.mul (Mat.scale_translation k eff) (Mat.scale_block (/ k) gi)
  = Mat.scale_block (/ k) (Mat.mul eff gi).
Proof.
  intros K L A. destruct_affine gi A.
  destruct eff. unfold linear_rows in L. cbn [m03 m13 m23] in L.
  destruct L as (? & ? & ?). subst.
  unfold_mat. apply mkM_ext; field; exact K.
Qed.

Lemma FK2encoded_scaled (g root_jnt dir_jnt eff_jnt : MMatrix) (chain_length k : R) :
  0 < k -> Mat.affine g -> linear_rows eff_jnt ->
  FK2encoded (Mat.scale_frame k g)
             (Mat.scale_translation k root_jnt)
             (Mat.scale_translation k dir_jnt)
             (Mat.scale_translation k eff_jnt)
             (k * chain_length)
  = FK2encoded g root_jnt dir_jnt eff_jnt chain_length.
Proof.
  intros K A L.
  assert (K0 : k <> 0) by lra.
  destruct (Req_dec (Mat.det g) 0) as [Z|D].
  - rewrite !FK2encoded_singular; [reflexivity|exact Z|].
    rewrite det_scale_frame, Z by exact A. ring.
  - assert (D' : Mat.det (Mat.scale_frame k g) <> 0).
    { rewrite det_scale_frame by exact A.
      repeat apply Rmult_integral_contrapositive_currified; assumption. }
    rewrite (FK2encoded_ok g) by assumption.
    rewrite (FK2encoded_ok (Mat.scale_frame k g))
      by (try apply scale_frame_affine; assumption).
    cbv zeta.
    rewrite adjugate_scale_frame by assumption.
    rewrite trans_mul_scaled by exact K0.
    rewrite homogenize_scale_frame by exact K.
    rewrite det_scale_translation by (apply homogenize_affine; exact A).
    rewrite adjugate_scale_translation by (apply homogenize_affine; exact A).
    rewrite eff_scaled by exact K0.
    rewrite upv_scaled by exact K0.
    rewrite normal_scale by nra.
    rewrite mul_scaled_eff
      by (try apply adjugate_affine; assumption).
    rewrite homogenize_scale_block by (apply Rinv_0_lt_compat; exact K).
    reflexivity.
Qed.

(** ** The frame builder under a change of size *)

Lemma vmul_delta_scaled (v : MVector) (ri hips : MMatrix) (k : R) :
  Mat.affine ri ->
  Mat.vmul v (Mat.mul (Mat.scale_translation k ri) (Mat.scale_translation k hips))
  = Mat.vmul v (Mat.mul ri hips).
Proof.
  intros A. destruct_affine ri A. destruct v, hips.
  unfold_mat. apply mkV_ext; ring.
Qed.

Lemma frame_builder_affine (rest hips : MMatrix) (h : R) (fr : GlobalFrame) :
  frame_builder rest hips h = Ok fr -> Mat.affine (g_mat fr).
Proof.
  unfold frame_builder. destruct (Mat.inverse rest); cbn [bind]; [|discriminate].
  intros E. inversion E. unfold Mat.affine. cbn. repeat split; reflexivity.
Qed.

Lemma frame_builder_translation (rest hips : MMatrix) (h : R) (fr : GlobalFrame) :
  frame_builder rest hips h = Ok fr ->
  g_tr_x fr = m30 hips /\ g_tr_y fr = h /\ g_tr_z fr = m32 hips.
Proof.
  unfold frame_builder. destruct (Mat.inverse rest); cbn [bind]; [|discriminate].
  intros E. inversion E. cbn. repeat split; reflexivity.
Qed.

Lemma frame_builder_scaled (rest hips : MMatrix) (h k : R) :
  0 < k -> Mat.affine rest ->
  frame_builder (Mat.scale_translation k rest) (Mat.scale_translation k hips) (k * h)
  = map_result (scale_global k) (frame_builder rest hips h).
Proof.
  intros K A. unfold frame_builder.
  rewrite inverse_scale_translation by exact A.
  destruct (Req_dec (Mat.det rest) 0) as [Z|D].
  - rewrite (inverse_singular rest Z). reflexivity.
  - rewrite (inverse_ok rest D). cbn [bind].
    rewrite vmul_delta_scaled by (apply adjugate_affine; assumption).
    cbv zeta. unfold map_result, scale_global.
    cbn [g_tr_x g_tr_y g_tr_z g_mat g_ori].
    set (z := Vec.normal (mkV _ 0 _)).
    match goal with
    | |- Ok (mkGlobalFrame _ _ _ ?G' _)
         = Ok (mkGlobalFrame _ _ _ (Mat.scale_frame k ?G) _) =>
        assert (EG : G' = Mat.scale_frame k G)
          by (unfold_mat; apply mkM_ext; ring);
        rewrite EG
    end.
    rewrite homogenize_scale_frame by exact K.
    rewrite quat_setValue_scale_translation.
    reflexivity.
Qed.

Lemma with_translation_of_scaled (g src : MMatrix) (k : R) :
  with_translation_of (Mat.scale_frame k g) (Mat.scale_translation k src)
  = Mat.scale_frame k (with_translation_of g src).
Proof. reflexivity. Qed.

Lemma with_translation_of_affine (g src : MMatrix) :
  Mat.affine g -> Mat.affine (with_translation_of g src).
Proof. unfold Mat.affine. cbn. tauto. Qed.

Lemma joints_affine_all (j : Joints) :
  joints_affine j ->
  Mat.affine (mat_hips_rest j)
  /\ linear_rows (mat_neck j) /\ linear_rows (mat_head j)
  /\ linear_rows (mat_foot_L j) /\ linear_rows (mat_foot_R j)
  /\ linear_rows (mat_hand_L j) /\ linear_rows (mat_hand_R j).
Proof.
  unfold joints_affine, joint_list. intros F.
  repeat match goal with
  | H : Forall _ (_ :: _) |- _ => inversion H; clear H; subst
  end.
  split; [assumption|].
  repeat (split; [apply affine_linear_rows; assumption|]).
  apply affine_linear_rows; assumption.
Qed.

Lemma encode_components_scaled (s : Scales) (j : Joints) (k : R) :
  0 < k -> joints_affine j ->
  encode_components (scale_scales k s) (scale_joints k j)
  = map_result (scale_components k) (encode_components s j).
Proof.
  intros K J.
  destruct (joints_affine_all j J) as (Ar & Ln & Lh & Lfl & Lfr & Lhl & Lhr).
  unfold encode_components.
  cbn [scale_scales scale_joints height_hips length_spine length_neck
       length_leg_L length_leg_R length_arm_L length_arm_R
       mat_hips_rest mat_hips mat_spine mat_neck mat_neck_mid mat_head
       mat_leg_L mat_shin_L mat_foot_L mat_shoulder_L mat_elbow_L mat_hand_L
       mat_leg_R mat_shin_R mat_foot_R mat_shoulder_R mat_elbow_R mat_hand_R].
  rewrite frame_builder_scaled by assumption.
  destruct (frame_builder (mat_hips_rest j) (mat_hips j) (height_hips s))
    as [fr|e] eqn:F; cbn [bind map_result]; [|reflexivity].
  pose proof (frame_builder_affine _ _ _ _ F) as Ag.
  cbv zeta. cbn [scale_global g_mat].
  rewrite !with_translation_of_scaled.
  rewrite !FK2encoded_scaled
    by (try apply with_translation_of_affine; assumption).
  repeat match goal with
  | |- context [bind (FK2encoded ?a ?b ?c ?d ?e) _] =>
      destruct (FK2encoded a b c d e); cbn [bind map_result]; [|reflexivity]
  end.
  reflexivity.
Qed.

Lemma layout_scaled (k : R) (c : EncodedComponents) :
  EncodedPose_layout (scale_components k c) = scale_header k (EncodedPose_layout c).
Proof. reflexivity. Qed.

(** C7, as the code has it: when [height_hips], the six chain lengths
    and every joint translation are multiplied by [k > 0] (joint matrices
    affine, rotations unchanged), the encoder fails exactly when it failed
    before and otherwise returns the same encoded pose except for its first
    two values, the global translation x and z, which are multiplied by
    [k]: every root, effector, pole-vector and orientation value is
    unchanged. *)
Theorem scale_invariance (k : R) (s : Scales) (j : Joints) :
  0 < k -> joints_affine j ->
  ikrig_encode_compute (scale_scales k s) (scale_joints k j)
  = map_result (scale_header k) (ikrig_encode_compute s j).
Proof.
  intros K J. unfold ikrig_encode_compute.
  rewrite encode_components_scaled by assumption.
  destruct (encode_components s j) as [c|e]; cbn [bind map_result]; [|reflexivity].
  rewrite !pose_packer_components. cbn [map_result].
  rewrite layout_scaled. reflexivity.
Qed.

(** ** Upright poses are encoded *)

Lemma det_upright (h a b c : R) :
  Mat.det (mkM h 0 0 0  0 h 0 0  0 0 h 0  a b c 1) = h * h * h.
Proof. unfold_mat. ring. Qed.

Lemma FK2encoded_upright_ok (h a b c : R) (src root_jnt dir_jnt eff_jnt : MMatrix) (len : R) :
  0 < h ->
  exists ch,
    FK2encoded (with_translation_of (mkM h 0 0 0  0 h 0 0  0 0 h 0  a b c 1) src)
               root_jnt dir_jnt eff_jnt len = Ok ch.
Proof.
  intros H. eexists. apply FK2encoded_ok.
  - unfold Mat.affine. cbn. repeat split; reflexivity.
  - unfold with_translation_of, Mat.set12, Mat.set13, Mat.set14.
    cbn [m00 m01 m02 m03 m10 m11 m12 m13 m20 m21 m22 m23 m30 m31 m32 m33].
    rewrite det_upright.
    assert (0 < h * h * h) by (repeat apply Rmult_lt_0_compat; exact H).
    lra.
Qed.

Lemma encode_components_upright_ok (s : Scales) (j : Joints) :
  0 < height_hips s -> upright j -> exists c, encode_components s j = Ok c.
Proof.
  intros H [[r Er] [t Et]]. unfold encode_components.
  destruct j. cbn [mat_hips_rest mat_hips] in Er, Et. subst.
  cbn [mat_hips_rest mat_hips mat_spine mat_neck mat_neck_mid mat_head
       mat_leg_L mat_shin_L mat_foot_L mat_shoulder_L mat_elbow_L mat_hand_L
       mat_leg_R mat_shin_R mat_foot_R mat_shoulder_R mat_elbow_R mat_hand_R].
  rewrite frame_builder_upright by exact H.
  cbn [bind g_mat].
  match goal with
  | |- context [bind (FK2encoded ?g ?b ?c ?d ?e) _] =>
      let ch := fresh "ch" in
      let E := fresh "E" in
      destruct (FK2encoded_upright_ok (height_hips s) (vx t) (height_hips s) (vz t)
                  g b c d e H) as [ch E];
      change (FK2encoded g b c d e = Ok ch) in E;
      rewrite E; cbn [bind]
  end.
  repeat match goal with
  | |- context [bind (FK2encoded (with_translation_of ?g ?x) ?b ?c ?d ?e) _] =>
      let ch := fresh "ch" in
      let E := fresh "E" in
      destruct (FK2encoded_upright_ok (height_hips s) (vx t) (height_hips s) (vz t)
                  x b c d e H) as [ch E];
      rewrite E; cbn [bind]
  end.
  eexists. reflexivity.
Qed.

Lemma sample_pose_upright : upright sample_pose.
Proof.
  split.
  - exists (mkV 0 0 0). reflexivity.
  - exists (mkV 1 1 0). reflexivity.
Qed.

Lemma scaled_sample_pose_upright (k : R) : upright (scale_joints k sample_pose).
Proof.
  split.
  - exists (mkV (k * 0) (k * 0) (k * 0)). reflexivity.
  - exists (mkV (k * 1) (k * 1) (k * 0)). reflexivity.
Qed.

Lemma sample_pose_affine : joints_affine sample_pose.
Proof.
  unfold joints_affine, joint_list, sample_pose, at_point.
  cbn [mat_hips_rest mat_hips mat_spine mat_neck mat_neck_mid mat_head
       mat_leg_L mat_shin_L mat_foot_L mat_shoulder_L mat_elbow_L mat_hand_L
       mat_leg_R mat_shin_R mat_foot_R mat_shoulder_R mat_elbow_R mat_hand_R].
  repeat constructor.
Qed.

Lemma encode_components_frame (s : Scales) (j : Joints) (c : EncodedComponents) :
  encode_components s j = Ok c ->
  frame_builder (mat_hips_rest j) (mat_hips j) (height_hips s) = Ok (enc_frame c).
Proof.
  unfold encode_components.
  destruct (frame_builder (mat_hips_rest j) (mat_hips j) (height_hips s))
    as [fr|e]; cbn [bind]; [|discriminate].
  repeat match goal with
  | |- context [bind (FK2encoded ?a ?b ?c ?d ?e) _] =>
      destruct (FK2encoded a b c d e); cbn [bind]; [|discriminate]
  end.
  intros E. inversion E. reflexivity.
Qed.

(** ** The frames of the six chains *)

Lemma with_translation_of_takes (g src : MMatrix) :
  takes_translation (with_translation_of g src) g src.
Proof.
  intros i H.
  do 16 (destruct i as [|i]; [reflexivity|]).
  exfalso. lia.
Qed.

Lemma encode_components_chains (s : Scales) (j : Joints) (c : EncodedComponents) :
  encode_components s j = Ok c ->
  let g := g_mat (enc_frame c) in
  enc_lower_body_mat c = with_translation_of g (mat_hips j)
  /\ enc_upper_body_mat c = with_translation_of g (mat_neck j)
  /\ FK2encoded g (mat_hips j) (mat_spine j) (mat_neck j) (length_spine s)
     = Ok (enc_spine c)
  /\ FK2encoded (enc_lower_body_mat c) (mat_leg_L j) (mat_shin_L j) (mat_foot_L j)
       (length_leg_L s) = Ok (enc_leg_L c)
  /\ FK2encoded (enc_lower_body_mat c) (mat_leg_R j) (mat_shin_R j) (mat_foot_R j)
       (length_leg_R s) = Ok (enc_leg_R c)
  /\ FK2encoded (enc_upper_body_mat c) (mat_shoulder_L j) (mat_elbow_L j) (mat_hand_L j)
       (length_arm_L s) = Ok (enc_arm_L c)
  /\ FK2encoded (enc_upper_body_mat c) (mat_shoulder_R j) (mat_elbow_R j) (mat_hand_R j)
       (length_arm_R s) = Ok (enc_arm_R c)
  /\ FK2encoded (enc_upper_body_mat c) (mat_neck j) (mat_neck_mid j) (mat_head j)
       (length_neck s) = Ok (enc_neck c).
Proof.
  unfold encode_components.
  destruct (frame_builder (mat_hips_rest j) (mat_hips j) (height_hips s))
    as [fr|e]; cbn [bind]; [|discriminate].
  repeat match goal with
  | |- context [bind (FK2encoded ?a ?b ?c ?d ?e) _] =>
      destruct (FK2encoded a b c d e) eqn:?E; cbn [bind]; [|discriminate]
  end.
  intros Ec. inversion Ec. subst c. cbn. repeat split; assumption.
Qed.

(** C10: the Spine chain is encoded against [g_mat]; the two Leg chains
    against a copy of [g_mat] whose elements 12, 13 and 14 are those of the
    hips matrix; the two Arm chains and the Neck chain against a copy of
    [g_mat] whose elements 12, 13 and 14 are those of the neck matrix. *)
Theorem per_chain_frames (s : Scales) (j : Joints) (c : EncodedComponents) :
  encode_components s j = Ok c ->
  FK2encoded (g_mat (enc_frame c)) (mat_hips j) (mat_spine j) (mat_neck j)
    (length_spine s) = Ok (enc_spine c)
  /\ (exists lower_body_mat,
        takes_translation lower_body_mat (g_mat (enc_frame c)) (mat_hips j)
        /\ FK2encoded lower_body_mat (mat_leg_L j) (mat_shin_L j) (mat_foot_L j)
             (length_leg_L s) = Ok (enc_leg_L c)
        /\ FK2encoded lower_body_mat (mat_leg_R j) (mat_shin_R j) (mat_foot_R j)
             (length_leg_R s) = Ok (enc_leg_R c))
  /\ (exists upper_body_mat,
        takes_translation upper_body_mat (g_mat (enc_frame c)) (mat_neck j)
        /\ FK2encoded upper_body_mat (mat_shoulder_L j) (mat_elbow_L j) (mat_hand_L j)
             (length_arm_L s) = Ok (enc_arm_L c)
        /\ FK2encoded upper_body_mat (mat_shoulder_R j) (mat_elbow_R j) (mat_hand_R j)
             (length_arm_R s) = Ok (enc_arm_R c)
        /\ FK2encoded upper_body_mat (mat_neck j) (mat_neck_mid j) (mat_head j)
             (length_neck s) = Ok (enc_neck c)).
Proof.
  intros E.
  destruct (encode_components_chains s j c E)
    as (El & Eu & Hs & Hll & Hlr & Hal & Har & Hn).
  split; [exact Hs|]. split.
  - exists (enc_lower_body_mat c). split; [|split; assumption].
    rewrite El. apply with_translation_of_takes.
  - exists (enc_upper_body_mat c). split; [|repeat split; assumption].
    rewrite Eu. apply with_translation_of_takes.
Qed.

(** ** Claims on whole poses *)

Lemma upright_pose_encoded (s : Scales) (j : Joints) :
  0 < height_hips s -> upright j ->
  exists c,
    encode_components s j = Ok c
    /\ ikrig_encode_compute s j = Ok (EncodedPose_layout c)
    /\ g_tr_x (enc_frame c) = m30 (mat_hips j).
Proof.
  intros H U.
  destruct (encode_components_upright_ok s j H U) as [c E].
  exists c. split; [exact E|]. split.
  - unfold ikrig_encode_compute. rewrite E. cbn [bind].
    apply pose_packer_components.
  - apply encode_components_frame in E.
    apply frame_builder_translation in E. destruct E as [E _].
    exact E.
Qed.

Lemma unit_height_positive : 0 < height_hips unit_scales.
Proof. cbn. lra. Qed.

Lemma double_height_positive : 0 < height_hips (scale_height 2 unit_scales).
Proof. cbn. lra. Qed.

Lemma scale_invariance_witness :
  ikrig_encode_compute (scale_scales 2 unit_scales) (scale_joints 2 sample_pose)
  = map_result (scale_header 2) (ikrig_encode_compute unit_scales sample_pose).
Proof.
  apply (scale_invariance 2 unit_scales sample_pose).
  - lra.
  - apply sample_pose_affine.
Defined.

Lemma vmul_upright_inverse (v : MVector) (x y z : R) :
  Mat.vmul v (Mat.adjugate_over (mkM 1 0 0 0  0 1 0 0  0 0 1 0  x y z 1)
                (Mat.det (mkM 1 0 0 0  0 1 0 0  0 0 1 0  x y z 1)))
  = v.
Proof. destruct v. unfold_mat. apply mkV_ext; field. Qed.

Lemma upright_chain_eff (h a b c : R) (root_jnt dir_jnt eff_jnt : MMatrix) (len : R)
    (ch : EncodedChain) :
  0 < h ->
  FK2encoded (mkM h 0 0 0  0 h 0 0  0 0 h 0  a b c 1) root_jnt dir_jnt eff_jnt len
  = Ok ch ->
  ik_eff ch = Vec.div (Vec.sub (MMat2Trans eff_jnt) (MMat2Trans root_jnt)) len.
Proof.
  intros H E.
  rewrite FK2encoded_ok in E.
  - cbv zeta in E.
    rewrite homogenize_upright in E by exact H.
    rewrite vmul_upright_inverse in E.
    pose proof (f_equal (fun r => match r with
                                  | Ok x => ik_eff x
                                  | Err _ => Vec.zero
                                  end) E) as X.
    cbn [ik_eff] in X. symmetry. exact X.
  - unfold Mat.affine. cbn. repeat split; reflexivity.
  - rewrite det_upright.
    assert (0 < h * h * h) by (repeat apply Rmult_lt_0_compat; exact H).
    lra.
Qed.

Lemma upright_spine_eff (s : Scales) (j : Joints) (c : EncodedComponents)
    (r t : MVector) :
  0 < height_hips s ->
  mat_hips_rest j = Mat.translation r -> mat_hips j = Mat.translation t ->
  encode_components s j = Ok c ->
  ik_eff (enc_spine c)
  = Vec.div (Vec.sub (MMat2Trans (mat_neck j)) (MMat2Trans (mat_hips j)))
            (length_spine s).
Proof.
  intros H Er Et E.
  pose proof (encode_components_frame s j c E) as F.
  rewrite Er, Et, frame_builder_upright in F by exact H.
  destruct (encode_components_chains s j c E) as (_ & _ & Hs & _).
  assert (G : g_mat (enc_frame c)
              = mkM (height_hips s) 0 0 0  0 (height_hips s) 0 0
                    0 0 (height_hips s) 0  (vx t) (height_hips s) (vz t) 1).
  { pose proof (f_equal (fun x => match x with
                                  | Ok fr => g_mat fr
                                  | Err _ => Mat.identity
                                  end) F) as X.
    cbn [g_mat] in X. symmetry. exact X. }
  rewrite G in Hs.
  apply (upright_chain_eff _ _ _ _ _ _ _ _ _ H Hs).
Qed.

(** C7, as stated, fails: with [height_hips] and the joint translations
    doubled, the first value of the encoded pose (the global translation
    x) goes from 1 to 2 and the Y component of the Spine effector (value
    10) from 2 to 4, so the two encodings are not within any tolerance
    below one of each other. *)
Lemma scale_changes_translation :
  exists out out' : list R,
    ikrig_encode_compute unit_scales sample_pose = Ok out
    /\ ikrig_encode_compute (scale_height 2 unit_scales) (scale_joints 2 sample_pose)
       = Ok out'
    /\ nth 0 out' 0 - nth 0 out 0 = 1
    /\ nth 10 out' 0 - nth 10 out 0 = 2
    /\ forall tol : R, tol < 1 -> ~ close_to tol out' out.
Proof.
  destruct (upright_pose_encoded unit_scales sample_pose
              unit_height_positive sample_pose_upright) as (c & Ec & E & X).
  destruct (upright_pose_encoded (scale_height 2 unit_scales)
              (scale_joints 2 sample_pose)
              double_height_positive (scaled_sample_pose_upright 2))
    as (c' & Ec' & E' & X').
  exists (EncodedPose_layout c), (EncodedPose_layout c').
  assert (D : nth 0 (EncodedPose_layout c') 0 - nth 0 (EncodedPose_layout c) 0 = 1).
  { change (g_tr_x (enc_frame c') - g_tr_x (enc_frame c) = 1).
    rewrite X, X'. cbn. ring. }
  assert (D10 : nth 10 (EncodedPose_layout c') 0 - nth 10 (EncodedPose_layout c) 0 = 2).
  { change (vy (ik_eff (enc_spine c')) - vy (ik_eff (enc_spine c)) = 2).
    rewrite (upright_spine_eff unit_scales sample_pose c (mkV 0 0 0) (mkV 1 1 0)
               unit_height_positive eq_refl eq_refl Ec).
    rewrite (upright_spine_eff (scale_height 2 unit_scales) (scale_joints 2 sample_pose)
               c' (mkV (2 * 0) (2 * 0) (2 * 0)) (mkV (2 * 1) (2 * 1) (2 * 0))
               double_height_positive eq_refl eq_refl Ec').
    cbn. field. }
  repeat split; try assumption.
  intros tol T [_ C].
  specialize (C 0%nat). rewrite D in C.
  rewrite EncodedPose_layout_length in C.
  rewrite Rabs_R1 in C. specialize (C ltac:(lia)). lra.
Qed.

(** ** Round trip at identity scale *)

Lemma layout_decoded (c : EncodedComponents) :
  let pose := decoded_pose (EncodedPose_layout c) unit_scales in
  ik_chain_root (ik_Spine pose)
  = mkV (vx (ik_root (enc_spine c))) (vy (ik_root (enc_spine c)) + 1)
        (vz (ik_root (enc_spine c)))
  /\ same_offsets (ik_Spine pose) (enc_spine c)
  /\ (same_root (ik_Neck pose) (enc_neck c)
      /\ same_offsets (ik_Neck pose) (enc_neck c))
  /\ (same_root (ik_Leg_L pose) (enc_leg_L c)
      /\ same_offsets (ik_Leg_L pose) (enc_leg_L c))
  /\ (same_root (ik_Leg_R pose) (enc_leg_R c)
      /\ same_offsets (ik_Leg_R pose) (enc_leg_R c))
  /\ (same_root (ik_Arm_L pose) (enc_arm_L c)
      /\ same_offsets (ik_Arm_L pose) (enc_arm_L c))
  /\ (same_root (ik_Arm_R pose) (enc_arm_R c)
      /\ same_offsets (ik_Arm_R pose) (enc_arm_R c)).
Proof.
  destruct c as [fr lo up sp ne ll lr al ar].
  destruct sp as [[] [] [] ?], ne as [[] [] [] ?], ll as [[] [] [] ?],
           lr as [[] [] [] ?], al as [[] [] [] ?], ar as [[] [] [] ?].
  unfold same_root, same_offsets, decoded_pose, decoded_block, unit_scales,
    add_to_root_y, Vec.scale.
  cbn [ik_Spine ik_Neck ik_Leg_L ik_Leg_R ik_Arm_L ik_Arm_R
       ik_chain_root ik_chain_eff ik_chain_upv
       height_hips length_spine length_neck length_leg_L length_leg_R
       length_arm_L length_arm_R
       enc_spine enc_neck enc_leg_L enc_leg_R enc_arm_L enc_arm_R
       ik_root ik_eff ik_upv vx vy vz].
  unfold EncodedPose_layout, chain_block, Vec.to_list, Quat.to_list, slice.
  cbn [app skipn firstn nth Nat.sub
       enc_spine enc_neck enc_leg_L enc_leg_R enc_arm_L enc_arm_R
       ik_root ik_eff ik_upv ik_eff_rot vx vy vz].
  repeat split; apply mkV_ext; ring.
Qed.

(** C3, as the code has it: after encoding with [height_hips = 1] and all
    chain lengths 1 and decoding with the same scales (any offset matrix),
    every chain's decoded effector and pole vector are the encoder's
    intermediate outputs, and so is the decoded root of the Neck, the Legs
    and the Arms; the decoded root of the Spine is the encoder's spine root
    with [height_hips = 1] added to its Y component. *)
Theorem round_trip_identity_scale (j : Joints) (offset_mat : MMatrix)
    (c : EncodedComponents) :
  encode_components unit_scales j = Ok c ->
  exists (out : list R) (g : MMatrix) (pose : DecodedPose),
    ikrig_encode_compute unit_scales j = Ok out
    /\ ikrig_decode_compute out offset_mat unit_scales
       = (mkDatablock (Some g) (Some pose), Ok tt)
    /\ ik_chain_root (ik_Spine pose)
       = mkV (vx (ik_root (enc_spine c))) (vy (ik_root (enc_spine c)) + 1)
             (vz (ik_root (enc_spine c)))
    /\ same_offsets (ik_Spine pose) (enc_spine c)
    /\ (same_root (ik_Neck pose) (enc_neck c)
        /\ same_offsets (ik_Neck pose) (enc_neck c))
    /\ (same_root (ik_Leg_L pose) (enc_leg_L c)
        /\ same_offsets (ik_Leg_L pose) (enc_leg_L c))
    /\ (same_root (ik_Leg_R pose) (enc_leg_R c)
        /\ same_offsets (ik_Leg_R pose) (enc_leg_R c))
    /\ (same_root (ik_Arm_L pose) (enc_arm_L c)
        /\ same_offsets (ik_Arm_L pose) (enc_arm_L c))
    /\ (same_root (ik_Arm_R pose) (enc_arm_R c)
        /\ same_offsets (ik_Arm_R pose) (enc_arm_R c)).
Proof.
  intros E.
  destruct (ikrig_decode_compute_ok (EncodedPose_layout c) offset_mat unit_scales)
    as [g [_ Hc]]; [rewrite EncodedPose_layout_length; lia|].
  exists (EncodedPose_layout c), g,
    (decoded_pose (EncodedPose_layout c) unit_scales).
  split.
  - unfold ikrig_encode_compute. rewrite E. cbn [bind].
    apply pose_packer_components.
  - split; [exact Hc|]. apply layout_decoded.
Qed.

Lemma round_trip_identity_scale_witness :
  exists c : EncodedComponents,
    encode_components unit_scales sample_pose = Ok c
    /\ exists (out : list R) (g : MMatrix) (pose : DecodedPose),
         ikrig_encode_compute unit_scales sample_pose = Ok out
         /\ ikrig_decode_compute out Mat.identity unit_scales
            = (mkDatablock (Some g) (Some pose), Ok tt)
         /\ ik_chain_root (ik_Spine pose)
            = mkV (vx (ik_root (enc_spine c))) (vy (ik_root (enc_spine c)) + 1)
                  (vz (ik_root (enc_spine c)))
         /\ same_offsets (ik_Spine pose) (enc_spine c)
         /\ (same_root (ik_Neck pose) (enc_neck c)
             /\ same_offsets (ik_Neck pose) (enc_neck c))
         /\ (same_root (ik_Leg_L pose) (enc_leg_L c)
             /\ same_offsets (ik_Leg_L pose) (enc_leg_L c))
         /\ (same_root (ik_Leg_R pose) (enc_leg_R c)
             /\ same_offsets (ik_Leg_R pose) (enc_leg_R c))
         /\ (same_root (ik_Arm_L pose) (enc_arm_L c)
             /\ same_offsets (ik_Arm_L pose) (enc_arm_L c))
         /\ (same_root (ik_Arm_R pose) (enc_arm_R c)
             /\ same_offsets (ik_Arm_R pose) (enc_arm_R c)).
Proof.
  destruct (upright_pose_encoded unit_scales sample_pose
              unit_height_positive sample_pose_upright) as (c & E & _).
  exists c. split; [exact E|].
  apply (round_trip_identity_scale sample_pose Mat.identity c E).
Defined.

(** C3, as stated, fails for the Spine chain: on the sample pose the
    decoded spine root is one unit (the value of [height_hips]) above the
    encoder's spine root, far outside the tolerance 1e-5. *)
Lemma spine_root_not_round_trip :
  exists (c : EncodedComponents) (out : list R) (g : MMatrix) (pose : DecodedPose),
    encode_components unit_scales sample_pose = Ok c
    /\ ikrig_encode_compute unit_scales sample_pose = Ok out
    /\ ikrig_decode_compute out Mat.identity unit_scales
       = (mkDatablock (Some g) (Some pose), Ok tt)
    /\ vy (ik_chain_root (ik_Spine pose)) - vy (ik_root (enc_spine c)) = 1
    /\ ~ chain_round_trip (/ 100000) (ik_Spine pose) (enc_spine c).
Proof.
  destruct (upright_pose_encoded unit_scales sample_pose
              unit_height_positive sample_pose_upright) as (c & E & P & _).
  destruct (ikrig_decode_compute_ok (EncodedPose_layout c) Mat.identity unit_scales)
    as [g [_ Hc]]; [rewrite EncodedPose_layout_length; lia|].
  exists c, (EncodedPose_layout c), g,
    (decoded_pose (EncodedPose_layout c) unit_scales).
  destruct (layout_decoded c) as [R _]. cbv zeta in R.
  assert (D : vy (ik_chain_root (ik_Spine (decoded_pose (EncodedPose_layout c) unit_scales)))
              - vy (ik_root (enc_spine c)) = 1).
  { rewrite R. cbn [vy]. ring. }
  repeat split; try assumption.
  intros [[_ [Y _]] _]. rewrite D, Rabs_R1 in Y. lra.
Qed.

(** ** Witnesses on single chains *)

Lemma identity_affine : Mat.affine Mat.identity.
Proof. unfold Mat.affine. cbn. repeat split; reflexivity. Qed.

Lemma det_identity : Mat.det Mat.identity = 1.
Proof. unfold_mat. ring. Qed.

Lemma det_identity_nonzero : Mat.det Mat.identity <> 0.
Proof. rewrite det_identity. lra. Qed.

Lemma pole_vector_unit_witness :
  exists c : EncodedChain,
    FK2encoded Mat.identity (at_point 0 0 0) (at_point 1 1 0) (at_point 0 2 0) 2 = Ok c
    /\ Vec.length (ik_upv c) = 1
    /\ Rabs (Vec.length (ik_upv c) - 1) <= / 1000000.
Proof.
  apply (pole_vector_unit Mat.identity (at_point 0 0 0) (at_point 1 1 0)
           (at_point 0 2 0) 2).
  - apply identity_affine.
  - apply det_identity_nonzero.
  - unfold collinear, at_point. unfold_mat. intros E. inversion E. lra.
Defined.

Lemma per_chain_frames_witness :
  exists c : EncodedComponents,
    encode_components unit_scales sample_pose = Ok c
    /\ FK2encoded (g_mat (enc_frame c)) (mat_hips sample_pose) (mat_spine sample_pose)
         (mat_neck sample_pose) 1 = Ok (enc_spine c)
    /\ (exists lower_body_mat,
          takes_translation lower_body_mat (g_mat (enc_frame c)) (mat_hips sample_pose)
          /\ FK2encoded lower_body_mat (mat_leg_L sample_pose) (mat_shin_L sample_pose)
               (mat_foot_L sample_pose) 1 = Ok (enc_leg_L c)
          /\ FK2encoded lower_body_mat (mat_leg_R sample_pose) (mat_shin_R sample_pose)
               (mat_foot_R sample_pose) 1 = Ok (enc_leg_R c))
    /\ (exists upper_body_mat,
          takes_translation upper_body_mat (g_mat (enc_frame c)) (mat_neck sample_pose)
          /\ FK2encoded upper_body_mat (mat_shoulder_L sample_pose)
               (mat_elbow_L sample_pose) (mat_hand_L sample_pose) 1 = Ok (enc_arm_L c)
          /\ FK2encoded upper_body_mat (mat_shoulder_R sample_pose)
               (mat_elbow_R sample_pose) (mat_hand_R sample_pose) 1 = Ok (enc_arm_R c)
          /\ FK2encoded upper_body_mat (mat_neck sample_pose)
               (mat_neck_mid sample_pose) (mat_head sample_pose) 1 = Ok (enc_neck c)).
Proof.
  destruct (upright_pose_encoded unit_scales sample_pose
              unit_height_positive sample_pose_upright) as (c & E & _).
  exists c. split; [exact E|].
  apply (per_chain_frames unit_scales sample_pose c E).
Defined.

(** ** Collinear chains *)

Lemma FK2encoded_error (g root_jnt dir_jnt eff_jnt : MMatrix) (len : R) (e : error) :
  FK2encoded g root_jnt dir_jnt eff_jnt len = Err e -> e = SingularMatrix.
Proof.
  unfold FK2encoded, Mat.inverse.
  repeat match goal with
  | |- context [Req_dec_T ?a ?b] => destruct (Req_dec_T a b); cbn [bind]
  end; intros H; inversion H; reflexivity.
Qed.

Lemma FK2encoded_upv (g root_jnt dir_jnt eff_jnt : MMatrix) (len : R) (c : EncodedChain) :
  FK2encoded g root_jnt dir_jnt eff_jnt len = Ok c ->
  ik_upv c
  = Vec.normal
      (Mat.vmul
         (Vec.cross
            (Vec.cross (Vec.sub (MMat2Trans root_jnt) (MMat2Trans dir_jnt))
                       (Vec.sub (MMat2Trans eff_jnt) (MMat2Trans root_jnt)))
            (Vec.sub (MMat2Trans eff_jnt) (MMat2Trans root_jnt)))
         (Mat.adjugate_over g (Mat.det g))).
Proof.
  unfold FK2encoded, Mat.inverse.
  repeat match goal with
  | |- context [Req_dec_T ?a ?b] => destruct (Req_dec_T a b); cbn [bind]
  end; intros H; inversion H; reflexivity.
Qed.

Lemma collinear_upv_zero (g root_jnt dir_jnt eff_jnt : MMatrix) (len : R) (c : EncodedChain) :
  collinear (MMat2Trans root_jnt) (MMat2Trans dir_jnt) (MMat2Trans eff_jnt) ->
  FK2encoded g root_jnt dir_jnt eff_jnt len = Ok c ->
  ik_upv c = Vec.zero.
Proof.
  intros C E. rewrite (FK2encoded_upv _ _ _ _ _ _ E).
  unfold collinear in C. rewrite C.
  rewrite cross_zero_l, vmul_zero. apply normal_zero.
Qed.

Lemma length_zero : Vec.length Vec.zero = 0.
Proof. apply length_zero_iff. reflexivity. Qed.

(** C8, as the code has it: on a chain whose root, direction and
    effector joints are on one line the chain encoder has no guard: it
    never signals [DegenerateChain] and substitutes no fallback axis.  On
    an invertible affine frame it returns, and the pole vector it returns
    is the zero vector, the result of normalizing the zero vector; on a
    singular frame it fails with [SingularMatrix]. *)
Theorem collinear_chain_zero_pole (g root_jnt dir_jnt eff_jnt : MMatrix) (len : R) :
  collinear (MMat2Trans root_jnt) (MMat2Trans dir_jnt) (MMat2Trans eff_jnt) ->
  FK2encoded g root_jnt dir_jnt eff_jnt len <> Err DegenerateChain
  /\ (Mat.affine g -> Mat.det g <> 0 ->
      exists c, FK2encoded g root_jnt dir_jnt eff_jnt len = Ok c
                /\ ik_upv c = Vec.zero)
  /\ (Mat.det g = 0 ->
      FK2encoded g root_jnt dir_jnt eff_jnt len = Err SingularMatrix)
  /\ (forall c, FK2encoded g root_jnt dir_jnt eff_jnt len = Ok c ->
                ik_upv c = Vec.zero).
Proof.
  intros C. split; [|split; [|split]].
  - intros E. apply FK2encoded_error in E. discriminate.
  - intros A D. eexists. split; [apply FK2encoded_ok; assumption|].
    eapply collinear_upv_zero; [exact C|apply FK2encoded_ok; assumption].
  - apply FK2encoded_singular.
  - intros c. apply collinear_upv_zero. exact C.
Qed.

Lemma example_chain_collinear :
  collinear (MMat2Trans (at_point 0 0 0)) (MMat2Trans (at_point 0 0 1))
            (MMat2Trans (at_point 0 0 2)).
Proof. unfold collinear, at_point. unfold_mat. apply mkV_ext; ring. Qed.

Lemma collinear_chain_zero_pole_witness :
  exists c : EncodedChain,
    FK2encoded Mat.identity (at_point 0 0 0) (at_point 0 0 1) (at_point 0 0 2) 2 = Ok c
    /\ ik_upv c = Vec.zero.
Proof.
  apply (proj1 (proj2 (collinear_chain_zero_pole Mat.identity (at_point 0 0 0)
                         (at_point 0 0 1) (at_point 0 0 2) 2
                         example_chain_collinear))).
  - apply identity_affine.
  - apply det_identity_nonzero.
Defined.

(** C8, as stated, fails: on the chain root (0,0,0), dir (0,0,1), eff
    (0,0,2) of the specification the chain encoder neither signals
    [DegenerateChain] nor returns a direction: it returns normally, with
    the zero vector as pole vector. *)
Lemma collinear_chain_unguarded :
  collinear (MMat2Trans (at_point 0 0 0)) (MMat2Trans (at_point 0 0 1))
            (MMat2Trans (at_point 0 0 2))
  /\ ~ degenerate_policy
         (FK2encoded Mat.identity (at_point 0 0 0) (at_point 0 0 1) (at_point 0 0 2) 2)
  /\ exists c : EncodedChain,
       FK2encoded Mat.identity (at_point 0 0 0) (at_point 0 0 1) (at_point 0 0 2) 2
       = Ok c
       /\ ik_upv c = mkV 0 0 0.
Proof.
  pose proof (FK2encoded_ok Mat.identity (at_point 0 0 0) (at_point 0 0 1)
                (at_point 0 0 2) 2 identity_affine det_identity_nonzero) as E.
  cbv zeta in E.
  pose proof (collinear_upv_zero _ _ _ _ _ _ example_chain_collinear E) as U.
  split; [exact example_chain_collinear|]. split.
  - intros [D|[c [Ec L]]].
    + rewrite E in D. discriminate.
    + pose proof (collinear_upv_zero _ _ _ _ _ _ example_chain_collinear Ec) as Uc.
      rewrite Uc, length_zero in L. lra.
  - eexists. split; [exact E|exact U].
Qed.

(* ================================================================== *)
(** * Further properties of the code *)

(** ** Bounds of the chain decoder *)

Lemma encoded2IK_short (values : list R) (cs ch : R) :
  (length values < 13)%nat -> encoded2IK values cs ch = Err IndexError.
Proof.
  intros H. destruct (encoded2IK values cs ch) as [c|e] eqn:E.
  - apply encoded2IK_ok_length in E. lia.
  - apply encoded2IK_error in E. subst. reflexivity.
Qed.

Lemma decoded_block_firstn (values : list R) (cs ch : R) (n : nat) :
  (13 <= n)%nat ->
  decoded_block (firstn n values) cs ch = decoded_block values cs ch.
Proof.
  intros H. unfold decoded_block.
  assert (N : forall i, (i < 13)%nat -> nth i (firstn n values) 0 = nth i values 0).
  { intros i Hi. rewrite nth_firstn.
    destruct (Nat.ltb_spec i n); [reflexivity|lia]. }
  rewrite !N by lia. reflexivity.
Qed.

(** X1. The chain decoder returns exactly on sequences of at least 13
    values, reads only the first 13 of them, and fails with [IndexError]
    on every shorter sequence. *)
Theorem encoded2IK_bounds (values : list R) (char_scale chain_scale : R) :
  ((13 <= length values)%nat ->
     encoded2IK values char_scale chain_scale
     = Ok (decoded_block values char_scale chain_scale)
     /\ encoded2IK (firstn 13 values) char_scale chain_scale
        = encoded2IK values char_scale chain_scale)
  /\ ((length values < 13)%nat ->
        encoded2IK values char_scale chain_scale = Err IndexError).
Proof.
  split.
  - intros H. split; [apply encoded2IK_ok; exact H|].
    rewrite !encoded2IK_ok; [|exact H|rewrite length_firstn; lia].
    rewrite decoded_block_firstn by lia. reflexivity.
  - apply encoded2IK_short.
Qed.

Lemma encoded2IK_bounds_witness :
  encoded2IK (firstn 13 (repeat 1 20)) 2 3 = encoded2IK (repeat 1 20) 2 3
  /\ encoded2IK (repeat 1 12) 2 3 = Err IndexError.
Proof.
  split.
  - apply (proj1 (encoded2IK_bounds (repeat 1 20) 2 3)). cbn. lia.
  - apply (proj2 (encoded2IK_bounds (repeat 1 12) 2 3)). cbn. lia.
Defined.

(** ** What the decoder leaves behind when it fails *)

Lemma decode_global_ok_length (a : list R) (offset_mat g : MMatrix) :
  decode_global a offset_mat = Ok g -> (6 <= length a)%nat.
Proof.
  unfold decode_global.
  repeat match goal with
  | |- bind (index ?l ?i) _ = _ -> _ =>
      destruct (index l i) eqn:?E; cbn [bind]; [ | discriminate ]
  end.
  intros _.
  match goal with H : index a 5 = Ok _ |- _ => apply index_ok_length in H end.
  lia.
Qed.

(** X2. A pose of fewer than 6 values makes the decoder fail before it
    writes anything; a pose of 6 to 83 values makes it fail after it has
    written the global matrix, and with no chain output written. *)
Theorem decode_partial_write (a : list R) (offset_mat : MMatrix) (s : Scales) :
  ((length a < 6)%nat ->
     ikrig_decode_compute a offset_mat s = (mkDatablock None None, Err IndexError))
  /\ ((6 <= length a < 84)%nat ->
        exists g,
          decode_global a offset_mat = Ok g
          /\ ikrig_decode_compute a offset_mat s
             = (mkDatablock (Some g) None, Err IndexError)).
Proof.
  split.
  - intros H. unfold ikrig_decode_compute.
    destruct (decode_global a offset_mat) as [g|e] eqn:Hg.
    + apply decode_global_ok_length in Hg. lia.
    + apply decode_global_error in Hg. subst. reflexivity.
  - intros [H6 H84].
    destruct (decode_global_ok a offset_mat H6) as [g Hg].
    exists g. split; [exact Hg|].
    unfold ikrig_decode_compute. rewrite Hg.
    destruct (decode_chains a s) as [p|e] eqn:Hc.
    + apply decode_chains_ok_length in Hc. lia.
    + apply decode_chains_error in Hc. subst. reflexivity.
Qed.

Lemma decode_partial_write_witness :
  ikrig_decode_compute [1; 2; 3] Mat.identity unit_scales
  = (mkDatablock None None, Err IndexError)
  /\ exists g,
       decode_global (repeat 0 83) Mat.identity = Ok g
       /\ ikrig_decode_compute (repeat 0 83) Mat.identity unit_scales
          = (mkDatablock (Some g) None, Err IndexError).
Proof.
  split.
  - apply (proj1 (decode_partial_write [1; 2; 3] Mat.identity unit_scales)).
    cbn. lia.
  - apply (proj2 (decode_partial_write (repeat 0 83) Mat.identity unit_scales)).
    cbn. lia.
Defined.

(** ** Encoding, then decoding with other scales *)

Lemma layout_decoded_scaled (c : EncodedComponents) (s : Scales) :
  let pose := decoded_pose (EncodedPose_layout c) s in
  ik_chain_root (ik_Spine pose)
  = mkV (vx (ik_root (enc_spine c)) * height_hips s)
        (vy (ik_root (enc_spine c)) * height_hips s + height_hips s)
        (vz (ik_root (enc_spine c)) * height_hips s)
  /\ ik_chain_eff (ik_Spine pose) = Vec.scale (ik_eff (enc_spine c)) (length_spine s)
  /\ ik_chain_upv (ik_Spine pose) = ik_upv (enc_spine c)
  /\ ik_chain_eff_rot (ik_Spine pose) = asEulerRotation (ik_eff_rot (enc_spine c))
  /\ scaled_back (ik_Neck pose) (enc_neck c) (height_hips s) (length_neck s)
  /\ scaled_back (ik_Leg_L pose) (enc_leg_L c) (height_hips s) (length_leg_L s)
  /\ scaled_back (ik_Leg_R pose) (enc_leg_R c) (height_hips s) (length_leg_R s)
  /\ scaled_back (ik_Arm_L pose) (enc_arm_L c) (height_hips s) (length_arm_L s)
  /\ scaled_back (ik_Arm_R pose) (enc_arm_R c) (height_hips s) (length_arm_R s).
Proof.
  destruct c as [fr lo up sp ne ll lr al ar].
  destruct sp as [[] [] [] []], ne as [[] [] [] []], ll as [[] [] [] []],
           lr as [[] [] [] []], al as [[] [] [] []], ar as [[] [] [] []].
  cbv zeta. repeat split.
Qed.

(** X3. An encoded pose, decoded with any scales [s'] and any offset
    matrix: the decoder returns, and every chain comes back as the
    encoder's chain with its root multiplied by the decoder's
    [height_hips], its effector by the decoder's chain length, its pole
    vector unchanged and its rotation the Euler conversion of the encoded
    quaternion; the Spine root has [height_hips] added to Y on top. *)
Theorem decode_after_encode (s s' : Scales) (j : Joints) (offset_mat : MMatrix)
    (c : EncodedComponents) :
  encode_components s j = Ok c ->
  exists (out : list R) (g : MMatrix) (pose : DecodedPose),
    ikrig_encode_compute s j = Ok out
    /\ ikrig_decode_compute out offset_mat s'
       = (mkDatablock (Some g) (Some pose), Ok tt)
    /\ ik_chain_root (ik_Spine pose)
       = mkV (vx (ik_root (enc_spine c)) * height_hips s')
             (vy (ik_root (enc_spine c)) * height_hips s' + height_hips s')
             (vz (ik_root (enc_spine c)) * height_hips s')
    /\ ik_chain_eff (ik_Spine pose) = Vec.scale (ik_eff (enc_spine c)) (length_spine s')
    /\ ik_chain_upv (ik_Spine pose) = ik_upv (enc_spine c)
    /\ ik_chain_eff_rot (ik_Spine pose) = asEulerRotation (ik_eff_rot (enc_spine c))
    /\ scaled_back (ik_Neck pose) (enc_neck c) (height_hips s') (length_neck s')
    /\ scaled_back (ik_Leg_L pose) (enc_leg_L c) (height_hips s') (length_leg_L s')
    /\ scaled_back (ik_Leg_R pose) (enc_leg_R c) (height_hips s') (length_leg_R s')
    /\ scaled_back (ik_Arm_L pose) (enc_arm_L c) (height_hips s') (length_arm_L s')
    /\ scaled_back (ik_Arm_R pose) (enc_arm_R c) (height_hips s') (length_arm_R s').
Proof.
  intros E.
  destruct (ikrig_decode_compute_ok (EncodedPose_layout c) offset_mat s')
    as [g [_ Hc]]; [rewrite EncodedPose_layout_length; lia|].
  exists (EncodedPose_layout c), g, (decoded_pose (EncodedPose_layout c) s').
  split.
  - unfold ikrig_encode_compute. rewrite E. cbn [bind].
    apply pose_packer_components.
  - split; [exact Hc|]. apply layout_decoded_scaled.
Qed.

(** ** The shape of the global frame *)

Lemma normal_idem (v : MVector) : Vec.normal (Vec.normal v) = Vec.normal v.
Proof.
  destruct (Req_dec (Vec.length v) 0) as [Z|N].
  - apply length_zero_iff in Z. subst v. rewrite !normal_zero. reflexivity.
  - apply normal_of_unit, normal_length.
    intros E. apply N. rewrite E. apply length_zero.
Qed.

Lemma hips_forward_normal_y (rest hips : MMatrix) :
  vy (Vec.normal (hips_forward rest hips)) = 0.
Proof.
  unfold Vec.normal, Vec.div, hips_forward. cbn [vy]. unfold Rdiv. ring.
Qed.

Lemma hips_forward_normal_sq (rest hips : MMatrix) :
  hips_forward rest hips <> Vec.zero ->
  vz (Vec.normal (hips_forward rest hips)) * vz (Vec.normal (hips_forward rest hips))
  + vx (Vec.normal (hips_forward rest hips)) * vx (Vec.normal (hips_forward rest hips))
  = 1.
Proof.
  intros N.
  pose proof (normal_length _ N) as L.
  pose proof (length_sqr (Vec.normal (hips_forward rest hips))) as S.
  rewrite L in S. unfold Vec.dot in S.
  rewrite hips_forward_normal_y in S. lra.
Qed.

Lemma frame_builder_yaw (rest hips : MMatrix) (h : R) :
  Mat.det rest <> 0 ->
  frame_builder rest hips h
  = Ok (mkGlobalFrame (m30 hips) h (m32 hips)
          (yaw_frame h (vz (Vec.normal (hips_forward rest hips)))
                       (vx (Vec.normal (hips_forward rest hips)))
                       (m30 hips) h (m32 hips))
          (quat_setValue
             (Mat.homogenize
                (yaw_frame h (vz (Vec.normal (hips_forward rest hips)))
                             (vx (Vec.normal (hips_forward rest hips)))
                             (m30 hips) h (m32 hips))))).
Proof.
  intros D. unfold frame_builder. rewrite (inverse_ok rest D). cbn [bind]. cbv zeta.
  change (mkV (vx (Mat.vmul (mkV 0 0 1)
                     (Mat.mul (Mat.adjugate_over rest (Mat.det rest)) hips)))
              0
              (vz (Mat.vmul (mkV 0 0 1)
                     (Mat.mul (Mat.adjugate_over rest (Mat.det rest)) hips))))
    with (hips_forward rest hips).
  rewrite normal_idem.
  pose proof (hips_forward_normal_y rest hips) as Zy.
  remember (Vec.normal (hips_forward rest hips)) as z eqn:Hz. clear Hz.
  destruct z as [zx zy zz]. cbn [vy] in Zy. subst zy.
  match goal with
  | |- Ok (mkGlobalFrame _ _ _ ?G _) = Ok (mkGlobalFrame _ _ _ ?Y _) =>
      assert (EG : G = Y)
        by (unfold yaw_frame; unfold_mat; apply mkM_ext; ring);
      rewrite EG
  end.
  reflexivity.
Qed.

Lemma frame_builder_ok_det (rest hips : MMatrix) (h : R) (fr : GlobalFrame) :
  frame_builder rest hips h = Ok fr -> Mat.det rest <> 0.
Proof.
  intros E D. unfold frame_builder in E.
  rewrite (inverse_singular rest D) in E. discriminate.
Qed.

Lemma det_yaw_frame (h c s tx ty tz : R) :
  Mat.det (yaw_frame h c s tx ty tz) = h * h * h * (c * c + s * s).
Proof. unfold yaw_frame. unfold_mat. ring. Qed.

(** X4. Whenever the frame builder returns, its matrix is a rotation about
    the vertical axis scaled by [height_hips], placed at the hips' x and z
    and at height [height_hips]: the second row is (0, h, 0), so the frame
    never pitches or rolls with the hips, and the cosine and sine of the
    rotation satisfy [c * c + s * s = 1] unless the forward direction of the
    hips has no horizontal part, in which case both are zero. *)
Theorem global_frame_is_scaled_yaw (rest hips : MMatrix) (h : R) (fr : GlobalFrame) :
  frame_builder rest hips h = Ok fr ->
  exists c s : R,
    g_mat fr = yaw_frame h c s (m30 hips) h (m32 hips)
    /\ (hips_forward rest hips <> Vec.zero -> c * c + s * s = 1)
    /\ (hips_forward rest hips = Vec.zero -> c = 0 /\ s = 0).
Proof.
  intros E. pose proof (frame_builder_ok_det _ _ _ _ E) as D.
  rewrite (frame_builder_yaw rest hips h D) in E.
  exists (vz (Vec.normal (hips_forward rest hips))),
         (vx (Vec.normal (hips_forward rest hips))).
  split; [|split].
  - pose proof (f_equal (fun x => match x with
                                  | Ok fr => g_mat fr
                                  | Err _ => Mat.identity
                                  end) E) as X.
    cbn [g_mat] in X. symmetry. exact X.
  - apply hips_forward_normal_sq.
  - intros Z. rewrite Z, normal_zero. split; reflexivity.
Qed.

Lemma global_frame_is_scaled_yaw_witness :
  exists c s : R,
    mkM 10 0 0 0  0 10 0 0  0 0 10 0  0 10 0 1 = yaw_frame 10 c s 0 10 0
    /\ (hips_forward Mat.identity Mat.identity <> Vec.zero -> c * c + s * s = 1)
    /\ (hips_forward Mat.identity Mat.identity = Vec.zero -> c = 0 /\ s = 0).
Proof.
  apply (global_frame_is_scaled_yaw Mat.identity Mat.identity 10
           (mkGlobalFrame 0 10 0 (mkM 10 0 0 0  0 10 0 0  0 0 10 0  0 10 0 1)
              Quat.identity)).
  change Mat.identity with (Mat.translation (mkV 0 0 0)).
  apply frame_builder_upright. lra.
Defined.

(** ** The hips' height does not enter the global frame *)

Lemma vmul_delta_set13 (v : MVector) (ri hips : MMatrix) (y : R) :
  Mat.affine ri ->
  Mat.vmul v (Mat.mul ri (Mat.set13 hips y)) = Mat.vmul v (Mat.mul ri hips).
Proof.
  intros A. destruct_affine ri A. destruct v, hips.
  unfold_mat. apply mkV_ext; ring.
Qed.

(** X5. With an affine rest matrix, replacing element 13 of the hips matrix
    (the height of the hips) by any value leaves the result of the frame
    builder unchanged. *)
Theorem global_frame_ignores_hips_height (rest hips : MMatrix) (h y : R) :
  Mat.affine rest ->
  frame_builder rest (Mat.set13 hips y) h = frame_builder rest hips h.
Proof.
  intros A. unfold frame_builder.
  destruct (Req_dec (Mat.det rest) 0) as [Z|D].
  - rewrite (inverse_singular rest Z). reflexivity.
  - rewrite (inverse_ok rest D). cbn [bind].
    rewrite vmul_delta_set13 by (apply adjugate_affine; assumption).
    reflexivity.
Qed.

Lemma global_frame_ignores_hips_height_witness :
  frame_builder Mat.identity (Mat.set13 (at_point 1 1 0) 7) 2
  = frame_builder Mat.identity (at_point 1 1 0) 2.
Proof.
  apply (global_frame_ignores_hips_height Mat.identity (at_point 1 1 0) 2 7).
  apply identity_affine.
Defined.

(** ** When the chain encoder and the encoder fail *)

Lemma FK2encoded_ok_det (g root_jnt dir_jnt eff_jnt : MMatrix) (len : R) (c : EncodedChain) :
  FK2encoded g root_jnt dir_jnt eff_jnt len = Ok c -> Mat.det g <> 0.
Proof.
  intros E D. rewrite (FK2encoded_singular _ _ _ _ _ D) in E. discriminate.
Qed.




Lemma with_translation_of_yaw (h c s tx ty tz : R) (src : MMatrix) :
  with_translation_of (yaw_frame h c s tx ty tz) src
  = yaw_frame h c s (m30 src) (m31 src) (m32 src).
Proof. reflexivity. Qed.



(** ** Roots that the encoder fixes *)

Lemma root_at_frame_origin (g root_jnt : MMatrix) :
  Mat.affine g -> Mat.det g <> 0 ->
  m30 root_jnt = m30 g -> m31 root_jnt = m31 g -> m32 root_jnt = m32 g ->
  m33 root_jnt = 1 ->
  MMat2Trans (Mat.mul root_jnt (Mat.adjugate_over g (Mat.det g))) = Vec.zero.
Proof.
  intros A D X Y Z W.
  destruct root_jnt as [r00 r01 r02 r03 r10 r11 r12 r13 r20 r21 r22 r23 r30 r31 r32 r33].
  cbn [m30 m31 m32 m33] in X, Y, Z, W. subst.
  destruct_affine g A.
  unfold_mat. unfold_mat_in D.
  apply mkV_ext; field; nonzero_by D.
Qed.

Lemma FK2encoded_root (g root_jnt dir_jnt eff_jnt : MMatrix) (len : R) (c : EncodedChain) :
  FK2encoded g root_jnt dir_jnt eff_jnt len = Ok c ->
  ik_root c = MMat2Trans (Mat.mul root_jnt (Mat.adjugate_over g (Mat.det g))).
Proof.
  unfold FK2encoded, Mat.inverse.
  repeat match goal with
  | |- context [Req_dec_T ?a ?b] => destruct (Req_dec_T a b); cbn [bind]
  end; intros H; inversion H; reflexivity.
Qed.

(** X8. The Neck chain is encoded against a frame placed at the neck joint
    itself, so its encoded root is always the zero vector: values 19, 20
    and 21 of every encoded pose are zero (for a neck matrix whose last
    element is 1). *)
Theorem neck_root_is_zero (s : Scales) (j : Joints) (c : EncodedComponents) :
  encode_components s j = Ok c -> m33 (mat_neck j) = 1 ->
  ik_root (enc_neck c) = Vec.zero
  /\ slice (EncodedPose_layout c) 19 22 = [0; 0; 0].
Proof.
  intros E W.
  destruct (encode_components_chains s j c E) as (_ & Eu & _ & _ & _ & _ & _ & Hn).
  pose proof (frame_builder_affine _ _ _ _ (encode_components_frame s j c E)) as A.
  assert (R0 : ik_root (enc_neck c) = Vec.zero).
  { rewrite (FK2encoded_root _ _ _ _ _ _ Hn).
    apply root_at_frame_origin; try (rewrite Eu; reflexivity); try exact W.
    - rewrite Eu. apply with_translation_of_affine. exact A.
    - eapply FK2encoded_ok_det. exact Hn. }
  split; [exact R0|].
  change (Vec.to_list (ik_root (enc_neck c)) = [0; 0; 0]).
  rewrite R0. reflexivity.
Qed.





Lemma neck_root_is_zero_witness :
  exists c,
    encode_components unit_scales sample_pose = Ok c
    /\ ik_root (enc_neck c) = Vec.zero
    /\ slice (EncodedPose_layout c) 19 22 = [0; 0; 0].
Proof.
  destruct (upright_pose_encoded unit_scales sample_pose
              unit_height_positive sample_pose_upright) as (c & E & _).
  exists c. split; [exact E|].
  apply (neck_root_is_zero unit_scales sample_pose c E). reflexivity.
Defined.

(** The frame of an encoded pose: a scaled rotation about the vertical
    axis with a unit cosine-sine pair and a height that is not zero. *)
Lemma encode_components_yaw (s : Scales) (j : Joints) (c : EncodedComponents) :
  encode_components s j = Ok c ->
  exists cy sy : R,
    g_mat (enc_frame c)
    = yaw_frame (height_hips s) cy sy (m30 (mat_hips j)) (height_hips s)
        (m32 (mat_hips j))
    /\ cy * cy + sy * sy = 1
    /\ height_hips s <> 0.
Proof.
  intros E.
  pose proof (encode_components_frame s j c E) as F.
  pose proof (frame_builder_ok_det _ _ _ _ F) as D.
  destruct (encode_components_chains s j c E) as (_ & _ & Hs & _).
  apply FK2encoded_ok_det in Hs.
  rewrite (frame_builder_yaw _ _ _ D) in F.
  pose proof (f_equal (fun x => match x with
                                | Ok fr => g_mat fr
                                | Err _ => Mat.identity
                                end) F) as X.
  cbn [g_mat] in X. rewrite <- X, det_yaw_frame in Hs.
  exists (vz (Vec.normal (hips_forward (mat_hips_rest j) (mat_hips j)))),
         (vx (Vec.normal (hips_forward (mat_hips_rest j) (mat_hips j)))).
  split; [symmetry; exact X|]. split.
  - apply hips_forward_normal_sq. intros Z. apply Hs.
    rewrite Z, normal_zero. unfold Vec.zero. cbn [vx vz]. ring.
  - intros Z. apply Hs. rewrite Z. ring.
Qed.

Lemma root_above_yaw_frame (h cy sy tx ty tz : R) (root_jnt : MMatrix) :
  Mat.det (yaw_frame h cy sy tx ty tz) <> 0 ->
  m30 root_jnt = tx -> m32 root_jnt = tz -> m33 root_jnt = 1 ->
  MMat2Trans (Mat.mul root_jnt
                (Mat.adjugate_over (yaw_frame h cy sy tx ty tz)
                   (Mat.det (yaw_frame h cy sy tx ty tz))))
  = mkV 0 ((m31 root_jnt - ty) / h) 0.
Proof.
  intros D X Z W.
  destruct root_jnt as [r00 r01 r02 r03 r10 r11 r12 r13 r20 r21 r22 r23 r30 r31 r32 r33].
  cbn [m30 m31 m32 m33] in *. subst.
  assert (H0 : h <> 0).
  { intros E. apply D. rewrite det_yaw_frame, E. ring. }
  unfold yaw_frame in *. unfold_mat. unfold_mat_in D.
  apply mkV_ext; field; repeat split; first [exact H0 | nonzero_by D].
Qed.

(** X9. The Spine root is encoded as the height of the hips relative to
    [height_hips], with no x or z part; decoding with the scales of the
    encoder gives back the Spine root (0, hips height, 0): the
    [height_hips] that the decoder adds is the one that the frame's origin
    took away. *)
Theorem spine_root_is_hips_height (s : Scales) (j : Joints) (offset_mat : MMatrix)
    (c : EncodedComponents) :
  encode_components s j = Ok c -> m33 (mat_hips j) = 1 ->
  ik_root (enc_spine c)
  = mkV 0 ((m31 (mat_hips j) - height_hips s) / height_hips s) 0
  /\ exists (g : MMatrix) (pose : DecodedPose),
       ikrig_decode_compute (EncodedPose_layout c) offset_mat s
       = (mkDatablock (Some g) (Some pose), Ok tt)
       /\ ik_chain_root (ik_Spine pose) = mkV 0 (m31 (mat_hips j)) 0.
Proof.
  intros E W.
  destruct (encode_components_yaw s j c E) as (cy & sy & G & U & H0).
  destruct (encode_components_chains s j c E) as (_ & _ & Hs & _).
  assert (R0 : ik_root (enc_spine c)
               = mkV 0 ((m31 (mat_hips j) - height_hips s) / height_hips s) 0).
  { rewrite (FK2encoded_root _ _ _ _ _ _ Hs), G.
    apply root_above_yaw_frame; try reflexivity; try exact W.
    rewrite <- G. eapply FK2encoded_ok_det. exact Hs. }
  split; [exact R0|].
  destruct (ikrig_decode_compute_ok (EncodedPose_layout c) offset_mat s)
    as [g [_ Hc]]; [rewrite EncodedPose_layout_length; lia|].
  exists g, (decoded_pose (EncodedPose_layout c) s).
  split; [exact Hc|].
  destruct (layout_decoded_scaled c s) as [R1 _]. cbv zeta in R1.
  rewrite R1, R0. cbn [vx vy vz].
  apply mkV_ext; field; exact H0.
Qed.

Lemma spine_root_is_hips_height_witness :
  exists c,
    encode_components unit_scales sample_pose = Ok c
    /\ ik_root (enc_spine c) = mkV 0 ((1 - 1) / 1) 0
    /\ exists (g : MMatrix) (pose : DecodedPose),
         ikrig_decode_compute (EncodedPose_layout c) Mat.identity unit_scales
         = (mkDatablock (Some g) (Some pose), Ok tt)
         /\ ik_chain_root (ik_Spine pose) = mkV 0 1 0.
Proof.
  destruct (upright_pose_encoded unit_scales sample_pose
              unit_height_positive sample_pose_upright) as (c & E & _).
  exists c. split; [exact E|].
  apply (spine_root_is_hips_height unit_scales sample_pose Mat.identity c E).
  reflexivity.
Defined.

(** ** The pole vector is a direction or nothing *)

Lemma normal_zero_iff (v : MVector) : Vec.normal v = Vec.zero <-> v = Vec.zero.
Proof.
  split.
  - intros E. destruct (Req_dec (Vec.length v) 0) as [Z|N].
    + apply length_zero_iff. exact Z.
    + assert (V : v <> Vec.zero).
      { intros Z. apply N. rewrite Z. apply length_zero. }
      pose proof (normal_length v V) as L. rewrite E, length_zero in L. lra.
  - intros ->. apply normal_zero.
Qed.

(** X10. Whatever the frame and the joints, the pole vector that the chain
    encoder returns is either the zero vector or a vector of length one;
    on an affine frame it is the zero vector exactly when the root,
    direction and effector joints are on one line. *)
Theorem pole_vector_zero_or_unit (g root_jnt dir_jnt eff_jnt : MMatrix) (len : R)
    (c : EncodedChain) :
  FK2encoded g root_jnt dir_jnt eff_jnt len = Ok c ->
  (ik_upv c = Vec.zero \/ Vec.length (ik_upv c) = 1)
  /\ (Mat.affine g ->
      (ik_upv c = Vec.zero
       <-> collinear (MMat2Trans root_jnt) (MMat2Trans dir_jnt) (MMat2Trans eff_jnt))).
Proof.
  intros E. split.
  - rewrite (FK2encoded_upv _ _ _ _ _ _ E).
    match goal with
    | |- Vec.normal ?v = _ \/ _ =>
        destruct (Req_dec (Vec.length v) 0) as [Z|N]
    end.
    + left. apply length_zero_iff in Z. rewrite Z. apply normal_zero.
    + right. apply normal_length. intros Z. apply N. rewrite Z. apply length_zero.
  - intros A. split.
    + intros Z. rewrite (FK2encoded_upv _ _ _ _ _ _ E) in Z.
      apply (proj1 (normal_zero_iff _)) in Z.
      destruct (Req_dec (Vec.length
                  (Vec.cross (Vec.sub (MMat2Trans root_jnt) (MMat2Trans dir_jnt))
                             (Vec.sub (MMat2Trans eff_jnt) (MMat2Trans root_jnt)))) 0)
        as [L|L].
      * apply length_zero_iff in L. exact L.
      * exfalso. revert Z. apply vmul_inverse_nonzero; [exact A| |].
        -- eapply FK2encoded_ok_det. exact E.
        -- apply cross_cross_nonzero. intros C. apply L. rewrite C.
           apply length_zero.
    + intros C. eapply collinear_upv_zero; eassumption.
Qed.

Lemma pole_vector_zero_or_unit_witness :
  exists c,
    FK2encoded Mat.identity (at_point 0 0 0) (at_point 0 0 1) (at_point 0 0 2) 2 = Ok c
    /\ (ik_upv c = Vec.zero \/ Vec.length (ik_upv c) = 1).
Proof.
  eexists. split.
  - apply FK2encoded_ok; [apply identity_affine|apply det_identity_nonzero].
  - apply (proj1 (pole_vector_zero_or_unit Mat.identity (at_point 0 0 0)
                    (at_point 0 0 1) (at_point 0 0 2) 2 _
                    (FK2encoded_ok Mat.identity (at_point 0 0 0) (at_point 0 0 1)
                       (at_point 0 0 2) 2 identity_affine det_identity_nonzero))).
Defined.

(** ** The pole vector is perpendicular to the effector *)

Lemma length_of_unit_dot (v : MVector) : Vec.dot v v = 1 -> Vec.length v = 1.
Proof. intros H. unfold Vec.length. rewrite H. apply sqrt_1. Qed.

Lemma normal_scaled_unit (v : MVector) (h : R) :
  0 < h -> Vec.dot v v = 1 -> Vec.normal (Vec.scale v h) = v.
Proof.
  intros H U. rewrite normal_scale by exact H.
  apply normal_of_unit, length_of_unit_dot, U.
Qed.

Lemma homogenize_yaw (h cy sy tx ty tz : R) :
  0 < h -> cy * cy + sy * sy = 1 ->
  Mat.homogenize (yaw_frame h cy sy tx ty tz)
  = mkM cy 0 (- sy) 0  0 1 0 0  sy 0 cy 0  tx ty tz 1.
Proof.
  intros H U.
  unfold Mat.homogenize, Mat.orthonormalize, Mat.row0, Mat.row1, Mat.row2, yaw_frame.
  cbn [m00 m01 m02 m03 m10 m11 m12 m13 m20 m21 m22 m23 m30 m31 m32 m33].
  replace (mkV (cy * h) 0 (- sy * h)) with (Vec.scale (mkV cy 0 (- sy)) h)
    by (unfold_mat; apply mkV_ext; ring).
  rewrite (normal_scaled_unit (mkV cy 0 (- sy)) h H)
    by (unfold Vec.dot; cbn [vx vy vz]; transitivity (cy * cy + sy * sy);
        [ring|exact U]).
  replace (Vec.sub (mkV 0 h 0)
             (Vec.scale (mkV cy 0 (- sy)) (Vec.dot (mkV 0 h 0) (mkV cy 0 (- sy)))))
    with (Vec.scale (mkV 0 1 0) h)
    by (unfold_mat; apply mkV_ext; ring).
  rewrite (normal_scaled_unit (mkV 0 1 0) h H)
    by (unfold Vec.dot; cbn [vx vy vz]; ring).
  replace (Vec.sub
             (Vec.sub (mkV (sy * h) 0 (cy * h))
                (Vec.scale (mkV cy 0 (- sy))
                   (Vec.dot (mkV (sy * h) 0 (cy * h)) (mkV cy 0 (- sy)))))
             (Vec.scale (mkV 0 1 0) (Vec.dot (mkV (sy * h) 0 (cy * h)) (mkV 0 1 0))))
    with (Vec.scale (mkV sy 0 cy) h)
    by (unfold_mat; apply mkV_ext; ring).
  rewrite (normal_scaled_unit (mkV sy 0 cy) h H)
    by (unfold Vec.dot; cbn [vx vy vz]; transitivity (cy * cy + sy * sy);
        [ring|exact U]).
  reflexivity.
Qed.

Lemma vmul_inverse_unit_yaw (v : MVector) (cy sy tx ty tz : R) :
  cy * cy + sy * sy = 1 ->
  Mat.vmul v
    (Mat.adjugate_over (mkM cy 0 (- sy) 0  0 1 0 0  sy 0 cy 0  tx ty tz 1)
       (Mat.det (mkM cy 0 (- sy) 0  0 1 0 0  sy 0 cy 0  tx ty tz 1)))
  = mkV (vx v * cy - vz v * sy) (vy v) (vx v * sy + vz v * cy).
Proof.
  intros U.
  assert (D : Mat.det (mkM cy 0 (- sy) 0  0 1 0 0  sy 0 cy 0  tx ty tz 1) = 1)
    by (transitivity (cy * cy + sy * sy); [unfold_mat; ring|exact U]).
  rewrite D.
  destruct v as [x y z]. unfold_mat. apply mkV_ext.
  - field.
  - transitivity (y * (cy * cy + sy * sy)); [field|rewrite U; ring].
  - field.
Qed.

Lemma vmul_inverse_yaw (v : MVector) (h cy sy tx ty tz : R) :
  h <> 0 -> cy * cy + sy * sy = 1 ->
  Mat.vmul v
    (Mat.adjugate_over (yaw_frame h cy sy tx ty tz)
       (Mat.det (yaw_frame h cy sy tx ty tz)))
  = Vec.scale (mkV (vx v * cy - vz v * sy) (vy v) (vx v * sy + vz v * cy)) (/ h).
Proof.
  intros H U. rewrite det_yaw_frame, U, Rmult_1_r.
  destruct v as [x y z]. unfold yaw_frame. unfold_mat. apply mkV_ext.
  - field. exact H.
  - transitivity (y * (cy * cy + sy * sy) * / h); [field; exact H|rewrite U; ring].
  - field. exact H.
Qed.

Lemma dot_unit_yaw (u b : MVector) (cy sy : R) :
  cy * cy + sy * sy = 1 ->
  Vec.dot (mkV (vx u * cy - vz u * sy) (vy u) (vx u * sy + vz u * cy))
          (mkV (vx b * cy - vz b * sy) (vy b) (vx b * sy + vz b * cy))
  = Vec.dot u b.
Proof.
  intros U. destruct u as [ux uy uz], b as [bx by' bz].
  unfold Vec.dot. cbn [vx vy vz].
  transitivity ((cy * cy + sy * sy) * (ux * bx + uz * bz) + uy * by'); [ring|].
  rewrite U. ring.
Qed.

Lemma dot_cross_cross (a b : MVector) :
  Vec.dot (Vec.cross (Vec.cross a b) b) b = 0.
Proof. destruct a, b. unfold_mat. ring. Qed.

Lemma dot_scale_l (a b : MVector) (k : R) :
  Vec.dot (Vec.scale a k) b = Vec.dot a b * k.
Proof. destruct a, b. unfold_mat. ring. Qed.

Lemma dot_div (a b : MVector) (l m : R) :
  Vec.dot (Vec.div a l) (Vec.div b m) = Vec.dot a b * / l * / m.
Proof. destruct a, b. unfold_mat. unfold Rdiv. ring. Qed.

Lemma FK2encoded_eff (g root_jnt dir_jnt eff_jnt : MMatrix) (len : R) (c : EncodedChain) :
  FK2encoded g root_jnt dir_jnt eff_jnt len = Ok c ->
  ik_eff c
  = Vec.div
      (Mat.vmul (Vec.sub (MMat2Trans eff_jnt) (MMat2Trans root_jnt))
         (Mat.adjugate_over (Mat.homogenize g) (Mat.det (Mat.homogenize g))))
      len.
Proof.
  unfold FK2encoded, Mat.inverse.
  repeat match goal with
  | |- context [Req_dec_T ?a ?b] => destruct (Req_dec_T a b); cbn [bind]
  end; intros H; inversion H; reflexivity.
Qed.

Lemma yaw_chain_perpendicular (h cy sy tx ty tz : R)
    (root_jnt dir_jnt eff_jnt : MMatrix) (len : R) (c : EncodedChain) :
  0 < h -> cy * cy + sy * sy = 1 ->
  FK2encoded (yaw_frame h cy sy tx ty tz) root_jnt dir_jnt eff_jnt len = Ok c ->
  Vec.dot (ik_upv c) (ik_eff c) = 0.
Proof.
  intros H U E.
  rewrite (FK2encoded_upv _ _ _ _ _ _ E), (FK2encoded_eff _ _ _ _ _ _ E).
  rewrite homogenize_yaw by assumption.
  rewrite vmul_inverse_unit_yaw by exact U.
  rewrite vmul_inverse_yaw by (try lra; exact U).
  unfold Vec.normal. rewrite dot_div, dot_scale_l, dot_unit_yaw by exact U.
  rewrite dot_cross_cross. ring.
Qed.

(** X11. In every pose that the encoder returns for a positive [height_hips],
    the encoded pole vector of each of the six chains is perpendicular to
    the encoded effector of that chain. *)
Theorem pole_vector_perpendicular_to_effector (s : Scales) (j : Joints)
    (c : EncodedComponents) :
  encode_components s j = Ok c -> 0 < height_hips s ->
  Vec.dot (ik_upv (enc_spine c)) (ik_eff (enc_spine c)) = 0
  /\ Vec.dot (ik_upv (enc_neck c)) (ik_eff (enc_neck c)) = 0
  /\ Vec.dot (ik_upv (enc_leg_L c)) (ik_eff (enc_leg_L c)) = 0
  /\ Vec.dot (ik_upv (enc_leg_R c)) (ik_eff (enc_leg_R c)) = 0
  /\ Vec.dot (ik_upv (enc_arm_L c)) (ik_eff (enc_arm_L c)) = 0
  /\ Vec.dot (ik_upv (enc_arm_R c)) (ik_eff (enc_arm_R c)) = 0.
Proof.
  intros E H.
  destruct (encode_components_yaw s j c E) as (cy & sy & G & U & _).
  destruct (encode_components_chains s j c E)
    as (El & Eu & Hs & Hll & Hlr & Hal & Har & Hn).
  cbv zeta in El, Eu.
  rewrite G in Hs, El, Eu. rewrite with_translation_of_yaw in El, Eu.
  rewrite El in Hll, Hlr. rewrite Eu in Hal, Har, Hn.
  repeat split; eapply yaw_chain_perpendicular; eassumption.
Qed.

Lemma pole_vector_perpendicular_to_effector_witness :
  exists c,
    encode_components unit_scales sample_pose = Ok c
    /\ Vec.dot (ik_upv (enc_spine c)) (ik_eff (enc_spine c)) = 0
    /\ Vec.dot (ik_upv (enc_neck c)) (ik_eff (enc_neck c)) = 0
    /\ Vec.dot (ik_upv (enc_leg_L c)) (ik_eff (enc_leg_L c)) = 0
    /\ Vec.dot (ik_upv (enc_leg_R c)) (ik_eff (enc_leg_R c)) = 0
    /\ Vec.dot (ik_upv (enc_arm_L c)) (ik_eff (enc_arm_L c)) = 0
    /\ Vec.dot (ik_upv (enc_arm_R c)) (ik_eff (enc_arm_R c)) = 0.
Proof.
  destruct (upright_pose_encoded unit_scales sample_pose
              unit_height_positive sample_pose_upright) as (c & E & _).
  exists c. split; [exact E|].
  apply (pole_vector_perpendicular_to_effector unit_scales sample_pose c E).
  exact unit_height_positive.
Defined.

(** ** Moving the character *)

Lemma shift_affine (d : MVector) (m : MMatrix) : Mat.affine m -> Mat.affine (shift d m).
Proof. unfold Mat.affine. cbn. tauto. Qed.

Lemma det_shift (d : MVector) (m : MMatrix) :
  Mat.affine m -> Mat.det (shift d m) = Mat.det m.
Proof. intros A. destruct_affine m A. destruct d. unfold shift. unfold_mat. ring. Qed.

Lemma homogenize_shift (d : MVector) (m : MMatrix) :
  Mat.homogenize (shift d m) = shift d (Mat.homogenize m).
Proof.
  unfold Mat.homogenize.
  change (Mat.row0 (shift d m)) with (Mat.row0 m).
  change (Mat.row1 (shift d m)) with (Mat.row1 m).
  change (Mat.row2 (shift d m)) with (Mat.row2 m).
  destruct (Mat.orthonormalize (Mat.row0 m) (Mat.row1 m) (Mat.row2 m)) as [[e0 e1] e2].
  reflexivity.
Qed.

Lemma vmul_adjugate_shift (v d : MVector) (m : MMatrix) (k : R) :
  Mat.affine m ->
  Mat.vmul v (Mat.adjugate_over (shift d m) k) = Mat.vmul v (Mat.adjugate_over m k).
Proof.
  intros A. destruct_affine m A. destruct v, d. unfold shift. unfold_mat.
  apply mkV_ext; unfold Rdiv; ring.
Qed.

Lemma trans_mul_shift (d : MVector) (g root_jnt : MMatrix) :
  Mat.affine g -> Mat.det g <> 0 -> m33 root_jnt = 1 ->
  MMat2Trans (Mat.mul (shift d root_jnt) (Mat.adjugate_over (shift d g) (Mat.det g)))
  = MMat2Trans (Mat.mul root_jnt (Mat.adjugate_over g (Mat.det g))).
Proof.
  intros A D W.
  destruct root_jnt as [r00 r01 r02 r03 r10 r11 r12 r13 r20 r21 r22 r23 r30 r31 r32 r33].
  cbn [m33] in W. subst.
  destruct_affine g A. destruct d as [dx dy dz].
  unfold shift. unfold_mat. unfold_mat_in D.
  apply mkV_ext; field; nonzero_by D.
Qed.

Lemma mul_shift (d : MVector) (g eff_jnt : MMatrix) :
  Mat.affine g -> Mat.det g <> 0 -> Mat.affine eff_jnt ->
  Mat.mul (shift d eff_jnt) (Mat.adjugate_over (shift d g) (Mat.det g))
  = Mat.mul eff_jnt (Mat.adjugate_over g (Mat.det g)).
Proof.
  intros A D Ae.
  destruct eff_jnt as [r00 r01 r02 r03 r10 r11 r12 r13 r20 r21 r22 r23 r30 r31 r32 r33].
  unfold Mat.affine in Ae. cbn [m03 m13 m23 m33] in Ae.
  destruct Ae as (? & ? & ? & ?). subst.
  destruct_affine g A. destruct d as [dx dy dz].
  unfold shift. unfold_mat. unfold_mat_in D.
  apply mkM_ext; field; nonzero_by D.
Qed.

Lemma sub_trans_shift (d : MVector) (a b : MMatrix) :
  Vec.sub (MMat2Trans (shift d a)) (MMat2Trans (shift d b))
  = Vec.sub (MMat2Trans a) (MMat2Trans b).
Proof. destruct d. unfold shift. unfold_mat. apply mkV_ext; ring. Qed.

Lemma FK2encoded_shifted (d : MVector) (g root_jnt dir_jnt eff_jnt : MMatrix) (len : R) :
  Mat.affine g -> m33 root_jnt = 1 -> Mat.affine eff_jnt ->
  FK2encoded (shift d g) (shift d root_jnt) (shift d dir_jnt) (shift d eff_jnt) len
  = FK2encoded g root_jnt dir_jnt eff_jnt len.
Proof.
  intros A W Ae.
  destruct (Req_dec (Mat.det g) 0) as [Z|D].
  - rewrite !FK2encoded_singular; [reflexivity|exact Z|].
    rewrite det_shift by exact A. exact Z.
  - rewrite (FK2encoded_ok g) by assumption.
    rewrite (FK2encoded_ok (shift d g))
      by (try apply shift_affine; try rewrite det_shift; assumption).
    cbv zeta.
    rewrite !sub_trans_shift.
    rewrite det_shift by exact A.
    rewrite trans_mul_shift by assumption.
    rewrite homogenize_shift.
    rewrite det_shift by (apply homogenize_affine; exact A).
    rewrite !vmul_adjugate_shift by (try apply homogenize_affine; exact A).
    rewrite mul_shift by assumption.
    reflexivity.
Qed.

Lemma vmul_delta_shift (v d : MVector) (ri hips : MMatrix) :
  Mat.affine ri ->
  Mat.vmul v (Mat.mul ri (shift d hips)) = Mat.vmul v (Mat.mul ri hips).
Proof.
  intros A. destruct_affine ri A. destruct v, d, hips.
  unfold shift. unfold_mat. apply mkV_ext; ring.
Qed.

Lemma frame_builder_shifted (rest hips : MMatrix) (h dx dz : R) :
  Mat.affine rest ->
  frame_builder rest (shift (mkV dx 0 dz) hips) h
  = map_result (shift_global dx dz) (frame_builder rest hips h).
Proof.
  intros A. unfold frame_builder.
  destruct (Req_dec (Mat.det rest) 0) as [Z|D].
  - rewrite (inverse_singular rest Z). reflexivity.
  - rewrite (inverse_ok rest D). cbn [bind].
    rewrite vmul_delta_shift by (apply adjugate_affine; assumption).
    cbv zeta. unfold map_result, shift_global.
    cbn [g_tr_x g_tr_y g_tr_z g_mat g_ori].
    remember (Vec.normal (mkV _ 0 _)) as z eqn:Hz. clear Hz.
    match goal with
    | |- Ok (mkGlobalFrame _ _ _ ?G' _)
         = Ok (mkGlobalFrame _ _ _ (shift ?d ?G) _) =>
        assert (EG : G' = shift d G)
          by (unfold shift; unfold_mat; apply mkM_ext; ring);
        rewrite EG
    end.
    rewrite homogenize_shift.
    reflexivity.
Qed.

Lemma joints_affine_roots (j : Joints) :
  joints_affine j ->
  Mat.affine (mat_hips_rest j)
  /\ (m33 (mat_hips j) = 1 /\ m33 (mat_neck j) = 1
      /\ m33 (mat_leg_L j) = 1 /\ m33 (mat_leg_R j) = 1
      /\ m33 (mat_shoulder_L j) = 1 /\ m33 (mat_shoulder_R j) = 1)
  /\ (Mat.affine (mat_neck j) /\ Mat.affine (mat_head j)
      /\ Mat.affine (mat_foot_L j) /\ Mat.affine (mat_foot_R j)
      /\ Mat.affine (mat_hand_L j) /\ Mat.affine (mat_hand_R j)).
Proof.
  unfold joints_affine, joint_list. intros F.
  repeat match goal with
  | H : Forall _ (_ :: _) |- _ => inversion H; clear H; subst
  end.
  repeat match goal with
  | H : Mat.affine ?m |- _ =>
      lazymatch goal with
      | _ : m33 m = 1 |- _ => fail
      | _ => assert (m33 m = 1) by (apply H)
      end
  end.
  tauto.
Qed.

Lemma encode_components_shifted (s : Scales) (j : Joints) (dx dz : R) :
  joints_affine j ->
  encode_components s (shift_pose (mkV dx 0 dz) j)
  = map_result (shift_components dx dz) (encode_components s j).
Proof.
  intros J.
  destruct (joints_affine_roots j J)
    as (Ar & (Wh & Wn & Wll & Wlr & Wsl & Wsr) & (An & Ah & Afl & Afr & Ahl & Ahr)).
  unfold encode_components.
  cbn [shift_pose
       mat_hips_rest mat_hips mat_spine mat_neck mat_neck_mid mat_head
       mat_leg_L mat_shin_L mat_foot_L mat_shoulder_L mat_elbow_L mat_hand_L
       mat_leg_R mat_shin_R mat_foot_R mat_shoulder_R mat_elbow_R mat_hand_R].
  rewrite frame_builder_shifted by assumption.
  destruct (frame_builder (mat_hips_rest j) (mat_hips j) (height_hips s))
    as [fr|e] eqn:F; cbn [bind map_result]; [|reflexivity].
  pose proof (frame_builder_affine _ _ _ _ F) as Ag.
  cbv zeta. cbn [shift_global g_mat].
  change (with_translation_of (shift (mkV dx 0 dz) (g_mat fr))
            (shift (mkV dx 0 dz) (mat_hips j)))
    with (shift (mkV dx 0 dz) (with_translation_of (g_mat fr) (mat_hips j))).
  change (with_translation_of (shift (mkV dx 0 dz) (g_mat fr))
            (shift (mkV dx 0 dz) (mat_neck j)))
    with (shift (mkV dx 0 dz) (with_translation_of (g_mat fr) (mat_neck j))).
  rewrite !FK2encoded_shifted
    by (try apply with_translation_of_affine; assumption).
  repeat match goal with
  | |- context [bind (FK2encoded ?a ?b ?c ?d ?e) _] =>
      destruct (FK2encoded a b c d e); cbn [bind map_result]; [|reflexivity]
  end.
  reflexivity.
Qed.

(** X12. Moving the character horizontally (every joint of the current pose
    moved by [dx] along x and [dz] along z, joint matrices affine) changes
    nothing in the encoded pose but its first two values, to which [dx] and
    [dz] are added: the 82 values of the global orientation and of the six
    chains do not depend on where the character stands; the encoder fails
    exactly when it failed before. *)
Theorem encoding_ignores_horizontal_position (s : Scales) (j : Joints) (dx dz : R) :
  joints_affine j ->
  ikrig_encode_compute s (shift_pose (mkV dx 0 dz) j)
  = map_result (shift_header dx dz) (ikrig_encode_compute s j).
Proof.
  intros J. unfold ikrig_encode_compute.
  rewrite encode_components_shifted by assumption.
  destruct (encode_components s j) as [c|e]; cbn [bind map_result]; [|reflexivity].
  rewrite !pose_packer_components. reflexivity.
Qed.

Lemma encoding_ignores_horizontal_position_witness :
  ikrig_encode_compute unit_scales (shift_pose (mkV 5 0 (-3)) sample_pose)
  = map_result (shift_header 5 (-3)) (ikrig_encode_compute unit_scales sample_pose).
Proof.
  apply (encoding_ignores_horizontal_position unit_scales sample_pose 5 (-3)).
  apply sample_pose_affine.
Defined.

(** ** The decoded global matrix *)

Lemma decode_global_value (a : list R) (offset_mat : MMatrix) :
  (6 <= length a)%nat ->
  decode_global a offset_mat
  = Ok (Mat.mul
          (Mat.set14
             (Mat.set13
                (Mat.set12
                   (quat_asMatrix (mkQ (nth 2 a 0) (nth 3 a 0) (nth 4 a 0) (nth 5 a 0)))
                   (nth 0 a 0))
                0)
             (nth 1 a 0))
          offset_mat).
Proof.
  intros H. unfold decode_global.
  repeat (rewrite index_nth by lia; cbn [bind]).
  reflexivity.
Qed.

(** X13. For a pose of at least 6 values, the global matrix that the decoder
    writes is the matrix it writes for the identity offset, multiplied on
    the right by the offset matrix; the former is affine and its
    translation is (pose[0], 0, pose[1]): the decoder places the character
    on the ground plane. *)
Theorem decoded_global_matrix (a : list R) (offset_mat : MMatrix) (s : Scales) :
  (6 <= length a)%nat ->
  exists G : MMatrix,
    global_mat (fst (ikrig_decode_compute a Mat.identity s)) = Some G
    /\ global_mat (fst (ikrig_decode_compute a offset_mat s))
       = Some (Mat.mul G offset_mat)
    /\ Mat.affine G
    /\ MMat2Trans G = mkV (nth 0 a 0) 0 (nth 1 a 0).
Proof.
  intros H.
  exists (Mat.set14
            (Mat.set13
               (Mat.set12
                  (quat_asMatrix (mkQ (nth 2 a 0) (nth 3 a 0) (nth 4 a 0) (nth 5 a 0)))
                  (nth 0 a 0))
               0)
            (nth 1 a 0)).
  unfold ikrig_decode_compute. rewrite !decode_global_value by exact H.
  rewrite mul_identity_r.
  split; [destruct (decode_chains a s); reflexivity|].
  split; [destruct (decode_chains a s); reflexivity|].
  split; [|reflexivity].
  unfold Mat.affine. cbn. repeat split; reflexivity.
Qed.

Lemma decoded_global_matrix_witness :
  exists G : MMatrix,
    global_mat (fst (ikrig_decode_compute (repeat 1 6) Mat.identity unit_scales)) = Some G
    /\ global_mat (fst (ikrig_decode_compute (repeat 1 6) (at_point 1 2 3) unit_scales))
       = Some (Mat.mul G (at_point 1 2 3))
    /\ Mat.affine G
    /\ MMat2Trans G = mkV (nth 0 (repeat 1 6) 0) 0 (nth 1 (repeat 1 6) 0).
Proof.
  apply (decoded_global_matrix (repeat 1 6) (at_point 1 2 3) unit_scales).
  cbn. lia.
Defined.

(** X14. Encoding a pose and decoding the result with the identity offset
    writes a global matrix whose translation is the x and z of the hips
    and zero height: the height of the hips and [height_hips] are not in
    it. *)
Theorem global_position_round_trip (s s' : Scales) (j : Joints) (c : EncodedComponents) :
  encode_components s j = Ok c ->
  exists G : MMatrix,
    ikrig_encode_compute s j = Ok (EncodedPose_layout c)
    /\ global_mat (fst (ikrig_decode_compute (EncodedPose_layout c) Mat.identity s'))
       = Some G
    /\ MMat2Trans G = mkV (m30 (mat_hips j)) 0 (m32 (mat_hips j)).
Proof.
  intros E.
  pose proof (frame_builder_translation _ _ _ _ (encode_components_frame s j c E))
    as (X & _ & Z).
  eexists. split; [|split].
  - unfold ikrig_encode_compute. rewrite E. cbn [bind].
    apply pose_packer_components.
  - unfold ikrig_decode_compute.
    rewrite decode_global_value by (rewrite EncodedPose_layout_length; lia).
    rewrite mul_identity_r.
    destruct (decode_chains (EncodedPose_layout c) s'); reflexivity.
  - change (mkV (g_tr_x (enc_frame c)) 0 (g_tr_z (enc_frame c))
            = mkV (m30 (mat_hips j)) 0 (m32 (mat_hips j))).
    rewrite X, Z. reflexivity.
Qed.

Lemma global_position_round_trip_witness :
  exists c G,
    encode_components unit_scales sample_pose = Ok c
    /\ ikrig_encode_compute unit_scales sample_pose = Ok (EncodedPose_layout c)
    /\ global_mat (fst (ikrig_decode_compute (EncodedPose_layout c) Mat.identity
                           unit_scales)) = Some G
    /\ MMat2Trans G = mkV 1 0 0.
Proof.
  destruct (upright_pose_encoded unit_scales sample_pose
              unit_height_positive sample_pose_upright) as (c & E & _).
  destruct (global_position_round_trip unit_scales unit_scales sample_pose c E)
    as (G & P).
  exists c, G. split; [exact E|exact P].
Defined.

Lemma decode_after_encode_witness :
  exists c (out : list R) (g : MMatrix) (pose : DecodedPose),
    encode_components unit_scales sample_pose = Ok c
    /\ ikrig_encode_compute unit_scales sample_pose = Ok out
    /\ ikrig_decode_compute out Mat.identity (mkScales 2 3 3 3 3 3 3)
       = (mkDatablock (Some g) (Some pose), Ok tt)
    /\ scaled_back (ik_Neck pose) (enc_neck c) 2 3.
Proof.
  destruct (upright_pose_encoded unit_scales sample_pose
              unit_height_positive sample_pose_upright) as (c & E & _).
  destruct (decode_after_encode unit_scales (mkScales 2 3 3 3 3 3 3) sample_pose
              Mat.identity c E)
    as (out & g & pose & P1 & P2 & _ & _ & _ & _ & P3 & _).
  exists c, out, g, pose. repeat split; try assumption; apply P3.
Defined.

(** ** What the decoded values mean *)




Lemma sample_lengths_nonzero : lengths_nonzero unit_scales.
Proof. unfold lengths_nonzero. cbn. repeat split; lra. Qed.


(** ** Effector distances *)

Lemma yaw_chain_eff_distance (h len cy sy tx ty tz : R)
    (root_jnt dir_jnt eff_jnt : MMatrix) (c : EncodedChain) :
  0 < h -> len <> 0 -> cy * cy + sy * sy = 1 ->
  FK2encoded (yaw_frame h cy sy tx ty tz) root_jnt dir_jnt eff_jnt len = Ok c ->
  Vec.dot (ik_eff c) (ik_eff c) * (len * len)
  = Vec.dot (Vec.sub (MMat2Trans eff_jnt) (MMat2Trans root_jnt))
            (Vec.sub (MMat2Trans eff_jnt) (MMat2Trans root_jnt)).
Proof.
  intros H L U E.
  rewrite (FK2encoded_eff _ _ _ _ _ _ E).
  rewrite homogenize_yaw by assumption.
  rewrite vmul_inverse_unit_yaw by exact U.
  rewrite dot_div, dot_unit_yaw by exact U.
  field. exact L.
Qed.

(** X16. In every pose that the encoder returns for a positive [height_hips],
    the encoded effector of a chain whose chain length is not zero is as
    long as the distance from the root joint to the effector joint divided
    by the chain length (stated on squares): the heading rotation does not
    stretch it. *)
Theorem encoded_effector_length (s : Scales) (j : Joints) (c : EncodedComponents) :
  encode_components s j = Ok c -> 0 < height_hips s -> lengths_nonzero s ->
  let dist2 (a b : MMatrix) :=
    Vec.dot (Vec.sub (MMat2Trans b) (MMat2Trans a))
            (Vec.sub (MMat2Trans b) (MMat2Trans a)) in
  let len2 (v : MVector) := Vec.dot v v in
  len2 (ik_eff (enc_spine c)) * (length_spine s * length_spine s)
  = dist2 (mat_hips j) (mat_neck j)
  /\ len2 (ik_eff (enc_neck c)) * (length_neck s * length_neck s)
     = dist2 (mat_neck j) (mat_head j)
  /\ len2 (ik_eff (enc_leg_L c)) * (length_leg_L s * length_leg_L s)
     = dist2 (mat_leg_L j) (mat_foot_L j)
  /\ len2 (ik_eff (enc_leg_R c)) * (length_leg_R s * length_leg_R s)
     = dist2 (mat_leg_R j) (mat_foot_R j)
  /\ len2 (ik_eff (enc_arm_L c)) * (length_arm_L s * length_arm_L s)
     = dist2 (mat_shoulder_L j) (mat_hand_L j)
  /\ len2 (ik_eff (enc_arm_R c)) * (length_arm_R s * length_arm_R s)
     = dist2 (mat_shoulder_R j) (mat_hand_R j).
Proof.
  intros E H (Ls & Ln & Lll & Llr & Lal & Lar).
  destruct (encode_components_yaw s j c E) as (cy & sy & G & U & _).
  destruct (encode_components_chains s j c E)
    as (El & Eu & Hs & Hll & Hlr & Hal & Har & Hn).
  cbv zeta in El, Eu.
  rewrite G in Hs, El, Eu. rewrite with_translation_of_yaw in El, Eu.
  rewrite El in Hll, Hlr. rewrite Eu in Hal, Har, Hn.
  cbv zeta.
  repeat split; eapply yaw_chain_eff_distance; eassumption.
Qed.

Lemma encoded_effector_length_witness :
  exists c,
    encode_components unit_scales sample_pose = Ok c
    /\ Vec.dot (ik_eff (enc_leg_L c)) (ik_eff (enc_leg_L c)) * (1 * 1)
       = Vec.dot (Vec.sub (MMat2Trans (mat_foot_L sample_pose))
                          (MMat2Trans (mat_leg_L sample_pose)))
                 (Vec.sub (MMat2Trans (mat_foot_L sample_pose))
                          (MMat2Trans (mat_leg_L sample_pose))).
Proof.
  destruct (upright_pose_encoded unit_scales sample_pose
              unit_height_positive sample_pose_upright) as (c & E & _).
  exists c. split; [exact E|].
  apply (encoded_effector_length unit_scales sample_pose c E
           unit_height_positive sample_lengths_nonzero).
Defined.

(** ** Node and plug-in registration *)

Module PluginFacts.

Import String.
Import Plugin.
Local Open Scope string_scope.
Local Open Scope bool_scope.

Lemma forallb_In {A : Type} (f : A -> bool) (l : list A) :
  forallb f l = true -> forall x, In x l -> f x = true.
Proof. intros H x. apply (proj1 (forallb_forall f l) H). Qed.

(** X17. [init_encode] returns, and every name that [ikrig_encode.compute]
    looks up on the class (each of [float_attrs] and [mat_attrs], and
    [result]) is a member that holds an attribute of that very name, added
    to the node; each of these inputs is declared to affect [result]. *)
Theorem encode_attributes_registered :
  exists st : node_class,
    initialized init_encode = Some st
    /\ (forall a, In a (float_attrs ++ mat_attrs)%list ->
          usable st a = true /\ declared_affects st a "result" = true)
    /\ usable st "result" = true
    /\ List.length (added st) = 26%nat.
Proof.
  destruct (initialized init_encode) as [st|] eqn:E;
    [|vm_compute in E; discriminate].
  exists st. split; [reflexivity|].
  vm_compute in E. injection E as E.
  split; [|split; subst st; vm_compute; reflexivity].
  intros a H. apply andb_prop. revert a H.
  apply forallb_In. subst st. vm_compute. reflexivity.
Qed.

(** X18. [init_decode] returns, and every name that [ikrig_decode.compute]
    looks up on the class ([encoded_pose], [offset_mat], each of
    [float_attrs], [global_mat] and each of [out_float3_attrs]) is a member
    that holds an attribute of that very name, added to the node; every
    input is declared to affect every output. *)
Theorem decode_attributes_registered :
  exists st : node_class,
    initialized init_decode = Some st
    /\ (forall a, In a ("encoded_pose" :: "offset_mat" :: float_attrs) ->
          usable st a = true
          /\ forall b, In b ("global_mat" :: out_float3_attrs) ->
               declared_affects st a b = true)
    /\ (forall b, In b ("global_mat" :: out_float3_attrs) -> usable st b = true)
    /\ List.length (affects st) = (9 * 25)%nat.
Proof.
  destruct (initialized init_decode) as [st|] eqn:E;
    [|vm_compute in E; discriminate].
  exists st. split; [reflexivity|].
  vm_compute in E. injection E as E.
  split; [|split; [|subst st; vm_compute; reflexivity]].
  - intros a H.
    assert (X : usable st a
                && forallb (fun b => declared_affects st a b)
                     ("global_mat" :: out_float3_attrs) = true).
    { revert a H. apply forallb_In. subst st. vm_compute. reflexivity. }
    apply andb_prop in X. destruct X as [X1 X2].
    split; [exact X1|]. apply forallb_In. exact X2.
  - apply forallb_In. subst st. vm_compute. reflexivity.
Qed.


(** X20. In each node the long names of all attributes created are pairwise
    distinct, and so are the short names (the children of the Euler
    outputs included). *)
Theorem attribute_names_distinct :
  exists st_e st_d : node_class,
    initialized init_encode = Some st_e
    /\ initialized init_decode = Some st_d
    /\ distinct (map long_name (objects st_e)) = true
    /\ distinct (map short_name (objects st_e)) = true
    /\ distinct (map long_name (objects st_d)) = true
    /\ distinct (map short_name (objects st_d)) = true.
Proof.
  destruct (initialized init_encode) as [st_e|] eqn:Ee;
    [|vm_compute in Ee; discriminate].
  destruct (initialized init_decode) as [st_d|] eqn:Ed;
    [|vm_compute in Ed; discriminate].
  exists st_e, st_d. split; [reflexivity|]. split; [reflexivity|].
  vm_compute in Ee. injection Ee as Ee. vm_compute in Ed. injection Ed as Ed.
  subst. repeat split; vm_compute; reflexivity.
Qed.


End PluginFacts.
